(** * serv: watcher, supervisor and rotating log writer

  A shallow embedding of the reload core of [lightyen/serv]:
  - [inotify.go]: the watch tables and [AddWatch];
  - [main.go]: the start-up registrations, the fingerprint over the
    watched targets and the supervising [select] loop;
  - [settings/config.go]: [readConfigFile];
  - [zok/log] (the rotating writer): [write], [openExistingOrNew],
    [openNew], [rotate], [timeFromName], [oldLogFiles], [backupName]
    and the selection made by [mill].

  Go strings are [string]; byte slices are [list byte]; Go maps are
  [gmap]; [int]/[int64] values are [Z] (sizes and lengths stay far
  below 2^63, so no addition of the modelled code wraps). *)

From Stdlib Require Import ZArith Lia Ascii String.
From Stdlib.Strings Require Import Byte.
From stdpp Require Import base gmap strings list sorting.

Local Open Scope Z_scope.
#[local] Set Warnings "-clear-no-such-hyp".

#[global] Instance byte_eq_dec : EqDecision byte := Byte.byte_eq_dec.

(** ** Go's [strings] package on [string] *)

Module Strings.

Abbreviation chars := String.list_ascii_of_string.
Abbreviation of_chars := String.string_of_list_ascii.

Definition len (s : string) : Z := Z.of_nat (String.length s).

Fixpoint is_prefix (p s : list ascii) : bool :=
  match p, s with
  | [], _ => true
  | a :: p', b :: s' => bool_decide (a = b) && is_prefix p' s'
  | _ :: _, [] => false
  end.

(** [strings.HasPrefix] *)
Definition HasPrefix (s prefix : string) : bool :=
  is_prefix (chars prefix) (chars s).

(** [strings.HasSuffix] *)
Definition HasSuffix (s suffix : string) : bool :=
  is_prefix (reverse (chars suffix)) (reverse (chars s)).

(** [strings.TrimSuffix]: [s] without the trailing [suffix], or [s]. *)
Definition TrimSuffix (s suffix : string) : string :=
  if HasSuffix s suffix
  then of_chars (take (length (chars s) - length (chars suffix))%nat (chars s))
  else s.

(** The slice expression [s[lo:hi]]; [None] is Go's run-time panic
    (slice bounds out of range). *)
Definition slice (s : string) (lo hi : Z) : option string :=
  if bool_decide (0 <= lo <= hi /\ hi <= len s)
  then Some (of_chars (take (Z.to_nat (hi - lo)) (drop (Z.to_nat lo) (chars s))))
  else None.

(** [strings.TrimPrefix]: [s] without the leading [prefix], or [s]. *)
Definition TrimPrefix (s prefix : string) : string :=
  if HasPrefix s prefix
  then of_chars (drop (length (chars prefix)) (chars s))
  else s.

End Strings.

(** ** Go's [path/filepath] on Unix paths

  The functions of the standard library that the modelled code calls,
  written from their documented behaviour: [Clean] collapses repeated
  separators, drops [.] elements, resolves inner [..] elements, drops
  [..] elements that begin a rooted path, and returns [.] for an empty
  result. *)

Module Filepath.
Import Strings.

Definition sep : ascii := "/"%char.

(** The elements of a path between separators. *)
Fixpoint split_elems (cur : list ascii) (s : list ascii) : list (list ascii) :=
  match s with
  | [] => [reverse cur]
  | c :: s' =>
      if bool_decide (c = sep) then reverse cur :: split_elems [] s'
      else split_elems (c :: cur) s'
  end.

Definition dot : list ascii := ["."%char].
Definition dotdot : list ascii := ["."%char; "."%char].

(** One element of the path against the elements kept so far (newest
    first). *)
Definition clean_step (rooted : bool) (out : list (list ascii)) (e : list ascii)
    : list (list ascii) :=
  if bool_decide (e = []) || bool_decide (e = dot) then out
  else if bool_decide (e = dotdot) then
    match out with
    | top :: rest =>
        if bool_decide (top = dotdot) then e :: out else rest
    | [] => if rooted then [] else [e]
    end
  else e :: out.

Fixpoint join_elems (es : list (list ascii)) : list ascii :=
  match es with
  | [] => []
  | [e] => e
  | e :: es' => e ++ sep :: join_elems es'
  end.

Definition clean_chars (p : list ascii) : list ascii :=
  match p with
  | [] => dot
  | c :: _ =>
      let rooted := bool_decide (c = sep) in
      let kept := reverse (foldl (clean_step rooted) [] (split_elems [] p)) in
      let body := join_elems kept in
      if rooted then sep :: body
      else match body with [] => dot | _ => body end
  end.

(** [filepath.Clean] *)
Definition Clean (path : string) : string := of_chars (clean_chars (chars path)).

(** The index just after the last separator of [p] (0 when there is
    none), as the backwards loops of [Dir], [Split] and [Base] find it. *)
Fixpoint after_last_sep (p : list ascii) : nat :=
  match p with
  | [] => 0
  | c :: p' =>
      if bool_decide (sep ∈ p) then
        if bool_decide (sep ∈ p') then S (after_last_sep p') else 1
      else 0
  end.

(** [filepath.Dir] *)
Definition Dir (path : string) : string :=
  let p := chars path in
  of_chars (clean_chars (take (after_last_sep p) p)).

(** [filepath.Split] *)
Definition Split (path : string) : string * string :=
  let p := chars path in
  (of_chars (take (after_last_sep p) p), of_chars (drop (after_last_sep p) p)).

Fixpoint strip_trailing_sep (rp : list ascii) : list ascii :=
  match rp with
  | c :: rp' => if bool_decide (c = sep) then strip_trailing_sep rp' else rp
  | [] => []
  end.

(** [filepath.Base] *)
Definition Base (path : string) : string :=
  match chars path with
  | [] => "."
  | p =>
      let p1 := reverse (strip_trailing_sep (reverse p)) in
      match drop (after_last_sep p1) p1 with
      | [] => "/"
      | b => of_chars b
      end
  end.

(** The suffix of the last element from its last dot on, scanning the
    reversed path as [Ext]'s loop does. *)
Fixpoint ext_rev (rp acc : list ascii) : list ascii :=
  match rp with
  | [] => []
  | c :: rp' =>
      if bool_decide (c = sep) then []
      else if bool_decide (c = "."%char) then c :: acc
      else ext_rev rp' (c :: acc)
  end.

(** [filepath.Ext] *)
Definition Ext (path : string) : string :=
  of_chars (ext_rev (reverse (chars path)) []).

(** [filepath.Join]: empty elements are ignored, the rest is joined
    with separators and cleaned; the empty string when nothing is left. *)
Definition Join (elems : list string) : string :=
  match filter (fun e => e ≠ ""%string) elems with
  | [] => ""
  | es => of_chars (clean_chars (join_elems (chars <$> es)))
  end.

End Filepath.

(** ** [inotify.go]: the watch tables *)

Module Inotify.
Import Strings Filepath.

(** [syscall.IN_*] bits and the [Op] masks built from them. *)
Definition IN_MODIFY : Z := 0x2.
Definition IN_ATTRIB : Z := 0x4.
Definition IN_CLOSE_WRITE : Z := 0x8.
Definition IN_MOVED_FROM : Z := 0x40.
Definition IN_MOVED_TO : Z := 0x80.
Definition IN_CREATE : Z := 0x100.
Definition IN_DELETE : Z := 0x200.
Definition IN_DELETE_SELF : Z := 0x400.
Definition IN_MOVE_SELF : Z := 0x800.

Definition Op := Z.
Definition Create : Op := Z.lor IN_CREATE IN_MOVED_TO.
Definition Remove : Op := Z.lor IN_DELETE IN_DELETE_SELF.
Definition Rename : Op := Z.lor IN_MOVED_FROM IN_MOVE_SELF.
Definition CloseWrite : Op := IN_CLOSE_WRITE.
Definition Modify : Op := IN_MODIFY.
Definition Chmod : Op := IN_ATTRIB.

Definition flagMask (mask v : Z) : bool := bool_decide (Z.land mask v = v).

(** [ErrWatched], or the [syscall.Errno] that [InotifyAddWatch] gave. *)
Inductive error :=
  | ErrWatched
  | Errno (n : Z).

#[global] Instance error_eq_dec : EqDecision error.
Proof. solve_decision. Defined.

(** [type watches struct]: watch descriptor to directory, directory to
    watch descriptor, target to watch descriptor. *)
Record watches := {
  wdDir : gmap Z string;
  dirWd : gmap string Z;
  targets : gmap string Z;
}.

(** [type INotify struct]. The file descriptor plays no part in the
    tables; [syscalls] records, oldest first, every
    [syscall.InotifyAddWatch(fd, dir, mask)] issued so far, which is
    how the kernel's directory watches come into being. *)
Record INotify := {
  tables : watches;
  syscalls : list (string * Z);
}.

(** [NewINotify] *)
Definition NewINotify : INotify :=
  {| tables := {| wdDir := ∅; dirWd := ∅; targets := ∅ |}; syscalls := [] |}.

(** The kernel's answer to [InotifyAddWatch], a watch descriptor or an
    errno, as a function of the calls issued before and of the call. *)
Definition kernel := list (string * Z) -> string -> Z -> Z + Z.

Section WithKernel.
Variable InotifyAddWatch : kernel.

(** [func (f *INotify) AddWatch(path string, op Op) error]; [None] is
    the [nil] error. *)
Definition AddWatch (f : INotify) (path : string) (op : Op)
    : option error * INotify :=
  let w := tables f in
  let t := Clean path in
  match targets w !! t with
  | Some _ => (Some ErrWatched, f)
  | None =>
      let dir := Dir t in
      match dirWd w !! dir with
      | Some wd =>
          (None, {| tables := {| wdDir := wdDir w; dirWd := dirWd w;
                                 targets := <[t := wd]> (targets w) |};
                    syscalls := syscalls f |})
      | None =>
          let issued := syscalls f ++ [(dir, op)] in
          match InotifyAddWatch (syscalls f) dir op with
          | inr errno =>
              (Some (Errno errno), {| tables := w; syscalls := issued |})
          | inl wd =>
              (None, {| tables := {| wdDir := <[wd := dir]> (wdDir w);
                                     dirWd := <[dir := wd]> (dirWd w);
                                     targets := <[t := wd]> (targets w) |};
                        syscalls := issued |})
          end
      end
  end.

(** [func (w *watches) deleteSelf(e)]: forget the directory of watch
    descriptor [wd] and every target registered under it. *)
Definition deleteSelf (w : watches) (wd : Z) : bool * watches :=
  match wdDir w !! wd with
  | None => (false, w)
  | Some dir =>
      (true, {| wdDir := delete wd (wdDir w);
                dirWd := delete dir (dirWd w);
                targets := filter (fun kv => kv.2 ≠ wd) (targets w) |})
  end.

End WithKernel.

(** [func (f *INotify) Watched() []string] ranges over the [targets]
    map; Go leaves the order of that iteration unspecified, so every
    listing of the keys is a possible result. *)
Definition Watched (f : INotify) (l : list string) : Prop :=
  l ≡ₚ elements (dom (targets (tables f))).

(** The directory watches held: the entries of [dirWd]. *)
Definition dir_watches (f : INotify) : nat := size (dirWd (tables f)).

(** A kernel that grants every request with a fresh descriptor. *)
Definition granting : kernel :=
  fun issued _ _ => inl (Z.of_nat (length issued) + 1).

(** [func maskToOp(mask uint32) (op Op)] *)
Definition maskToOp (mask : Z) : Op :=
  let op := 0 in
  let op := if flagMask mask IN_CREATE || flagMask mask IN_MOVED_TO
            then Z.lor op Create else op in
  let op := if flagMask mask IN_DELETE_SELF || flagMask mask IN_DELETE
            then Z.lor op Remove else op in
  let op := if flagMask mask IN_MOVE_SELF || flagMask mask IN_MOVED_FROM
            then Z.lor op Rename else op in
  let op := if flagMask mask IN_CLOSE_WRITE then Z.lor op CloseWrite else op in
  let op := if flagMask mask IN_MODIFY then Z.lor op Modify else op in
  let op := if flagMask mask IN_ATTRIB then Z.lor op Chmod else op in
  op.

(** What the tables keep true of themselves: the directory recorded for
    a watch descriptor is recorded back with that descriptor, and a
    target carries the descriptor recorded for its directory. *)
Definition consistent (w : watches) : Prop :=
  (forall wd dir, wdDir w !! wd = Some dir -> dirWd w !! dir = Some wd)
  /\ (forall t wd, targets w !! t = Some wd -> dirWd w !! Dir t = Some wd).

(** [syscall.InotifyEvent], the record that the kernel writes in front
    of each name. *)
Module Syscall.

Record InotifyEvent := {
  Wd : Z;
  Mask : Z;
  Cookie : Z;
  Len : Z;
}.

End Syscall.

Definition IN_IGNORED : Z := 0x8000.
Definition SizeofInotifyEvent : Z := 16.
Definition PathMax : Z := 4096.

(** [type InotifyEvent struct] of this package; its field [Op] is
    [EventOp] here. *)
Record InotifyEvent := {
  Len : Z;
  Mask : Z;
  Name : string;
  Path : string;
  EventOp : Op;
}.

Definition u8 (b : byte) : Z := Z.of_N (Byte.to_N b).

(** A [uint32] field read through the pointer cast, on a little-endian
    machine; [None] when the four bytes are not all inside the buffer. *)
Definition uint32_at (buf : list byte) (off : nat) : option Z :=
  b0 ← buf !! off;
  b1 ← buf !! (off + 1)%nat;
  b2 ← buf !! (off + 2)%nat;
  b3 ← buf !! (off + 3)%nat;
  Some (u8 b0 + 256 * (u8 b1 + 256 * (u8 b2 + 256 * u8 b3))).

(** The conversion [int32(x)] of a [uint32]. *)
Definition int32 (x : Z) : Z := if bool_decide (x < 2 ^ 31) then x else x - 2 ^ 32.

(** [e], the cast of [&buf[offset]] to a pointer to [syscall.InotifyEvent] *)
Definition event_at (buf : list byte) (offset : nat) : option Syscall.InotifyEvent :=
  wd ← uint32_at buf offset;
  mask ← uint32_at buf (offset + 4);
  cookie ← uint32_at buf (offset + 8);
  len ← uint32_at buf (offset + 12);
  Some {| Syscall.Wd := int32 wd; Syscall.Mask := mask;
          Syscall.Cookie := cookie; Syscall.Len := len |}.

(** Lines 300-307: the bytes [b[i]], [b[i+1]], ... of the array of
    [PathMax] bytes at [start], up to the first NUL among the next
    [count]; [None] when the index leaves the array (a panic) or the
    address leaves the buffer. *)
Fixpoint name_bytes (buf : list byte) (start i : nat) (count : nat)
    : option (list byte) :=
  match count with
  | O => Some []
  | S count' =>
      if bool_decide (PathMax <= Z.of_nat i) then None
      else
        match buf !! (start + i)%nat with
        | None => None
        | Some b =>
            if bool_decide (b = x00) then Some []
            else cons b <$> name_bytes buf start (S i) count'
        end
  end.

(** [w.getDir(e)]: a missing key of [wdDir] reads as the empty string. *)
Definition getDir (w : watches) (e : Syscall.InotifyEvent) : string :=
  default "" (wdDir w !! Syscall.Wd e).

(** Lines 309-326: the event built from a record and its name, the
    tables after a possible [deleteSelf], and the event when it is sent
    on [ch]. *)
Definition dispatch (w : watches) (e : Syscall.InotifyEvent) (s : list byte)
    : watches * option InotifyEvent :=
  let event := {| Len := Syscall.Len e; Mask := Syscall.Mask e;
                  Name := String.string_of_list_byte s;
                  Path := getDir w e;
                  EventOp := maskToOp (Syscall.Mask e) |} in
  let w1 := if bool_decide (Z.land (Syscall.Mask e) IN_DELETE_SELF = IN_DELETE_SELF)
            then (deleteSelf w (Syscall.Wd e)).2 else w in
  let t := Clean (Join [Path event; Name event]) in
  (w1, match targets w1 !! t with Some _ => Some event | None => None end).

(** How the loop over one buffer ends: it ran to the end of the bytes
    read, it stopped on a panic or on a read outside the buffer, or it
    was still going when the fuel ran out. *)
Inductive status :=
  | Finished
  | Fault
  | Running.

(** The inner loop of [Watch] (lines 288-329) over the [n] bytes that
    one [Read] left in [buf], from [offset] on; [sent] collects the
    events sent on [ch], oldest first. The sum
    [syscall.SizeofInotifyEvent + e.Len] is a [uint32] sum. *)
Fixpoint Watch_buffer (fuel : nat) (buf : list byte) (n : Z) (offset : nat)
    (w : watches) (sent : list InotifyEvent) : status * watches * list InotifyEvent :=
  if bool_decide (Z.of_nat offset <= n - SizeofInotifyEvent) then
    match fuel with
    | O => (Running, w, sent)
    | S fuel' =>
        match event_at buf offset with
        | None => (Fault, w, sent)
        | Some e =>
            let next :=
              (offset + Z.to_nat ((SizeofInotifyEvent + Syscall.Len e) mod 2 ^ 32))%nat in
            if bool_decide (Z.land (Syscall.Mask e) IN_IGNORED = IN_IGNORED)
            then Watch_buffer fuel' buf n next w sent
            else
              let name :=
                if bool_decide (Syscall.Len e > 0)
                then name_bytes buf (offset + Z.to_nat SizeofInotifyEvent) 0
                       (Z.to_nat (Syscall.Len e))
                else Some [] in
              match name with
              | None => (Fault, w, sent)
              | Some s =>
                  let '(w1, event) := dispatch w e s in
                  Watch_buffer fuel' buf n next w1 (sent ++ option_list event)
              end
        end
    end
  else (Finished, w, sent).

(** What the kernel writes for one event (inotify(7)): the four fields
    in the byte order of the machine, then the name and its NUL
    padding, both counted in the length field. *)
Record kernel_event := {
  wd : Z;
  mask : Z;
  cookie : Z;
  name : list byte;
  padding : nat;
}.

Definition byte_of (z : Z) : byte := default x00 (Byte.of_N (Z.to_N (z mod 256))).

Definition le32 (x : Z) : list byte :=
  [byte_of x; byte_of (x / 256); byte_of (x / 65536); byte_of (x / 16777216)].

Definition kernel_record (r : kernel_event) : list byte :=
  le32 (wd r mod 2 ^ 32) ++ le32 (mask r) ++ le32 (cookie r)
  ++ le32 (Z.of_nat (length (name r) + padding r))
  ++ name r ++ replicate (padding r) x00.

(** The ranges of the fields, a name without NUL, and a length that
    fits the array that [Watch] reads the name from. *)
Definition kernel_event_ok (r : kernel_event) : Prop :=
  - 2 ^ 31 <= wd r < 2 ^ 31
  /\ 0 <= mask r < 2 ^ 32
  /\ 0 <= cookie r < 2 ^ 32
  /\ (x00 ∉ name r)
  /\ Z.of_nat (length (name r) + padding r) <= PathMax.

(** The record as [event_at] reads it. *)
Definition header (r : kernel_event) : Syscall.InotifyEvent :=
  {| Syscall.Wd := wd r; Syscall.Mask := mask r; Syscall.Cookie := cookie r;
     Syscall.Len := Z.of_nat (length (name r) + padding r) |}.

End Inotify.

(** ** [settings]: the snapshot read by [main] *)

Module Settings.

(** [type Settings struct] *)
Record Settings := {
  ServePort : Z;
  ServeTLSPort : Z;
  TLSCertificate : string;
  TLSKey : string;
  TLSPfx : string;
  WebRoot : string;
  DataDirectory : string;
}.

(** [var Default] *)
Definition Default : Settings :=
  {| ServePort := 80; ServeTLSPort := 443; TLSCertificate := ""; TLSKey := "";
     TLSPfx := ""; WebRoot := "www"; DataDirectory := "data" |}.

Definition DefaultConfigPath : string := "config/config.json".

(** [func ConfigPath() string]: the [CONFIG] environment variable when
    it is set. *)
Definition ConfigPath (env_CONFIG : option string) : string :=
  match env_CONFIG with
  | Some v => v
  | None => DefaultConfigPath
  end.

End Settings.

(** ** [main.go]: registrations at start-up *)

Module Startup.
Import Settings Inotify.

Definition watch_mask : Op :=
  Z.lor (Z.lor (Z.lor Remove Rename) Create) CloseWrite.

Section WithKernel.
Variable InotifyAddWatch : kernel.

(** Lines 73-95 of [main]: the configuration path is registered, then,
    when the certificate or the key setting is not empty, both of them.
    [inl e] is the error that makes [main] log and return. *)
Definition register_targets (configPath : string) (v : Settings)
    : error + INotify :=
  match AddWatch InotifyAddWatch NewINotify configPath watch_mask with
  | (Some e, _) => inl e
  | (None, f1) =>
      if bool_decide (TLSCertificate v ≠ "" \/ TLSKey v ≠ "") then
        match AddWatch InotifyAddWatch f1 (TLSCertificate v) watch_mask with
        | (Some e, _) => inl e
        | (None, f2) =>
            match AddWatch InotifyAddWatch f2 (TLSKey v) watch_mask with
            | (Some e, _) => inl e
            | (None, f3) => inr f3
            end
        end
      else inr f1
  end.

End WithKernel.

(** The targets held by the tables, as a set. *)
Definition watched_set (f : INotify) : gset string := dom (targets (tables f)).

End Startup.

(** ** Go's [time] package: instants, and the layouts used for backup names

    An instant is a count of nanoseconds since the Unix epoch, in UTC.
    [Format] and [Parse] follow the package documentation for layouts
    built from the elements [2006], [01], [02], [15], [04], [05], a
    fraction [.000] (any number of zeros, closing a run of digits) and the
    literal characters [-], [T], [:], [.], [/] and the space; the
    default backup layout [2006-01-02T15-04-05.000] is one of them.
    Layouts with other elements are outside this fragment. *)

Module Time.
Import Strings.

Definition Time := Z.
Definition Duration := Z.

Definition Millisecond : Duration := 1000000.
Definition Second : Duration := 1000 * Millisecond.
Definition Day : Duration := 86400 * Second.

(** [t.Before(u)], [t.Compare(u)], [t.Add(d)] *)
Definition Before (t u : Time) : bool := t <? u.
Definition Compare (t u : Time) : Z :=
  if t <? u then -1 else if u <? t then 1 else 0.
Definition Add (t : Time) (d : Duration) : Time := t + d.


(** Civil date of a day count since 1970-01-01 (proleptic Gregorian). *)
Definition civil_from_days (z : Z) : Z * Z * Z :=
  let z := z + 719468 in
  let era := z / 146097 in
  let doe := z mod 146097 in
  let yoe := (doe - doe / 1460 + doe / 36524 - doe / 146096) / 365 in
  let doy := doe - (365 * yoe + yoe / 4 - yoe / 100) in
  let mp := (5 * doy + 2) / 153 in
  let d := doy - (153 * mp + 2) / 5 + 1 in
  let m := if mp <? 10 then mp + 3 else mp - 9 in
  let y := yoe + era * 400 in
  (if m <=? 2 then y + 1 else y, m, d).

Definition days_from_civil (y m d : Z) : Z :=
  let y := if m <=? 2 then y - 1 else y in
  let era := y / 400 in
  let yoe := y mod 400 in
  let doy := (153 * (if 2 <? m then m - 3 else m + 9) + 2) / 5 + d - 1 in
  let doe := yoe * 365 + yoe / 4 - yoe / 100 + doy in
  era * 146097 + doe - 719468.

Definition is_leap (y : Z) : bool :=
  (y mod 4 =? 0) && (negb (y mod 100 =? 0) || (y mod 400 =? 0)).

Definition days_in (y m : Z) : Z :=
  if m =? 2 then (if is_leap y then 29 else 28)
  else if (m =? 4) || (m =? 6) || (m =? 9) || (m =? 11) then 30 else 31.

(** [time.Date(y, m, d, hh, mm, ss, ns, time.UTC)] *)
Definition Date (y m d hh mm ss ns : Z) : Time :=
  (days_from_civil y m d * 86400 + hh * 3600 + mm * 60 + ss) * Second + ns.

(** Layout elements. *)
Inductive chunk :=
  | Lit (c : ascii)
  | StdYear | StdMonth | StdDay | StdHour | StdMinute | StdSecond
  | StdFrac (digits : nat).

Definition is_digit (c : ascii) : bool :=
  bool_decide (48 <= Z.of_nat (nat_of_ascii c) <= 57).

Fixpoint count_zeros (s : list ascii) : nat :=
  match s with
  | "0"%char :: s' => S (count_zeros s')
  | _ => 0
  end.

(** The elements of a layout, leftmost first. [fuel] bounds the scan by
    the length of the layout. *)
Fixpoint chunks (fuel : nat) (s : list ascii) : list chunk :=
  match fuel with
  | O => []
  | S fuel =>
      match s with
      | [] => []
      | "2"%char :: "0"%char :: "0"%char :: "6"%char :: r => StdYear :: chunks fuel r
      | "0"%char :: "1"%char :: r => StdMonth :: chunks fuel r
      | "0"%char :: "2"%char :: r => StdDay :: chunks fuel r
      | "1"%char :: "5"%char :: r => StdHour :: chunks fuel r
      | "0"%char :: "4"%char :: r => StdMinute :: chunks fuel r
      | "0"%char :: "5"%char :: r => StdSecond :: chunks fuel r
      | "."%char :: r =>
          let n := count_zeros r in
          match n, drop n r with
          | O, _ => Lit "."%char :: chunks fuel r
          | _, c :: _ =>
              if is_digit c then Lit "."%char :: chunks fuel r
              else StdFrac n :: chunks fuel (drop n r)
          | _, [] => StdFrac n :: chunks fuel (drop n r)
          end
      | c :: r => Lit c :: chunks fuel r
      end
  end.

Definition layout_chunks (layout : string) : list chunk :=
  chunks (String.length layout) (chars layout).

Definition digit_char (d : Z) : ascii := ascii_of_nat (Z.to_nat (48 + d mod 10)).

(** [v] in decimal, zero-padded to [width] digits (the low [width]
    digits when [v] has more). *)
Fixpoint pad (width : nat) (v : Z) (acc : list ascii) : list ascii :=
  match width with
  | O => acc
  | S w => pad w (v / 10) (digit_char v :: acc)
  end.

Definition format_chunk (t : Time) (c : chunk) : list ascii :=
  let '(y, m, d) := civil_from_days (t / Day) in
  let sod := (t mod Day) / Second in
  match c with
  | Lit c => [c]
  | StdYear => pad 4 y []
  | StdMonth => pad 2 m []
  | StdDay => pad 2 d []
  | StdHour => pad 2 (sod / 3600) []
  | StdMinute => pad 2 (sod mod 3600 / 60) []
  | StdSecond => pad 2 (sod mod 60) []
  | StdFrac n => "."%char :: take n (pad 9 (t mod Second) [])
  end.

(** [t.UTC().Format(layout)] *)
Definition Format (layout : string) (t : Time) : string :=
  of_chars (concat (format_chunk t <$> layout_chunks layout)).

(** Exactly [width] decimal digits off the front of the input. *)
Fixpoint read_digits (width : nat) (acc : Z) (s : list ascii) : option (Z * list ascii) :=
  match width with
  | O => Some (acc, s)
  | S w =>
      match s with
      | c :: s' =>
          if is_digit c
          then read_digits w (10 * acc + (Z.of_nat (nat_of_ascii c) - 48)) s'
          else None
      | [] => None
      end
  end.

(** The fields read so far: year, month, day, hour, minute, second,
    nanosecond. *)
Record fields := {
  f_year : Z; f_month : Z; f_day : Z;
  f_hour : Z; f_min : Z; f_sec : Z; f_nsec : Z;
}.

Definition no_fields : fields :=
  {| f_year := 0; f_month := 1; f_day := 1;
     f_hour := 0; f_min := 0; f_sec := 0; f_nsec := 0 |}.

Definition parse_chunk (c : chunk) (st : fields * list ascii) : option (fields * list ascii) :=
  let '(f, s) := st in
  match c with
  | Lit c =>
      match s with
      | c' :: s' => if bool_decide (c = c') then Some (f, s') else None
      | [] => None
      end
  | StdYear =>
      '(v, s') ← read_digits 4 0 s;
      Some ({| f_year := v; f_month := f_month f; f_day := f_day f; f_hour := f_hour f;
               f_min := f_min f; f_sec := f_sec f; f_nsec := f_nsec f |}, s')
  | StdMonth =>
      '(v, s') ← read_digits 2 0 s;
      if bool_decide (1 <= v <= 12) then
        Some ({| f_year := f_year f; f_month := v; f_day := f_day f; f_hour := f_hour f;
                 f_min := f_min f; f_sec := f_sec f; f_nsec := f_nsec f |}, s')
      else None
  | StdDay =>
      '(v, s') ← read_digits 2 0 s;
      Some ({| f_year := f_year f; f_month := f_month f; f_day := v; f_hour := f_hour f;
               f_min := f_min f; f_sec := f_sec f; f_nsec := f_nsec f |}, s')
  | StdHour =>
      '(v, s') ← read_digits 2 0 s;
      if bool_decide (v < 24) then
        Some ({| f_year := f_year f; f_month := f_month f; f_day := f_day f; f_hour := v;
                 f_min := f_min f; f_sec := f_sec f; f_nsec := f_nsec f |}, s')
      else None
  | StdMinute =>
      '(v, s') ← read_digits 2 0 s;
      if bool_decide (v < 60) then
        Some ({| f_year := f_year f; f_month := f_month f; f_day := f_day f; f_hour := f_hour f;
                 f_min := v; f_sec := f_sec f; f_nsec := f_nsec f |}, s')
      else None
  | StdSecond =>
      '(v, s') ← read_digits 2 0 s;
      if bool_decide (v < 60) then
        Some ({| f_year := f_year f; f_month := f_month f; f_day := f_day f; f_hour := f_hour f;
                 f_min := f_min f; f_sec := v; f_nsec := f_nsec f |}, s')
      else None
  | StdFrac n =>
      match s with
      | c :: s1 =>
          if bool_decide (c = "."%char) then
            '(v, s') ← read_digits n 0 s1;
            Some ({| f_year := f_year f; f_month := f_month f; f_day := f_day f;
                     f_hour := f_hour f; f_min := f_min f; f_sec := f_sec f;
                     f_nsec := v * 10 ^ (9 - Z.of_nat n) |}, s')
          else None
      | [] => None
      end
  end.

Fixpoint parse_chunks (cs : list chunk) (st : fields * list ascii) : option (fields * list ascii) :=
  match cs with
  | [] => Some st
  | c :: cs' => st' ← parse_chunk c st; parse_chunks cs' st'
  end.

(** [time.Parse(layout, value)]; [None] is a non-nil error (a field that
    does not match, a value out of range, or extra text). *)
Definition Parse (layout value : string) : option Time :=
  '(f, rest) ← parse_chunks (layout_chunks layout) (no_fields, chars value);
  if bool_decide (rest = [] /\ 1 <= f_day f <= days_in (f_year f) (f_month f))
  then Some (Date (f_year f) (f_month f) (f_day f) (f_hour f) (f_min f) (f_sec f) (f_nsec f))
  else None.

End Time.

(** ** The operating system under the log writer

    Paths name inodes, inodes hold files; an open [*os.File] is the inode
    it was opened on, so a handle outlives the renaming of its path.
    System calls fail for the reasons this state can express (a path that
    names nothing, an empty path); [os.MkdirAll] and [Close] succeed. *)

Module Os.

Record File := {
  data : list byte;
  mode : Z;
}.

Record World := {
  names : gmap string Z;
  inodes : gmap Z File;
  next_inode : Z;
  (** [time.Now()] *)
  now : Z;
  (** [go l.TryMill()] statements executed so far *)
  mill_runs : nat;
}.

Inductive error :=
  | ErrNotExist
  | ErrInvalid
  | ErrWriteLength (writeLen max : Z)
  | ErrSliceBounds
  | Wrap (msg : string) (e : error).

(** [errors.Is(err, fs.ErrNotExist)] *)
Fixpoint is_not_exist (e : error) : bool :=
  match e with
  | ErrNotExist => true
  | Wrap _ e' => is_not_exist e'
  | _ => false
  end.

Definition empty_file : File := {| data := []; mode := 0 |}.

Definition inode (w : World) (i : Z) : File := default empty_file (inodes w !! i).

Definition fsize (f : File) : Z := Z.of_nat (length (data f)).

Definition with_fs (w : World) (ns : gmap string Z) (ino : gmap Z File) (next : Z) : World :=
  {| names := ns; inodes := ino; next_inode := next; now := now w; mill_runs := mill_runs w |}.

(** [os.Stat] *)
Definition Stat (w : World) (name : string) : error + File :=
  match names w !! name with
  | Some i => inr (inode w i)
  | None => inl ErrNotExist
  end.

(** [os.Rename] *)
Definition Rename (w : World) (oldpath newpath : string) : error + World :=
  match names w !! oldpath with
  | Some i => inr (with_fs w (<[newpath := i]> (delete oldpath (names w))) (inodes w) (next_inode w))
  | None => inl ErrNotExist
  end.

(** [os.OpenFile(name, os.O_APPEND|os.O_WRONLY, perm)] *)
Definition OpenAppend (w : World) (name : string) : error + Z :=
  match names w !! name with
  | Some i => inr i
  | None => inl ErrNotExist
  end.

(** [os.OpenFile(name, os.O_CREATE|os.O_WRONLY|os.O_TRUNC, perm)]: an
    existing file is emptied and keeps its mode, a missing one is
    created with [perm]. *)
Definition Create (w : World) (name : string) (perm : Z) : error + (Z * World) :=
  if bool_decide (name = "") then inl ErrNotExist
  else match names w !! name with
       | Some i =>
           inr (i, with_fs w (names w)
                     (<[i := {| data := []; mode := mode (inode w i) |}]> (inodes w))
                     (next_inode w))
       | None =>
           let i := next_inode w in
           inr (i, with_fs w (<[name := i]> (names w))
                     (<[i := {| data := []; mode := perm |}]> (inodes w))
                     (i + 1))
       end.

(** [f.Write(p)] on a handle positioned at the end of its file; a [nil]
    handle gives [os.ErrInvalid]. *)
Definition Write (w : World) (h : option Z) (p : list byte) : Z * option error * World :=
  match h with
  | None => (0, Some ErrInvalid, w)
  | Some i =>
      (Z.of_nat (length p), None,
       with_fs w (names w)
         (<[i := {| data := data (inode w i) ++ p; mode := mode (inode w i) |}]> (inodes w))
         (next_inode w))
  end.

Definition spawn_mill (w : World) : World :=
  {| names := names w; inodes := inodes w; next_inode := next_inode w;
     now := now w; mill_runs := S (mill_runs w) |}.

(** [os.Remove] of a file. *)
Definition Remove (w : World) (name : string) : option error * World :=
  match names w !! name with
  | Some _ => (None, with_fs w (delete name (names w)) (inodes w) (next_inode w))
  | None => (Some ErrNotExist, w)
  end.

End Os.

(** ** The rotating log writer ([LogrotateWriter]) *)

Module Logrotate.
Import Strings Filepath Os.

Definition defaultTimeFormat : string := "2006-01-02T15-04-05.000".
Definition compressSuffix : string := ".zst".
Definition defaultMaxSize : Z := Z.shiftl 8 20.

(** [type LogrotateOption struct] ([OnMillFailed], a callback that only
    observes errors, is left out). [MaxAge] is a [time.Duration]. *)
Record LogrotateOption := {
  Filename : string;
  MaxSize : Z;
  MaxBackups : Z;
  MaxAge : Z;
  BackupTimeFormat : string;
  FileHeader : string;
  Compress : bool;
}.

(** [type LogrotateWriter struct] without its two mutexes; [file] is the
    inode of the open handle, [None] for [nil]. *)
Record LogrotateWriter := {
  filename : string;
  dirname : string;
  basename : string;
  ext : string;
  options : LogrotateOption;
  size : Z;
  file : option Z;
}.

Definition set_file (h : option Z) (l : LogrotateWriter) : LogrotateWriter :=
  {| filename := filename l; dirname := dirname l; basename := basename l; ext := ext l;
     options := options l; size := size l; file := h |}.

Definition set_size (n : Z) (l : LogrotateWriter) : LogrotateWriter :=
  {| filename := filename l; dirname := dirname l; basename := basename l; ext := ext l;
     options := options l; size := n; file := file l |}.

(** [func NewLogrotateWriter(options LogrotateOption) *LogrotateWriter];
    [tempDir] is [os.TempDir()] and [arg0] is [os.Args[0]]. *)
Definition NewLogrotateWriter (tempDir arg0 : string) (o : LogrotateOption)
    : LogrotateWriter :=
  let fmt := if bool_decide (BackupTimeFormat o = "") then defaultTimeFormat
             else BackupTimeFormat o in
  let fname := if bool_decide (Filename o ≠ "") then Clean (Filename o)
               else Join [tempDir; Base arg0 +:+ "-messages.log"] in
  let maxsize := if bool_decide (MaxSize o <= 0) then defaultMaxSize else MaxSize o in
  {| filename := fname;
     dirname := (Split fname).1;
     basename := (Split fname).2;
     ext := Ext fname;
     options := {| Filename := Filename o; MaxSize := maxsize; MaxBackups := MaxBackups o;
                   MaxAge := MaxAge o; BackupTimeFormat := fmt;
                   FileHeader := FileHeader o; Compress := Compress o |};
     size := 0;
     file := None |}.

(** [func (l *LogrotateWriter) max() int64] *)
Definition max (l : LogrotateWriter) : Z := MaxSize (options l).

(** [l.basename[:len(l.basename)-len(l.ext)] + "-"]; [None] when the
    slice expression panics. *)
Definition prefix (l : LogrotateWriter) : option string :=
  s ← slice (basename l) 0 (len (basename l) - len (ext l));
  Some (s +:+ "-").

(** [type logInfo struct] *)
Record logInfo := {
  t : Z;
  name : string;
}.

#[global] Instance logInfo_eq_dec : EqDecision logInfo.
Proof. solve_decision. Defined.

(** What [fs.ReadDir] tells about one entry of the log directory. *)
Record DirEntry := {
  Name : string;
  IsRegular : bool;
}.

(** The result [(time.Time, bool)] of [timeFromName], or the panic of
    its slice expression. *)
Inductive stamp :=
  | IsBackup (t : Z)
  | NotBackup
  | SlicePanic.

(** The header as the bytes [WriteString] writes. *)
Definition header_bytes (l : LogrotateWriter) : list byte :=
  String.list_byte_of_string (FileHeader (options l)).

Definition header_len (l : LogrotateWriter) : Z :=
  Z.of_nat (length (header_bytes l)).

Section WithTime.
(** [t.UTC().Format(layout)] and [time.Parse(layout, value)] *)
Variable Format : string -> Z -> string.
Variable Parse : string -> string -> option Z.

(** [func (l *LogrotateWriter) backupName() string] at instant [now];
    the file name inside the directory, then the joined path. *)
Definition backupBase (l : LogrotateWriter) (now : Z) : option string :=
  p ← prefix l;
  Some (p +:+ Format (BackupTimeFormat (options l)) now +:+ ext l).

Definition backupName (l : LogrotateWriter) (now : Z) : option string :=
  b ← backupBase l now;
  Some (Join [dirname l; b]).

(** [func (l *LogrotateWriter) close() error] *)
Definition close (l : LogrotateWriter) : option error * LogrotateWriter :=
  match file l with
  | None => (None, l)
  | Some _ => (None, set_file None l)
  end.

(** [func (l *LogrotateWriter) openNew() error] *)
Definition openNew (l : LogrotateWriter) (w : World)
    : option error * LogrotateWriter * World :=
  let renamed : error + (Z * World) :=
    match Stat w (filename l) with
    | inr fi =>
        match backupName l (now w) with
        | None => inl ErrSliceBounds
        | Some b =>
            match Rename w (filename l) b with
            | inl e => inl (Wrap "can't rename log file" e)
            | inr w1 => inr (mode fi, w1)
            end
        end
    | inl _ => inr (420, w)  (* os.FileMode(0644) *)
    end in
  match renamed with
  | inl e => (Some e, l, w)
  | inr (perm, w1) =>
      match Create w1 (filename l) perm with
      | inl e => (Some (Wrap "can't open new logfile" e), l, w1)
      | inr (h, w2) =>
          let l1 := set_size 0 (set_file (Some h) l) in
          if bool_decide (FileHeader (options l) ≠ "") then
            match Write w2 (file l1) (header_bytes l) with
            | (_, Some e, w3) => (Some (Wrap "can't write file header to file" e), l1, w3)
            | (n, None, w3) => (None, set_size (size l1 + n) l1, w3)
            end
          else (None, l1, w2)
      end
  end.

(** [func (l *LogrotateWriter) rotate() error] *)
Definition rotate (l : LogrotateWriter) (w : World)
    : option error * LogrotateWriter * World :=
  match close l with
  | (Some e, l1) => (Some e, l1, w)
  | (None, l1) =>
      match openNew l1 w with
      | (Some e, l2, w2) => (Some e, l2, w2)
      | (None, l2, w2) => (None, l2, spawn_mill w2)
      end
  end.

(** [func (l *LogrotateWriter) openExistingOrNew(writeLen int) error] *)
Definition openExistingOrNew (l : LogrotateWriter) (w : World) (writeLen : Z)
    : option error * LogrotateWriter * World :=
  match Stat w (filename l) with
  | inl e =>
      if is_not_exist e then openNew l w
      else (Some (Wrap "error getting log file info" e), l, w)
  | inr fi =>
      if bool_decide (fsize fi + writeLen >= max l) then rotate l w
      else
        match OpenAppend w (filename l) with
        | inl _ => openNew l w
        | inr h => (None, set_size (fsize fi) (set_file (Some h) l), w)
        end
  end.

(** [func (l *LogrotateWriter) write(p []byte) (n int, err error)] *)
Definition write (l : LogrotateWriter) (w : World) (p : list byte)
    : Z * option error * LogrotateWriter * World :=
  let writeLen := Z.of_nat (length p) in
  if bool_decide (writeLen > max l) then
    (0, Some (ErrWriteLength writeLen (max l)), l, w)
  else
    let '(e1, l1, w1) :=
      match file l with
      | None => openExistingOrNew l w writeLen
      | Some _ => (None, l, w)
      end in
    match e1 with
    | Some e => (0, Some e, l1, w1)
    | None =>
        let '(e2, l2, w2) :=
          if bool_decide (size l1 + writeLen > max l1) then rotate l1 w1
          else (None, l1, w1) in
        match e2 with
        | Some e => (0, Some e, l2, w2)
        | None =>
            let '(n, err, w3) := Write w2 (file l2) p in
            (n, err, set_size (size l2 + n) l2, w3)
        end
    end.

(** [func (l *LogrotateWriter) timeFromName(filename, prefix, ext string)] *)
Definition timeFromName (l : LogrotateWriter) (fname pre ex : string) : stamp :=
  if negb (HasPrefix fname pre) then NotBackup
  else if negb (HasSuffix fname ex) then NotBackup
  else
    match slice fname (len pre) (len fname - len ex) with
    | None => SlicePanic
    | Some ts =>
        match Parse (BackupTimeFormat (options l)) ts with
        | Some u => IsBackup u
        | None => NotBackup
        end
    end.

(** The loop of [oldLogFiles] over the directory entries; [None] is a
    panic. *)
Fixpoint scan (l : LogrotateWriter) (pre : string) (entries : list DirEntry)
    : option (list logInfo) :=
  match entries with
  | [] => Some []
  | f :: rest =>
      if negb (IsRegular f) then scan l pre rest
      else
        match timeFromName l (Name f) pre (ext l) with
        | IsBackup u => fs ← scan l pre rest; Some ({| t := u; name := Name f |} :: fs)
        | SlicePanic => None
        | NotBackup =>
            match timeFromName l (Name f) pre (ext l +:+ compressSuffix) with
            | IsBackup u => fs ← scan l pre rest; Some ({| t := u; name := Name f |} :: fs)
            | SlicePanic => None
            | NotBackup => scan l pre rest
            end
        end
  end.

(** [b.t.Compare(a.t) <= 0]: [a] is not older than [b]. *)
Definition newer_first (a b : logInfo) : Prop := t b <= t a.

#[global] Instance newer_first_dec : RelDecision newer_first.
Proof. intros a b. unfold newer_first. apply _. Defined.

(** [func (l *LogrotateWriter) oldLogFiles() ([]logInfo, error)] on the
    entries that [fs.ReadDir] returned. [slices.SortFunc] orders newest
    first and leaves the order of equal instants open; the merge sort
    used here is one such order, the only one when the instants differ. *)
Definition oldLogFiles (l : LogrotateWriter) (entries : list DirEntry)
    : option (list logInfo) :=
  pre ← prefix l;
  fs ← scan l pre entries;
  Some (merge_sort newer_first fs).

End WithTime.



(** The name that [mill] counts a backup under. *)
Definition counted_name (f : logInfo) : string := TrimSuffix (name f) compressSuffix.

(** The first loop of [mill]: [preserved] collects the names without
    the compression suffix; a file that makes it larger than
    [MaxBackups] is removed. Returns [(remove, remaining)]. *)
Fixpoint by_count (maxBackups : Z) (preserved : gset string) (files : list logInfo)
    : list logInfo * list logInfo :=
  match files with
  | [] => ([], [])
  | f :: rest =>
      let preserved := {[counted_name f]} ∪ preserved in
      let '(remove, remaining) := by_count maxBackups preserved rest in
      if bool_decide (Z.of_nat (base.size preserved) > maxBackups)
      then (f :: remove, remaining)
      else (remove, f :: remaining)
  end.

(** The lists [remove] and [compress] that [mill] builds from the
    result of [oldLogFiles], before it touches the disk. *)
Definition mill_plan (o : LogrotateOption) (now : Z) (files : list logInfo)
    : list logInfo * list logInfo :=
  let '(remove1, files1) :=
    if bool_decide (MaxBackups o > 0 /\ MaxBackups o < Z.of_nat (length files))
    then by_count (MaxBackups o) ∅ files
    else ([], files) in
  let '(remove2, files2) :=
    if bool_decide (MaxAge o > 0) then
      let cutoff := Time.Add now (- MaxAge o) in
      (filter (fun f => Time.Before (t f) cutoff = true) files1,
       filter (fun f => Time.Before (t f) cutoff <> true) files1)
    else ([], files1) in
  let compress :=
    if Compress o
    then filter (fun f => HasSuffix (name f) compressSuffix <> true) files2
    else [] in
  (remove1 ++ remove2, compress).

Section WithTime.
Variable Parse : string -> string -> option Z.

(** [func (l *LogrotateWriter) mill() error] up to its two final loops:
    the files to remove and to compress; [None] is a panic. *)
Definition mill (l : LogrotateWriter) (now : Z) (entries : list DirEntry)
    : option (list logInfo * list logInfo) :=
  let o := options l in
  if bool_decide (MaxBackups o = 0 /\ MaxAge o = 0 /\ Compress o = false) then Some ([], [])
  else
    files ← oldLogFiles Parse l entries;
    Some (mill_plan o now files).

End WithTime.

(** The writer and the disk agree: an open handle is the file that
    [filename] names, and [size] is that file's length. *)
Definition in_step (l : LogrotateWriter) (w : World) : Prop :=
  match file l with
  | Some h => names w !! filename l = Some h /\ size l = fsize (inode w h)
  | None => True
  end.

Section WithCodec.
Variable Parse : string -> string -> option Z.
(** The bytes that the [zstd] encoder has written to its output when
    it is closed, for the bytes copied into it. *)
Variable zstd : list byte -> list byte.

(** [func (l *LogrotateWriter) compressFile(name string) (err error)].
    The deferred functions run in reverse: the encoder and the two
    files are closed, then, on an error, [dst] is removed and the error
    wrapped, and otherwise [src] is removed. Closing and copying do not
    fail here, and [zstd.NewWriter] without options does not either;
    [os.Open] finds the file by its name, as [OpenAppend] does. *)
Definition compressFile (l : LogrotateWriter) (w : World) (name : string)
    : option error * World :=
  let src := Join [dirname l; name] in
  let dst := Join [dirname l; name +:+ compressSuffix] in
  let failed (e : error) : option error * World :=
    (Some (Wrap "compressFile" e), (Remove w dst).2) in
  match Stat w src with
  | inl e => failed (Wrap "failed to stat log file" e)
  | inr fi =>
      match OpenAppend w src with
      | inl e => failed (Wrap "failed to open log file" e)
      | inr f =>
          match Create w dst (mode fi) with
          | inl e => failed (Wrap "failed to open compressed log file" e)
          | inr (out, w1) =>
              let w2 := (Write w1 (Some out) (zstd (data (inode w1 f)))).2 in
              Remove w2 src
          end
      end
  end.

(** [if err == nil && e != nil { err = e }] *)
Definition keep_first (err e : option error) : option error :=
  match err with
  | Some _ => err
  | None => e
  end.

(** The two loops that end [mill] (lines 393-405). *)
Fixpoint remove_all (l : LogrotateWriter) (w : World) (err : option error)
    (files : list logInfo) : option error * World :=
  match files with
  | [] => (err, w)
  | f :: rest =>
      let '(e, w1) := Remove w (Join [dirname l; name f]) in
      remove_all l w1 (keep_first err e) rest
  end.

Fixpoint compress_all (l : LogrotateWriter) (w : World) (err : option error)
    (files : list logInfo) : option error * World :=
  match files with
  | [] => (err, w)
  | f :: rest =>
      let '(e, w1) := compressFile l w (name f) in
      compress_all l w1 (keep_first err e) rest
  end.

(** [mill] with its two final loops, on the entries that [fs.ReadDir]
    returned for the log directory; [None] is a panic. *)
Definition mill_on_disk (l : LogrotateWriter) (w : World) (entries : list DirEntry)
    : option (option error * World) :=
  plan ← mill Parse l (now w) entries;
  let '(e1, w1) := remove_all l w None plan.1 in
  Some (compress_all l w1 e1 plan.2).

End WithCodec.

(** The file called [name] is inode [i] and holds [f]; no other name
    refers to that inode, and every inode that has a name is older than
    the next one handed out. *)
Definition sole_name (w : World) (name : string) (i : Z) (f : File) : Prop :=
  names w !! name = Some i
  /\ inode w i = f
  /\ (forall n, names w !! n = Some i -> n = name)
  /\ (forall n j, names w !! n = Some j -> j < next_inode w).

End Logrotate.

(** ** [settings/config.go] and the fingerprint of [main.go] *)

Module Fingerprint.
Import Strings Filepath Settings.

(** The files that [os.Open] can open, with their bytes. *)
Abbreviation disk := (gmap string (list byte)).

Inductive error :=
  | ErrNotExist
  | ErrUnsupported
  | ErrJSON (msg : string).

Definition configExts : list string := [".json"].

Section WithLibraries.
(** [crypto/sha1]: the digest [h.Sum(nil)] of all bytes written to [h]. *)
Variable sha1_Sum : list byte -> list byte.
(** [json.Unmarshal(data, &config)]: the error, and [config] afterwards. *)
Variable json_Unmarshal : list byte -> Settings -> option string * Settings.
(** [json.Marshal(m)] *)
Variable json_Marshal : Settings -> list byte.

(** The loop of [readConfigFile] over [configExts]. [f.Read(buf)] fills
    a buffer of 4096 bytes once: the decoder sees at most the first 4096
    bytes of the file. *)
Fixpoint read_exts (d : disk) (dir name : string) (exts : list string)
    : Settings * string * option error :=
  match exts with
  | [] => (Default, "", Some ErrNotExist)
  | ext :: rest =>
      let target := Join [dir; name +:+ ext] in
      match d !! target with
      | None => read_exts d dir name rest
      | Some content =>
          let buf := take 4096 content in
          if bool_decide (ext = ".yml" \/ ext = ".yaml") then (Default, "", Some ErrUnsupported)
          else if bool_decide (ext = ".json") then
            match json_Unmarshal buf Default with
            | (Some msg, config) => (config, target, Some (ErrJSON msg))
            | (None, config) => (config, target, None)
            end
          else read_exts d dir name rest
      end
  end.

(** The base name without its extension, as [readConfigFile] cuts it. *)
Definition config_stem (p : string) : string :=
  let name := Base p in
  if bool_decide (len name > len (Ext p))
  then default name (slice name 0 (len name - len (Ext p)))
  else name.

(** [func readConfigFile(filename string) (config Settings, path string, err error)] *)
Definition readConfigFile (d : disk) (filename : string)
    : Settings * string * option error :=
  let p := Clean filename in
  read_exts d (Dir p) (config_stem p) configExts.

(** What one watched target contributes to the digest (lines 97-105 and
    172-180 of [main]): the re-marshalled settings for the target that
    equals [ConfigPath()], the bytes of the file for any other target,
    nothing when the file cannot be opened. *)
Definition contribution (d : disk) (configPath s : string) : list byte :=
  if bool_decide (s = configPath)
  then json_Marshal (readConfigFile d configPath).1.1
  else default [] (d !! s).

(** The bytes written to the hash, for the order in which the range
    over [f.Watched()] yields the targets. *)
Definition digested (d : disk) (configPath : string) (order : list string) : list byte :=
  concat (contribution d configPath <$> order).

Definition fingerprint (d : disk) (configPath : string) (order : list string) : list byte :=
  sha1_Sum (digested d configPath order).

End WithLibraries.

End Fingerprint.

(** ** [main.go]: the supervising loop

    Contexts are numbered; [appCtx] is the root. A context that has been
    cancelled keeps the cause of its first cancellation, as
    [context.Cause] reports it. [srv] is the channel of capacity 1 that
    carries the context of the next generation to the loop, which then
    starts [server.New().Run(ctx)] on it. *)

Module Supervisor.

Inductive cause :=
  | ErrTerminated (sig : string)
  | ErrConfigChanged.

#[global] Instance cause_eq_dec : EqDecision cause.
Proof. solve_decision. Defined.

Definition appCtx : Z := 0.

(** The capacity of [srv]: [make(chan context.Context, 1)]. *)
Definition srv_cap : nat := 1.

(** The variables of [main] that the loop reads and writes. *)
Record state := {
  (** [hash]: the fingerprint of the last generation started *)
  hash : list byte;
  (** [ctx, cancel]: the context of the current generation *)
  cur : Z;
  (** the contexts made so far are those below [next_ctx] *)
  next_ctx : Z;
  (** the parent each context was derived from *)
  parent : gmap Z Z;
  (** the cancelled contexts, each with its cause *)
  cancelled : gmap Z cause;
  (** the buffer of [srv], oldest first *)
  srv : list Z;
  (** the contexts on which [server.New().Run] was started, oldest first *)
  running : list Z;
}.

(** What one pass through the [select] leads to: the loop goes on, or
    [main] hangs in [srv <- ctx] with the buffer full (the loop itself is
    the only receiver), or [main] returns. *)
Inductive outcome :=
  | Continue (st : state)
  | BlockedOnSend (st : state) (c : Z)
  | Exited (st : state).

Inductive event :=
  | EvTerminate (sig : string)
  | EvSrv
  | EvChanged (b : list byte).

(** Lines 137-139: the first generation's context, put on [srv]. *)
Definition init (hash0 : list byte) : state :=
  {| hash := hash0; cur := 1; next_ctx := 2; parent := {[1 := appCtx]};
     cancelled := ∅; srv := [1]; running := [] |}.

(** [cancel(cause)]: the first cancellation of a context sets its cause. *)
Definition cancel (c : Z) (why : cause) (m : gmap Z cause) : gmap Z cause :=
  match m !! c with
  | Some _ => m
  | None => <[c := why]> m
  end.

(** Lines 187-190: remember the new fingerprint, cancel the current
    generation with [ErrConfigChanged], derive a new context from
    [appCtx]. *)
Definition restart (st : state) (b : list byte) : state :=
  {| hash := b;
     cur := next_ctx st;
     next_ctx := next_ctx st + 1;
     parent := <[next_ctx st := appCtx]> (parent st);
     cancelled := cancel (cur st) ErrConfigChanged (cancelled st);
     srv := srv st;
     running := running st |}.

(** Line 191, [srv <- ctx]. *)
Definition send_srv (st : state) (c : Z) : outcome :=
  if bool_decide (length (srv st) < srv_cap)%nat then
    Continue {| hash := hash st; cur := cur st; next_ctx := next_ctx st;
                parent := parent st; cancelled := cancelled st;
                srv := srv st ++ [c]; running := running st |}
  else BlockedOnSend st c.

(** [case <-changed:] with [b] the fingerprint recomputed by the handler. *)
Definition on_changed (st : state) (b : list byte) : outcome :=
  if bool_decide (b = hash st) then Continue st
  else send_srv (restart st b) (cur (restart st b)).

(** [case ctx := <-srv:]; the case is not ready on an empty buffer. *)
Definition on_srv (st : state) : option state :=
  match srv st with
  | [] => None
  | c :: rest =>
      Some {| hash := hash st; cur := cur st; next_ctx := next_ctx st;
              parent := parent st; cancelled := cancelled st;
              srv := rest; running := running st ++ [c] |}
  end.

(** [case sig := <-terminate:]: [appExit] cancels the root, and with it
    every context that is not cancelled yet. *)
Definition on_terminate (st : state) (sig : string) : state :=
  {| hash := hash st; cur := cur st; next_ctx := next_ctx st; parent := parent st;
     cancelled :=
       foldr (fun c m => cancel c (ErrTerminated sig) m) (cancelled st)
         (appCtx :: elements (dom (parent st)));
     srv := srv st; running := running st |}.

(** One pass through the [select]; [None] when the chosen case is not
    ready. *)
Definition step (st : state) (ev : event) : option outcome :=
  match ev with
  | EvTerminate sig => Some (Exited (on_terminate st sig))
  | EvSrv => Continue <$> on_srv st
  | EvChanged b => Some (on_changed st b)
  end.

(** The states in which the loop can stand at its [select]. *)
Inductive reachable : state -> Prop :=
  | reachable_init (hash0 : list byte) : reachable (init hash0)
  | reachable_step (st st' : state) (ev : event) :
      reachable st -> step st ev = Some (Continue st') -> reachable st'.

(** The context of the current generation is the newest one, it is
    derived from the root, and every cancelled context is older. *)
Definition invariant (st : state) : Prop :=
  appCtx < cur st < next_ctx st
  /\ parent st !! cur st = Some appCtx
  /\ (forall c why, cancelled st !! c = Some why -> appCtx < c < cur st)
  /\ (forall c, c ∈ srv st ++ running st -> appCtx < c <= cur st).

Section WithLibraries.
Variable sha1_Sum : list byte -> list byte.
Variable json_Unmarshal : list byte -> Settings.Settings -> option string * Settings.Settings.
Variable json_Marshal : Settings.Settings -> list byte.

(** The handler of [case <-changed:] (lines 163-192) on the disk [d],
    for the order in which the range over [f.Watched()] runs. The
    settings it reloads first play no part in the decision. *)
Definition handle_changed (st : state) (configPath : string)
    (d : gmap string (list byte)) (order : list string) : outcome :=
  on_changed st
    (Fingerprint.fingerprint sha1_Sum json_Unmarshal json_Marshal d configPath order).

End WithLibraries.

(** The contexts are handed out one after the other, and all but the
    newest were cancelled because the configuration changed; none is
    queued or started twice. *)
Definition superseded (st : state) : Prop :=
  next_ctx st = cur st + 1
  /\ (forall c, appCtx < c < cur st -> cancelled st !! c = Some ErrConfigChanged)
  /\ NoDup (srv st ++ running st).

End Supervisor.

(** ** [zok/proc/mem.go]: [proc.Memory] *)

Module Proc.

Record Memmoryinfo := {
  MemTotal : Z;
  MemFree : Z;
  MemAvailable : Z;
}.

(** The error of [os.Open], [ErrParseProcMemInfo], or the error of
    [strconv.ParseUint] for the text it was given. *)
Inductive error :=
  | ErrOpen
  | ErrParseProcMemInfo
  | NumError (s : string).

Section WithLibraries.
(** [strings.Fields] and [strconv.ParseUint(s, 0, 64)] *)
Variable Fields : string -> list string.
Variable ParseUint : string -> option Z.

(** The [switch fields[0]] that ends the loop body. *)
Definition assign (m : Memmoryinfo) (key : string) (v : Z) : Memmoryinfo :=
  if bool_decide (key = "MemTotal:")
  then {| MemTotal := v; MemFree := MemFree m; MemAvailable := MemAvailable m |}
  else if bool_decide (key = "MemFree:")
  then {| MemTotal := MemTotal m; MemFree := v; MemAvailable := MemAvailable m |}
  else if bool_decide (key = "MemAvailable:")
  then {| MemTotal := MemTotal m; MemFree := MemFree m; MemAvailable := v |}
  else m.

(** The loop of [Memory] over the lines that the scanner yields. *)
Fixpoint Memory_lines (m : Memmoryinfo) (lines : list string) : error + Memmoryinfo :=
  match lines with
  | [] => inr m
  | line :: rest =>
      match Fields line with
      | f0 :: f1 :: _ =>
          match ParseUint f1 with
          | None => inl (NumError f1)
          | Some v => Memory_lines (assign m f0 v) rest
          end
      | _ => inl ErrParseProcMemInfo
      end
  end.

(** [func Memory()] on the lines of [/proc/meminfo], [None] when the
    file cannot be opened. *)
Definition Memory (meminfo : option (list string)) : error + Memmoryinfo :=
  match meminfo with
  | None => inl ErrOpen
  | Some lines => Memory_lines {| MemTotal := 0; MemFree := 0; MemAvailable := 0 |} lines
  end.

End WithLibraries.

End Proc.

(** ** [zok]: the JSON spellings of [Bool] *)

Module Zok.

Definition IsTrueValue (v : string) : bool :=
  bool_decide (v = "1") || bool_decide (v = "yes") || bool_decide (v = "on")
  || bool_decide (v = "true") || bool_decide (v = "enabled").

Definition IsFalseValue (v : string) : bool :=
  bool_decide (v = "0") || bool_decide (v = "no") || bool_decide (v = "off")
  || bool_decide (v = "false") || bool_decide (v = "disabled").

Section WithLibraries.
(** [strconv.Unquote], [None] for its error *)
Variable Unquote : string -> option string.

(** [func (b *Bool) UnmarshalJSON(data []byte) error]: the new [*b]
    and the error. *)
Definition Bool_UnmarshalJSON (data : string) : bool * option string :=
  let value := match Unquote data with Some v => v | None => data end in
  (IsTrueValue value, None).

End WithLibraries.

(** [func (b Bool) MarshalJSON() ([]byte, error)], that is
    [json.Marshal(bool(b))]. *)
Definition Bool_MarshalJSON (b : bool) : string := if b then "true" else "false".

End Zok.

(** ** [server/file_serve.go]: [fileExists] *)

Module Server.
Import Strings Filepath.

Section WithDisk.
(** [os.Stat(name)]: [None] for an error, else whether
    [stats.Mode().IsRegular()]. *)
Variable Stat : string -> option bool.

(** [func fileExists(root, urlpath string) bool] *)
Definition fileExists (root urlpath : string) : bool :=
  let filename := TrimPrefix urlpath "/" in
  if bool_decide (len filename < len urlpath) then
    match Stat (Join [root; filename]) with
    | None => false
    | Some regular => regular
    end
  else false.

End WithDisk.

End Server.

(** ** Library stand-ins for the runs evaluated below

    SHA-1 as FIPS 180-4 defines it, on 32-bit words kept in [Z];
    [json.Marshal] of a [Settings] value whose strings are printable
    ASCII; and a decoder that refuses its input, as [json.Unmarshal]
    does for text that is not JSON (it leaves the value untouched). *)

Module Libraries.
Import Settings.

Definition w32 (x : Z) : Z := x mod 2 ^ 32.
Definition rotl (n x : Z) : Z := Z.lor (w32 (Z.shiftl x n)) (Z.shiftr x (32 - n)).
Definition not32 (x : Z) : Z := Z.lxor x 0xFFFFFFFF.

Definition byte_Z (b : byte) : Z := Z.of_N (Byte.to_N b).
Definition Z_byte (z : Z) : byte := default x00 (Byte.of_N (Z.to_N (z mod 256))).

(** [n] as [k] big-endian bytes *)
Fixpoint be_bytes (k : nat) (n : Z) (acc : list byte) : list byte :=
  match k with
  | O => acc
  | S k' => be_bytes k' (n / 256) (Z_byte n :: acc)
  end.

Definition pad_message (msg : list byte) : list byte :=
  let l := Z.of_nat (length msg) in
  let zeros := Z.to_nat ((55 - l) mod 64) in
  msg ++ [x80] ++ replicate zeros x00 ++ be_bytes 8 (8 * l) [].

Fixpoint be_words (fuel : nat) (bs : list byte) : list Z :=
  match fuel, bs with
  | S fuel', a :: b :: c :: d :: rest =>
      (((byte_Z a * 256 + byte_Z b) * 256 + byte_Z c) * 256 + byte_Z d) :: be_words fuel' rest
  | _, _ => []
  end.

(** The message schedule: [ws] holds the words so far, newest first. *)
Fixpoint schedule (n : nat) (ws : list Z) : list Z :=
  match n with
  | O => ws
  | S n' =>
      let w := rotl 1 (Z.lxor (Z.lxor (Z.lxor (ws !!! 2%nat) (ws !!! 7%nat)) (ws !!! 13%nat))
                         (ws !!! 15%nat)) in
      schedule n' (w :: ws)
  end.

Definition round (t : nat) (st : Z * Z * Z * Z * Z) (w : Z) : Z * Z * Z * Z * Z :=
  let '(a, b, c, d, e) := st in
  let '(f, k) :=
    if (t <? 20)%nat then (Z.lor (Z.land b c) (Z.land (not32 b) d), 0x5A827999)
    else if (t <? 40)%nat then (Z.lxor (Z.lxor b c) d, 0x6ED9EBA1)
    else if (t <? 60)%nat then
      (Z.lor (Z.lor (Z.land b c) (Z.land b d)) (Z.land c d), 0x8F1BBCDC)
    else (Z.lxor (Z.lxor b c) d, 0xCA62C1D6) in
  (w32 (rotl 5 a + f + e + k + w), a, rotl 30 b, c, d).

Fixpoint rounds (t : nat) (st : Z * Z * Z * Z * Z) (ws : list Z) : Z * Z * Z * Z * Z :=
  match ws with
  | [] => st
  | w :: ws' => rounds (S t) (round t st w) ws'
  end.

Definition compress (h : Z * Z * Z * Z * Z) (block : list byte) : Z * Z * Z * Z * Z :=
  let ws := reverse (schedule 64 (reverse (be_words 16 block))) in
  let '(h0, h1, h2, h3, h4) := h in
  let '(a, b, c, d, e) := rounds 0 h ws in
  (w32 (h0 + a), w32 (h1 + b), w32 (h2 + c), w32 (h3 + d), w32 (h4 + e)).

Fixpoint blocks (fuel : nat) (h : Z * Z * Z * Z * Z) (bs : list byte) : Z * Z * Z * Z * Z :=
  match fuel, bs with
  | S fuel', _ :: _ => blocks fuel' (compress h (take 64 bs)) (drop 64 bs)
  | _, _ => h
  end.

(** [sha1.Sum]: the 20 bytes of the digest. *)
Definition sha1_Sum (msg : list byte) : list byte :=
  let padded := pad_message msg in
  let '(h0, h1, h2, h3, h4) :=
    blocks (length padded)
      (0x67452301, 0xEFCDAB89, 0x98BADCFE, 0x10325476, 0xC3D2E1F0) padded in
  be_bytes 4 h0 (be_bytes 4 h1 (be_bytes 4 h2 (be_bytes 4 h3 (be_bytes 4 h4 [])))).

Definition bytes_of (s : string) : list byte := String.list_byte_of_string s.

Fixpoint decimal_digits (fuel : nat) (n : Z) (acc : list byte) : list byte :=
  match fuel with
  | O => acc
  | S fuel' =>
      let acc' := Z_byte (48 + n mod 10) :: acc in
      if n <? 10 then acc' else decimal_digits fuel' (n / 10) acc'
  end.

Definition json_int (n : Z) : list byte :=
  if n <? 0 then x2d :: decimal_digits (Z.to_nat (Z.log2 (- n)) + 1) (- n) []
  else decimal_digits (Z.to_nat (Z.log2 n) + 1) n [].

Definition json_char (b : byte) : list byte :=
  match b with
  | x22 => [x5c; x22]
  | x5c => [x5c; x5c]
  | x3c => bytes_of "\u003c"
  | x3e => bytes_of "\u003e"
  | x26 => bytes_of "\u0026"
  | _ => [b]
  end.

Definition json_string (s : string) : list byte :=
  [x22] ++ concat (json_char <$> bytes_of s) ++ [x22].

(** A quoted field name and its colon. *)
Definition json_key (k : string) : list byte := [x22] ++ bytes_of k ++ [x22; x3a].

(** [json.Marshal] of a [Settings], fields in declaration order. *)
Definition json_Marshal (v : Settings) : list byte :=
  bytes_of "{" ++ json_key "http" ++ json_int (ServePort v)
  ++ bytes_of "," ++ json_key "https" ++ json_int (ServeTLSPort v)
  ++ bytes_of "," ++ json_key "tls_cert" ++ json_string (TLSCertificate v)
  ++ bytes_of "," ++ json_key "tls_key" ++ json_string (TLSKey v)
  ++ bytes_of "," ++ json_key "tls_pfx" ++ json_string (TLSPfx v)
  ++ bytes_of "," ++ json_key "www" ++ json_string (WebRoot v)
  ++ bytes_of "," ++ json_key "data" ++ json_string (DataDirectory v)
  ++ bytes_of "}".

(** A decoder that refuses its input and leaves the value as it was. *)
Definition json_refuse (data : list byte) (v : Settings) : option string * Settings :=
  (Some "invalid character", v).

(** [strings.Fields] for ASCII text: the maximal runs of characters
    other than space, tab, line feed, vertical tab, form feed and
    carriage return. *)
Definition is_space (c : ascii) : bool :=
  bool_decide (c ∈ [" "%char; "009"%char; "010"%char; "011"%char; "012"%char; "013"%char]).

Fixpoint fields_chars (cur : list ascii) (s : list ascii) : list (list ascii) :=
  match s with
  | [] => match cur with [] => [] | _ => [reverse cur] end
  | c :: rest =>
      if is_space c
      then match cur with
           | [] => fields_chars [] rest
           | _ => reverse cur :: fields_chars [] rest
           end
      else fields_chars (c :: cur) rest
  end.

Definition Fields (s : string) : list string :=
  String.string_of_list_ascii <$> fields_chars [] (String.list_ascii_of_string s).

(** [strconv.ParseUint(s, 0, 64)] for text without underscore and
    without a base prefix: a decimal numeral below [2^64], an error
    otherwise. *)
Definition digit (c : ascii) : option Z :=
  let n := Z.of_N (N_of_ascii c) in
  if bool_decide (48 <= n <= 57) then Some (n - 48) else None.

Fixpoint decimal (acc : Z) (s : list ascii) : option Z :=
  match s with
  | [] => Some acc
  | c :: rest => d ← digit c; decimal (10 * acc + d) rest
  end.

Definition ParseUint (s : string) : option Z :=
  match String.list_ascii_of_string s with
  | [] => None
  | cs => v ← decimal 0 cs; if bool_decide (v < 2 ^ 64) then Some v else None
  end.

(** [strconv.Unquote] for text that is not quoted: an error. *)
Definition Unquote_bare (s : string) : option string := None.

End Libraries.

(** ** Concrete writers and disks, for the runs evaluated below *)

Module Scenario.
Import Os Logrotate.

(** [/var/log/app.log] with the default backup layout. *)
Definition options_of (maxSize : Z) (header : string) : LogrotateOption :=
  {| Filename := "/var/log/app.log"; MaxSize := maxSize; MaxBackups := 2; MaxAge := 0;
     BackupTimeFormat := ""; FileHeader := header; Compress := false |}.

Definition writer (maxSize : Z) (header : string) : LogrotateWriter :=
  NewLogrotateWriter "/tmp" "serv" (options_of maxSize header).

(** 2024-03-05 10:11:12.345678901 UTC *)
Definition instant : Z := 1709633472345678901.

(** A disk whose active file, inode 1, holds [n] bytes. *)
Definition disk (n : nat) : World :=
  {| names := {["/var/log/app.log" := 1]};
     inodes := {[1 := {| data := repeat x61 n; mode := 384 |}]};
     next_inode := 2; now := instant; mill_runs := 0 |}.

(** A disk without the log file. *)
Definition empty_disk : World :=
  {| names := ∅; inodes := ∅; next_inode := 1; now := instant; mill_runs := 0 |}.

(** The writer with its handle open on inode 1 at tracked size [n]. *)
Definition opened (maxSize : Z) (header : string) (n : Z) : LogrotateWriter :=
  set_size n (set_file (Some 1) (writer maxSize header)).

Definition payload (n : nat) : list byte := repeat x62 n.

(** A writer that keeps three backups, none older than sixty hours, and
    compresses them. *)
Definition retention_writer : LogrotateWriter :=
  NewLogrotateWriter "/tmp" "serv"
    {| Filename := "/var/log/app.log"; MaxSize := 100; MaxBackups := 3;
       MaxAge := 216000 * Time.Second; BackupTimeFormat := ""; FileHeader := "";
       Compress := true |}.

(** The same log file with backups named by day. *)
Definition daily_writer : LogrotateWriter :=
  NewLogrotateWriter "/tmp" "serv"
    {| Filename := "/var/log/app.log"; MaxSize := 100; MaxBackups := 3;
       MaxAge := 0; BackupTimeFormat := "2006-01-02"; FileHeader := "";
       Compress := false |}.

(** The log directory as [fs.ReadDir] lists it: four backups (one of
    them compressed), the active file, a stranger, and a directory
    that is named like a backup. *)
Definition listing : list DirEntry :=
  [ {| Name := "app-2024-03-01T00-00-00.000.log"; IsRegular := true |};
    {| Name := "app-2024-03-02T00-00-00.000.log.zst"; IsRegular := true |};
    {| Name := "app-2024-03-03T00-00-00.000.log"; IsRegular := true |};
    {| Name := "app-2024-03-04T00-00-00.000.log"; IsRegular := true |};
    {| Name := "app-2024-03-05T00-00-00.000.log"; IsRegular := false |};
    {| Name := "app.log"; IsRegular := true |};
    {| Name := "notes.txt"; IsRegular := true |} ].

(** A disk with a configuration file and a key pair. *)
Definition served_files : gmap string (list byte) :=
  {[ "config/config.json" := Libraries.bytes_of "{ }";
     "tls/cert.pem" := Libraries.bytes_of "CERTIFICATE A";
     "tls/key.pem" := Libraries.bytes_of "KEY" ]}.

Definition served_order : list string :=
  ["config/config.json"; "tls/cert.pem"; "tls/key.pem"].

(** The supervisor after start-up on [served_files], once the loop has
    taken the first context from [srv] and started generation 1. *)
Definition supervising : Supervisor.state :=
  {| Supervisor.hash :=
       Fingerprint.fingerprint Libraries.sha1_Sum Libraries.json_refuse Libraries.json_Marshal
         served_files "config/config.json" served_order;
     Supervisor.cur := 1; Supervisor.next_ctx := 2;
     Supervisor.parent := {[1 := Supervisor.appCtx]};
     Supervisor.cancelled := ∅; Supervisor.srv := []; Supervisor.running := [1] |}.


(** The state in which the loop stands after the passes [evs], when
    each of them goes on. *)
Fixpoint passes (st : Supervisor.state) (evs : list Supervisor.event)
    : option Supervisor.state :=
  match evs with
  | [] => Some st
  | ev :: rest =>
      match Supervisor.step st ev with
      | Some (Supervisor.Continue st') => passes st' rest
      | _ => None
      end
  end.

(** Generation 1 is started, the configuration changes, generation 2 is
    started, the configuration changes again. *)
Definition two_changes : list Supervisor.event :=
  [ Supervisor.EvSrv; Supervisor.EvChanged [x01]; Supervisor.EvSrv;
    Supervisor.EvChanged [x02] ].

(** The tables after [AddWatch] of [config/config.json] with a kernel
    that hands out watch descriptor 1. *)
Definition watching : Inotify.watches :=
  Inotify.tables
    (Inotify.AddWatch Inotify.granting Inotify.NewINotify "config/config.json"
       Startup.watch_mask).2.

(** The kernel reports that descriptor 7 is gone, then that
    [config.json] was created in the directory of descriptor 1. *)
Definition ignored_event : Inotify.kernel_event :=
  {| Inotify.wd := 7; Inotify.mask := Inotify.IN_IGNORED; Inotify.cookie := 0;
     Inotify.name := []; Inotify.padding := 0 |}.

Definition create_event : Inotify.kernel_event :=
  {| Inotify.wd := 1; Inotify.mask := Inotify.IN_CREATE; Inotify.cookie := 0;
     Inotify.name := Libraries.bytes_of "config.json"; Inotify.padding := 5 |}.

(** A record with [IN_IGNORED] whose length field is [0xFFFFFFF0]. *)
Definition wrapping_record : list byte :=
  Inotify.le32 7 ++ Inotify.le32 Inotify.IN_IGNORED ++ Inotify.le32 0
  ++ Inotify.le32 0xFFFFFFF0.

(** Lines of [/proc/meminfo]. *)
Definition meminfo : list string :=
  [ "MemTotal:       16384256 kB";
    "MemFree:         1024000 kB";
    "MemAvailable:    8192000 kB";
    "Buffers:          204800 kB" ].

(** The log directory with the active file, inode 1, and a backup,
    inode 2. *)
Definition log_dir : World :=
  {| names := {["/var/log/app.log" := 1; "/var/log/app-2024-03-04T00-00-00.000.log" := 2]};
     inodes := {[1 := {| data := repeat x61 3; mode := 384 |};
                 2 := {| data := repeat x62 5; mode := 384 |}]};
     next_inode := 3; now := instant; mill_runs := 0 |}.

(** A codec that stands for the [zstd] encoder: it frames its input. *)
Definition framed (bs : list byte) : list byte := x28 :: bs ++ [x29].

(** A disk with the page [data/www/index.html] and, beside the web
    root, the file [data/secret.key]. *)
Definition web_disk (name : string) : option bool :=
  if bool_decide (name = "data/www/index.html") then Some true
  else if bool_decide (name = "data/secret.key") then Some true
  else if bool_decide (name = "data/www") then Some false
  else None.

End Scenario.



(** * Properties *)

Import Strings Filepath.

(** ** Paths: the model against the examples of the package documentation *)

Example Clean_examples :
  Clean "" = "." /\ Clean "abc//def" = "abc/def" /\ Clean "a/./b/../c/" = "a/c"
  /\ Clean "/../a" = "/a" /\ Clean "../../x" = "../../x" /\ Clean "a/../.." = ".."
  /\ Clean "/" = "/" /\ Clean "./cert.pem" = "cert.pem" /\ Clean "abc/.." = "."
  /\ Clean "abc/def/../../.." = ".." /\ Clean "/abc/def/../../.." = "/".
Proof. by vm_compute. Qed.

Example Dir_Base_Ext_examples :
  Dir "config/config.json" = "config" /\ Dir "cert.pem" = "." /\ Dir "/a/b/" = "/a/b"
  /\ Dir "." = "." /\ Dir "/x" = "/" /\ Dir "" = "."
  /\ Base "config/config.json" = "config.json" /\ Base "a/b/" = "b" /\ Base "///" = "/"
  /\ Base "" = "."
  /\ Ext "config/config.json" = ".json" /\ Ext "a.b/c" = "" /\ Ext "x.tar.gz" = ".gz"
  /\ Split "/var/log/app.log" = ("/var/log/", "app.log") /\ Split "app.log" = ("", "app.log")
  /\ Join ["config"; "config.json"] = "config/config.json" /\ Join [""; "a"] = "a"
  /\ Join ["/var/log/"; "app-1.log"] = "/var/log/app-1.log" /\ Join [""; ""] = "".
Proof. by vm_compute. Qed.

(** ** Strings *)

Lemma chars_app (a b : string) : chars (a +:+ b) = chars a ++ chars b.
Proof. induction a as [|c a IH]; simpl; [done | by rewrite IH]. Qed.

Lemma chars_length (s : string) : length (chars s) = String.length s.
Proof. induction s as [|c s IH]; simpl; [done | by rewrite IH]. Qed.

Lemma of_chars_chars (s : string) : of_chars (chars s) = s.
Proof. apply String.string_of_list_ascii_of_string. Qed.

Lemma chars_of_chars (l : list ascii) : chars (of_chars l) = l.
Proof. apply String.list_ascii_of_string_of_list_ascii. Qed.

Lemma chars_inj (a b : string) : chars a = chars b -> a = b.
Proof. intros H. rewrite <- (of_chars_chars a), <- (of_chars_chars b). by rewrite H. Qed.

Lemma len_app (a b : string) : len (a +:+ b) = len a + len b.
Proof. unfold len. rewrite <- !chars_length, chars_app, length_app. lia. Qed.

Lemma len_nonneg (s : string) : 0 <= len s.
Proof. unfold len. lia. Qed.

Lemma is_prefix_app (p s : list ascii) : is_prefix p (p ++ s) = true.
Proof. induction p as [|a p IH]; simpl; [done|]. by rewrite bool_decide_eq_true_2, IH. Qed.

Lemma is_prefix_spec (p s : list ascii) :
  is_prefix p s = true <-> exists r, s = p ++ r.
Proof.
  revert s. induction p as [|a p IH]; intros s; simpl.
  - split; [intros _; by exists s | done].
  - destruct s as [|b s].
    + split; [done | intros [r Hr]; done].
    + rewrite andb_true_iff, bool_decide_eq_true, IH. split.
      * intros [-> [r ->]]. by exists r.
      * intros [r Hr]. simplify_eq/=. split; [done | by exists r].
Qed.

Lemma HasPrefix_app (p s : string) : HasPrefix (p +:+ s) p = true.
Proof. unfold HasPrefix. rewrite chars_app. apply is_prefix_app. Qed.


Lemma HasPrefix_spec (s p : string) :
  HasPrefix s p = true <-> exists r, s = p +:+ r.
Proof.
  unfold HasPrefix. rewrite is_prefix_spec. split.
  - intros [r Hr]. exists (of_chars r). apply chars_inj.
    by rewrite chars_app, chars_of_chars.
  - intros [r ->]. exists (chars r). apply chars_app.
Qed.

Lemma HasSuffix_spec (s x : string) :
  HasSuffix s x = true <-> exists r, s = r +:+ x.
Proof.
  unfold HasSuffix. rewrite is_prefix_spec. split.
  - intros [r Hr]. exists (of_chars (reverse r)). apply chars_inj.
    rewrite chars_app, chars_of_chars.
    apply (inj reverse). by rewrite reverse_app, reverse_involutive.
  - intros [r ->]. exists (reverse (chars r)).
    by rewrite chars_app, reverse_app.
Qed.

(** Cutting [prefix] and [suffix] off [prefix ++ mid ++ suffix]. *)
Lemma slice_middle (p m x : string) :
  slice (p +:+ m +:+ x) (len p) (len (p +:+ m +:+ x) - len x) = Some m.
Proof.
  unfold slice. rewrite !len_app.
  pose proof (len_nonneg p). pose proof (len_nonneg m). pose proof (len_nonneg x).
  rewrite bool_decide_eq_true_2 by lia. f_equal. apply chars_inj.
  rewrite chars_of_chars, !chars_app.
  replace (Z.to_nat (len p)) with (length (chars p))
    by (unfold len; rewrite chars_length; lia).
  rewrite drop_app_length.
  replace (Z.to_nat _) with (length (chars m))
    by (unfold len; rewrite chars_length; lia).
  by rewrite take_app_length.
Qed.

(** ** [AddWatch] *)

Section AddWatchFacts.
Import Inotify.
Variable K : kernel.

Lemma AddWatch_watched (f : INotify) (path : string) (op : Op) :
  is_Some (targets (tables f) !! Clean path) ->
  AddWatch K f path op = (Some ErrWatched, f).
Proof. intros [wd Hwd]. unfold AddWatch. by rewrite Hwd. Qed.

Lemma AddWatch_shared (f : INotify) (path : string) (op : Op) (wd : Z) :
  targets (tables f) !! Clean path = None ->
  dirWd (tables f) !! Dir (Clean path) = Some wd ->
  AddWatch K f path op =
    (None, {| tables := {| wdDir := wdDir (tables f); dirWd := dirWd (tables f);
                           targets := <[Clean path := wd]> (targets (tables f)) |};
              syscalls := syscalls f |}).
Proof. intros Ht Hd. unfold AddWatch. by rewrite Ht, Hd. Qed.

Lemma AddWatch_new_directory (f f' : INotify) (path : string) (op : Op) :
  dirWd (tables f) !! Dir (Clean path) = None ->
  AddWatch K f path op = (None, f') ->
  exists wd,
    K (syscalls f) (Dir (Clean path)) op = inl wd
    /\ f' = {| tables := {| wdDir := <[wd := Dir (Clean path)]> (wdDir (tables f));
                            dirWd := <[Dir (Clean path) := wd]> (dirWd (tables f));
                            targets := <[Clean path := wd]> (targets (tables f)) |};
               syscalls := syscalls f ++ [(Dir (Clean path), op)] |}.
Proof.
  intros Hd. unfold AddWatch. rewrite Hd.
  destruct (targets (tables f) !! Clean path); [done|].
  destruct (K _ _ _) as [wd|e] eqn:HK; [|done].
  intros [= <-]. by exists wd.
Qed.

Lemma AddWatch_ok_targets (f f' : INotify) (path : string) (op : Op) :
  AddWatch K f path op = (None, f') ->
  targets (tables f) !! Clean path = None
  /\ dom (targets (tables f')) = {[Clean path]} ∪ dom (targets (tables f)).
Proof.
  unfold AddWatch.
  destruct (targets (tables f) !! Clean path) eqn:Ht; [done|].
  destruct (dirWd (tables f) !! _) as [wd|].
  - intros [= <-]. simpl. by rewrite dom_insert_L.
  - destruct (K _ _ _) as [wd|e]; [|done].
    intros [= <-]. simpl. by rewrite dom_insert_L.
Qed.

(** C6. [AddWatch] answers [ErrWatched] exactly when the cleaned path is
    already a target, and then leaves the tables as they were; two paths
    with distinct cleaned forms in one directory that is not watched yet,
    both registered successfully, cost one [InotifyAddWatch] call and one
    new directory watch, whose descriptor both targets share. *)
Theorem AddWatch_ErrWatched_iff_and_one_directory_watch (f : INotify) :
  (forall path op,
      ((AddWatch K f path op).1 = Some ErrWatched
       <-> is_Some (targets (tables f) !! Clean path))
      /\ ((AddWatch K f path op).1 = Some ErrWatched
          -> (AddWatch K f path op).2 = f))
  /\ (forall p1 p2 op1 op2 f1 f2,
        Clean p1 <> Clean p2 ->
        Dir (Clean p1) = Dir (Clean p2) ->
        dirWd (tables f) !! Dir (Clean p1) = None ->
        AddWatch K f p1 op1 = (None, f1) ->
        AddWatch K f1 p2 op2 = (None, f2) ->
        exists wd,
          syscalls f2 = syscalls f ++ [(Dir (Clean p1), op1)]
          /\ dirWd (tables f2) = <[Dir (Clean p1) := wd]> (dirWd (tables f))
          /\ dir_watches f2 = S (dir_watches f)
          /\ targets (tables f2) !! Clean p1 = Some wd
          /\ targets (tables f2) !! Clean p2 = Some wd).
Proof.
  split.
  - intros path op. split.
    + split.
      * unfold AddWatch.
        destruct (targets (tables f) !! Clean path) eqn:Ht; [by eauto|].
        destruct (dirWd (tables f) !! _); [done|].
        by destruct (K _ _ _).
      * intros H. by rewrite (AddWatch_watched _ _ _ H).
    + unfold AddWatch.
      destruct (targets (tables f) !! Clean path) eqn:Ht; [done|].
      destruct (dirWd (tables f) !! _); [done|].
      by destruct (K _ _ _).
  - intros p1 p2 op1 op2 f1 f2 Hne Hdir Hnew H1 H2.
    destruct (AddWatch_new_directory _ _ _ _ Hnew H1) as (wd & HK & ->).
    exists wd.
    destruct (AddWatch_ok_targets _ _ _ _ H2) as [Ht2 _]. simpl in Ht2.
    rewrite (AddWatch_shared _ _ _ wd) in H2; simpl; [| done |].
    2:{ rewrite <- Hdir. apply lookup_insert_eq. }
    injection H2 as <-. simpl. unfold dir_watches. simpl.
    repeat split.
    + by apply map_size_insert_None.
    + rewrite lookup_insert_ne by done. apply lookup_insert_eq.
    + apply lookup_insert_eq.
Qed.

End AddWatchFacts.

(** At a concrete input: [config/a.json] then [config/b.json] on fresh
    tables, with a kernel that grants every watch. *)
Lemma AddWatch_one_directory_watch_witness :
  exists f1 f2 wd,
    Inotify.AddWatch Inotify.granting Inotify.NewINotify "config/a.json" 8 = (None, f1)
    /\ Inotify.AddWatch Inotify.granting f1 "config//b.json" 8 = (None, f2)
    /\ Inotify.syscalls f2 = [("config", 8)]
    /\ Inotify.dir_watches f2 = 1%nat
    /\ Inotify.targets (Inotify.tables f2) !! "config/a.json" = Some wd
    /\ Inotify.targets (Inotify.tables f2) !! "config/b.json" = Some wd.
Proof.
  destruct (Inotify.AddWatch Inotify.granting Inotify.NewINotify "config/a.json" 8)
    as [e1 f1] eqn:H1.
  destruct (Inotify.AddWatch Inotify.granting f1 "config//b.json" 8)
    as [e2 f2] eqn:H2.
  assert (e1 = None) as -> by (vm_compute in H1; congruence).
  assert (e2 = None) as ->.
  { revert H2. replace f1 with (Inotify.AddWatch Inotify.granting Inotify.NewINotify "config/a.json" 8).2
      by (by rewrite H1).
    vm_compute. congruence. }
  destruct (AddWatch_ErrWatched_iff_and_one_directory_watch Inotify.granting
              Inotify.NewINotify) as [_ Hshare].
  destruct (Hshare "config/a.json" "config//b.json" 8 8 f1 f2) as (wd & Hs & _ & Hn & Ht1 & Ht2);
    [by vm_compute | by vm_compute | by vm_compute | done | done |].
  exists f1, f2, wd. repeat split; try done.
Defined.

(** ** Targets registered at start-up *)

Section StartupFacts.
Import Settings Inotify Startup.
Variable K : kernel.

(** C9, as the code has it. When start-up gets through its
    registrations, the watched targets are the cleaned configuration path
    and, as soon as one of the certificate and key settings is not empty,
    the cleaned forms of both settings; when both are empty, the
    configuration path alone. *)
Theorem register_targets_watched (configPath : string) (v : Settings) (f : INotify) :
  register_targets K configPath v = inr f ->
  watched_set f =
    if bool_decide (TLSCertificate v ≠ "" \/ TLSKey v ≠ "")
    then {[Clean configPath; Clean (TLSCertificate v); Clean (TLSKey v)]}
    else {[Clean configPath]}.
Proof.
  unfold register_targets, watched_set.
  destruct (AddWatch K NewINotify configPath watch_mask) as [[e|] f1] eqn:H1; [done|].
  destruct (AddWatch_ok_targets _ _ _ _ _ H1) as [_ D1].
  simpl in D1. rewrite dom_empty_L in D1.
  case_bool_decide as Htls.
  - destruct (AddWatch K f1 _ watch_mask) as [[e|] f2] eqn:H2; [done|].
    destruct (AddWatch K f2 _ watch_mask) as [[e|] f3] eqn:H3; [done|].
    destruct (AddWatch_ok_targets _ _ _ _ _ H2) as [_ D2].
    destruct (AddWatch_ok_targets _ _ _ _ _ H3) as [_ D3].
    intros [= <-]. rewrite D3, D2, D1. set_solver.
  - intros [= <-]. rewrite D1. set_solver.
Qed.

End StartupFacts.

(** At a concrete input: certificate and key both set. *)
Lemma register_targets_watched_witness :
  exists f,
    Startup.register_targets Inotify.granting "config/config.json"
      {| Settings.ServePort := 80; Settings.ServeTLSPort := 443;
         Settings.TLSCertificate := "tls/cert.pem"; Settings.TLSKey := "tls/key.pem";
         Settings.TLSPfx := ""; Settings.WebRoot := "www";
         Settings.DataDirectory := "data" |} = inr f
    /\ Startup.watched_set f = {["config/config.json"; "tls/cert.pem"; "tls/key.pem"]}.
Proof.
  eexists. split; [by vm_compute|].
  match goal with |- Startup.watched_set ?f = _ =>
    exact (register_targets_watched Inotify.granting "config/config.json"
      {| Settings.ServePort := 80; Settings.ServeTLSPort := 443;
         Settings.TLSCertificate := "tls/cert.pem"; Settings.TLSKey := "tls/key.pem";
         Settings.TLSPfx := ""; Settings.WebRoot := "www";
         Settings.DataDirectory := "data" |} f eq_refl)
  end.
Defined.

(** C9 as the spec words it fails: with a certificate path and an empty
    key setting, start-up succeeds and registers the certificate path and
    the cleaned empty path [.] next to the configuration path. *)
Lemma register_targets_one_tls_setting_empty :
  exists f,
    Startup.register_targets Inotify.granting "config/config.json"
      {| Settings.ServePort := 80; Settings.ServeTLSPort := 443;
         Settings.TLSCertificate := "cert.pem"; Settings.TLSKey := "";
         Settings.TLSPfx := ""; Settings.WebRoot := "www";
         Settings.DataDirectory := "data" |} = inr f
    /\ Startup.watched_set f = {["config/config.json"; "cert.pem"; "."]}
    /\ Startup.watched_set f <> {["config/config.json"]}.
Proof.
  eexists. split; [by vm_compute|].
  assert (Hdom : forall s : gset string,
             s = {["config/config.json"; "cert.pem"; "."]} ->
             s <> {["config/config.json"]}).
  { intros s -> Heq.
    assert ("cert.pem" ∈ ({["config/config.json"]} : gset string)) as Hin
      by (rewrite <- Heq; set_solver).
    set_solver. }
  assert (Hs : forall s : gset string,
             s = {["config/config.json"; "cert.pem"; "."]} ->
             s = {["config/config.json"; "cert.pem"; "."]}
             /\ s <> {["config/config.json"]}) by (intros s Hs; split; auto).
  apply Hs. apply (bool_decide_unpack _). by vm_compute.
Qed.

(** ** The log writer: [openNew], [rotate], [write] *)

Section WriterFacts.
Import Os Logrotate.
Variable Format : string -> Z -> string.

Lemma header_bytes_nil (l : LogrotateWriter) :
  FileHeader (options l) = "" -> header_bytes l = [].
Proof. unfold header_bytes. by intros ->. Qed.

Lemma inode_insert_eq (w : World) ns ino next i f :
  inode (with_fs w ns (<[i := f]> ino) next) i = f.
Proof. unfold inode. simpl. by rewrite lookup_insert_eq. Qed.

(** A well-formed writer opens a fresh active file: the handle is the
    file now named [filename], holding the header and nothing else. *)
Lemma openNew_ok (l : LogrotateWriter) (w : World) (pre : string) :
  prefix l = Some pre -> filename l <> "" ->
  exists h w',
    openNew Format l w = (None, set_size (header_len l) (set_file (Some h) l), w')
    /\ mill_runs w' = mill_runs w
    /\ now w' = now w
    /\ names w' !! filename l = Some h
    /\ data (inode w' h) = header_bytes l.
Proof.
  intros Hpre Hname. unfold openNew, backupName, backupBase. rewrite Hpre. simpl.
  assert (Hcreate : forall w1 perm, mill_runs w1 = mill_runs w -> now w1 = now w ->
    exists h w',
      match Create w1 (filename l) perm with
      | inl e => (Some (Wrap "can't open new logfile" e), l, w1)
      | inr (h, w2) =>
          if bool_decide (FileHeader (options l) ≠ "") then
            match Write w2 (file (set_size 0 (set_file (Some h) l))) (header_bytes l) with
            | (_, Some e, w3) =>
                (Some (Wrap "can't write file header to file" e),
                 set_size 0 (set_file (Some h) l), w3)
            | (n, None, w3) =>
                (None, set_size (size (set_size 0 (set_file (Some h) l)) + n)
                         (set_size 0 (set_file (Some h) l)), w3)
            end
          else (None, set_size 0 (set_file (Some h) l), w2)
      end = (None, set_size (header_len l) (set_file (Some h) l), w')
      /\ mill_runs w' = mill_runs w /\ now w' = now w
      /\ names w' !! filename l = Some h
      /\ data (inode w' h) = header_bytes l).
  { intros w1 perm Hm Hn. unfold Create.
    rewrite bool_decide_eq_false_2 by done.
    destruct (names w1 !! filename l) as [i|] eqn:Hi.
    - case_bool_decide as Hh; simpl.
      + eexists i, _. split; [reflexivity|]. simpl.
        rewrite !inode_insert_eq. simpl. repeat split; try done.
      + eexists i, _. split.
        * unfold header_len. rewrite header_bytes_nil by (by destruct (decide (FileHeader (options l) = "")); [|exfalso; auto]).
          reflexivity.
        * simpl. rewrite inode_insert_eq. simpl.
          rewrite header_bytes_nil by (by destruct (decide (FileHeader (options l) = "")); [|exfalso; auto]).
          done.
    - case_bool_decide as Hh; simpl.
      + eexists (next_inode w1), _. split; [reflexivity|]. simpl.
        rewrite !inode_insert_eq. simpl. rewrite lookup_insert_eq. repeat split; try done.
      + eexists (next_inode w1), _. split.
        * unfold header_len. rewrite header_bytes_nil by (by destruct (decide (FileHeader (options l) = "")); [|exfalso; auto]).
          reflexivity.
        * simpl. rewrite inode_insert_eq, lookup_insert_eq. simpl.
          rewrite header_bytes_nil by (by destruct (decide (FileHeader (options l) = "")); [|exfalso; auto]).
          done. }
  unfold Stat, Rename.
  destruct (names w !! filename l) as [i|] eqn:Hi; simpl.
  - apply Hcreate; done.
  - apply Hcreate; done.
Qed.

End WriterFacts.

Section WriteFacts.
Import Os Logrotate.
Variable Format : string -> Z -> string.

Lemma rotate_ok (l : LogrotateWriter) (w : World) (pre : string) :
  prefix l = Some pre -> filename l <> "" ->
  exists h w',
    rotate Format l w = (None, set_size (header_len l) (set_file (Some h) l), w')
    /\ mill_runs w' = S (mill_runs w)
    /\ now w' = now w
    /\ names w' !! filename l = Some h
    /\ data (inode w' h) = header_bytes l.
Proof.
  intros Hpre Hname. unfold rotate, close.
  destruct (file l) as [h0|] eqn:Hf.
  - destruct (openNew_ok Format (set_file None l) w pre Hpre Hname)
      as (h & w' & -> & Hm & Hn & Hnames & Hdata).
    exists h, (spawn_mill w'). repeat split; simpl; try done. by rewrite Hm.
  - destruct (openNew_ok Format l w pre Hpre Hname)
      as (h & w' & -> & Hm & Hn & Hnames & Hdata).
    exists h, (spawn_mill w'). repeat split; simpl; try done. by rewrite Hm.
Qed.

(** The append that ends [write], on an open handle. *)
Lemma Write_appends (w : World) (h : Z) (p : list byte) :
  exists w',
    Write w (Some h) p = (Z.of_nat (length p), None, w')
    /\ mill_runs w' = mill_runs w
    /\ names w' = names w
    /\ data (inode w' h) = data (inode w h) ++ p.
Proof.
  eexists. split; [reflexivity|]. simpl. by rewrite inode_insert_eq.
Qed.

(** C7. A slice longer than the maximum segment size is refused: [write]
    returns 0 and an error, and neither the writer (handle, tracked size)
    nor the disk changes. *)
Theorem write_longer_than_max_is_refused
    (l : LogrotateWriter) (w : World) (p : list byte) :
  Z.of_nat (length p) > max l ->
  write Format l w p = (0, Some (ErrWriteLength (Z.of_nat (length p)) (max l)), l, w).
Proof. intros Hlen. unfold write. by rewrite bool_decide_eq_true_2. Qed.

End WriteFacts.

Section WriteBoundary.
Import Os Logrotate.
Variable Format : string -> Z -> string.

(** [write] with the handle open: append below the boundary, rotate
    once past it. *)
Lemma write_open (l : LogrotateWriter) (w : World) (p : list byte) (pre : string) (h : Z) :
  let N := Z.of_nat (length p) in
  file l = Some h -> N <= max l -> prefix l = Some pre -> filename l <> "" ->
  (size l + N <= max l ->
     exists w', write Format l w p = (N, None, set_size (size l + N) l, w')
       /\ mill_runs w' = mill_runs w /\ names w' = names w
       /\ data (inode w' h) = data (inode w h) ++ p)
  /\ (size l + N > max l ->
     exists h' w',
       write Format l w p = (N, None, set_size (header_len l + N) (set_file (Some h') l), w')
       /\ mill_runs w' = S (mill_runs w)
       /\ names w' !! filename l = Some h'
       /\ data (inode w' h') = header_bytes l ++ p).
Proof.
  intros N Hf Hmax Hpre Hname. unfold write. fold N.
  rewrite bool_decide_eq_false_2 by lia. rewrite Hf. split; intros Hb.
  - rewrite bool_decide_eq_false_2 by lia. rewrite Hf.
    destruct (Write_appends w h p) as (w' & -> & Hm & Hn & Hd).
    exists w'. by repeat split.
  - rewrite bool_decide_eq_true_2 by lia.
    destruct (rotate_ok Format l w pre Hpre Hname) as (h' & w1 & -> & Hm & _ & Hn & Hd).
    cbn [file set_size set_file size].
    destruct (Write_appends w1 h' p) as (w' & -> & Hm' & Hn' & Hd').
    exists h', w'. split; [reflexivity|]. rewrite Hm', Hn', Hd', Hd. by repeat split.
Qed.

(** [write] with no handle is [write] after [openExistingOrNew]. *)
Lemma write_reopened (l l1 : LogrotateWriter) (w w1 : World) (p : list byte) (h : Z) :
  file l = None -> Z.of_nat (length p) <= max l ->
  openExistingOrNew Format l w (Z.of_nat (length p)) = (None, l1, w1) ->
  file l1 = Some h -> max l1 = max l ->
  write Format l w p = write Format l1 w1 p.
Proof.
  intros Hf Hmax Hopen Hf1 Hmax1. unfold write.
  rewrite Hmax1, !bool_decide_eq_false_2 by lia.
  by rewrite Hf, Hopen, Hf1.
Qed.

(** C3, as the code has it. A write of [N <= max] bytes on a well-formed
    writer succeeds. With the handle open it appends when
    [size + N <= max] and rotates once, first, when [size + N > max]; with
    the handle closed and the active file of size [S] on disk it appends
    when [S + N < max] and rotates first when [S + N > max]. After a
    rotation the active file holds the configured header followed by the
    [N] bytes, and its tracked size is the header's length plus [N]
    (just [N] when no header is configured). *)
Theorem write_rotates_only_past_the_boundary
    (l : LogrotateWriter) (w : World) (p : list byte) (pre : string) :
  let N := Z.of_nat (length p) in
  N <= max l -> prefix l = Some pre -> filename l <> "" ->
  exists l' w',
    write Format l w p = (N, None, l', w')
    /\ (forall h, file l = Some h ->
          (size l + N <= max l ->
             l' = set_size (size l + N) l /\ mill_runs w' = mill_runs w
             /\ names w' = names w /\ data (inode w' h) = data (inode w h) ++ p)
          /\ (size l + N > max l ->
             mill_runs w' = S (mill_runs w) /\ size l' = header_len l + N
             /\ exists h', file l' = Some h' /\ names w' !! filename l = Some h'
                  /\ data (inode w' h') = header_bytes l ++ p))
    /\ (file l = None -> forall i, names w !! filename l = Some i ->
          (fsize (inode w i) + N < max l ->
             l' = set_size (fsize (inode w i) + N) (set_file (Some i) l)
             /\ mill_runs w' = mill_runs w /\ names w' = names w
             /\ data (inode w' i) = data (inode w i) ++ p)
          /\ (fsize (inode w i) + N > max l ->
             (mill_runs w < mill_runs w')%nat /\ size l' = header_len l + N
             /\ exists h', file l' = Some h' /\ names w' !! filename l = Some h'
                  /\ data (inode w' h') = header_bytes l ++ p)).
Proof.
  intros N Hmax Hpre Hname.
  destruct (file l) as [h|] eqn:Hf.
  - destruct (write_open l w p pre h Hf Hmax Hpre Hname) as [Hle Hgt]. fold N in Hle, Hgt.
    destruct (decide (size l + N <= max l)) as [Hb|Hb].
    + destruct (Hle Hb) as (w' & Hw & Hm & Hn & Hd).
      eexists _, w'. split; [exact Hw|]. split; [|done].
      intros h0 [= <-]. split; [done | lia].
    + destruct (Hgt ltac:(lia)) as (h' & w' & Hw & Hm & Hn & Hd).
      eexists _, w'. split; [exact Hw|]. split; [|done].
      intros h0 [= <-]. split; [lia|]. intros _. simpl. repeat split; [done|].
      by exists h'.
  - (* the handle is closed: the outcome of openExistingOrNew, then write_open *)
    assert (Hopen : exists l1 w1 h1,
      openExistingOrNew Format l w N = (None, l1, w1) /\ file l1 = Some h1
      /\ filename l1 = filename l /\ options l1 = options l
      /\ basename l1 = basename l /\ ext l1 = ext l
      /\ ((forall i, names w !! filename l = Some i -> fsize (inode w i) + N < max l ->
             l1 = set_size (fsize (inode w i)) (set_file (Some i) l) /\ w1 = w /\ h1 = i)
          /\ (forall i, names w !! filename l = Some i -> fsize (inode w i) + N > max l ->
             size l1 = header_len l /\ mill_runs w1 = S (mill_runs w)
             /\ names w1 !! filename l = Some h1))).
    { unfold openExistingOrNew, Stat, OpenAppend.
      destruct (names w !! filename l) as [i|] eqn:Hi.
      - case_bool_decide as Hb.
        + destruct (rotate_ok Format l w pre Hpre Hname) as (h1 & w1 & -> & Hm & _ & Hn & Hd).
          eexists _, w1, h1. split; [reflexivity|].
          repeat match goal with |- _ /\ _ => split end; try done;
            intros i' [= <-] ?; first [lia | done].
        + eexists _, w, i. split; [reflexivity|].
          repeat match goal with |- _ /\ _ => split end; try done;
            intros i' [= <-] ?; first [lia | done].
      - simpl.
        destruct (openNew_ok Format l w pre Hpre Hname) as (h1 & w1 & -> & Hm & _ & Hn & Hd).
        eexists _, w1, h1. split; [reflexivity|].
        repeat match goal with |- _ /\ _ => split end; done. }
    destruct Hopen as (l1 & w1 & h1 & Hopen & Hf1 & Hfn & Hopt & Hbn & Hext & Hlt & Hgt).
    assert (Hmax1 : max l1 = max l) by (unfold max; by rewrite Hopt).
    assert (Hpre1 : prefix l1 = Some pre) by (unfold prefix in *; by rewrite Hbn, Hext).
    assert (Hhdr : header_len l1 = header_len l /\ header_bytes l1 = header_bytes l)
      by (unfold header_len, header_bytes; by rewrite Hopt).
    destruct Hhdr as [Hhl Hhb].
    rewrite (write_reopened l l1 w w1 p h1 Hf Hmax Hopen Hf1 Hmax1).
    destruct (write_open l1 w1 p pre h1 Hf1 ltac:(lia) Hpre1 ltac:(by rewrite Hfn))
      as [Hle Hbig]. fold N in Hle, Hbig. rewrite Hmax1, Hfn, Hhl, Hhb in *.
    destruct (decide (size l1 + N <= max l)) as [Hb|Hb].
    + destruct (Hle Hb) as (w' & Hw & Hm & Hn & Hd).
      eexists _, w'. split; [exact Hw|]. split; [done|].
      intros _ i Hi. split.
      * intros Hs. destruct (Hlt i Hi Hs) as (-> & -> & ->). simpl in *. by repeat split.
      * intros Hs. destruct (Hgt i Hi Hs) as (Hsz & Hmr & Hnm).
        simpl. rewrite Hm, Hmr, Hsz. split; [lia|]. split; [done|].
        exists h1. rewrite Hn. repeat split; try done.
        (* the first rotation left the header in the new file *)
        rewrite Hd. f_equal.
        revert Hopen. unfold openExistingOrNew, Stat. rewrite Hi.
        rewrite bool_decide_eq_true_2 by lia.
        destruct (rotate_ok Format l w pre Hpre Hname) as (h2 & w2 & -> & _ & _ & _ & Hd2).
        intros [= <- <-]. simpl in Hf1. by injection Hf1 as <-.
    + destruct (Hbig ltac:(lia)) as (h' & w' & Hw & Hm & Hn & Hd).
      eexists _, w'. split; [exact Hw|]. split; [done|].
      intros _ i Hi. split.
      * intros Hs. destruct (Hlt i Hi Hs) as (-> & -> & ->). simpl in *. lia.
      * intros Hs. destruct (Hgt i Hi Hs) as (Hsz & Hmr & Hnm).
        simpl. rewrite Hm, Hmr. split; [lia|]. split; [done|]. by exists h'.
Qed.

End WriteBoundary.

(** ** The writer at concrete inputs *)

(** An 11-byte write against a 10-byte maximum. *)
Lemma write_longer_than_max_is_refused_witness :
  Logrotate.write Time.Format (Scenario.writer 10 "") Scenario.empty_disk (Scenario.payload 11)
  = (0, Some (Os.ErrWriteLength 11 10), Scenario.writer 10 "", Scenario.empty_disk).
Proof.
  apply (write_longer_than_max_is_refused Time.Format
           (Scenario.writer 10 "") Scenario.empty_disk (Scenario.payload 11)).
  by vm_compute.
Defined.

(** Maximum 100, header of 5 bytes, handle open at size 80, 40 bytes
    written: one rotation, and the new active file tracks 45 bytes. *)
Lemma write_rotates_only_past_the_boundary_witness :
  exists l' w',
    Logrotate.write Time.Format (Scenario.opened 100 "# log" 80) (Scenario.disk 80)
      (Scenario.payload 40) = (40, None, l', w')
    /\ Os.mill_runs w' = 1%nat
    /\ Logrotate.size l' = 45.
Proof.
  destruct (write_rotates_only_past_the_boundary Time.Format
              (Scenario.opened 100 "# log" 80) (Scenario.disk 80) (Scenario.payload 40) "app-")
    as (l' & w' & Hw & Hopen & _); [by vm_compute | by vm_compute | by vm_compute |].
  destruct (Hopen 1 eq_refl) as [_ Hgt].
  destruct Hgt as (Hm & Hs & _); [by vm_compute|].
  exists l', w'. split; [exact Hw|]. split; [exact Hm | exact Hs].
Defined.

(** C3 as the spec words it fails twice. With a 5-byte header the active
    file tracks 45 bytes, not 40, after the rotation. With the handle
    closed, 60 bytes on disk and a maximum of 100, a 40-byte write reaches
    the maximum exactly and still rotates ([openExistingOrNew] compares
    with [>=]), where the same write on an open handle appends. *)
Lemma write_size_after_rotation_counts_header_and_reopen_rotates_at_max :
  (let '(n, e, l', w') :=
     Logrotate.write Time.Format (Scenario.opened 100 "# log" 80) (Scenario.disk 80)
       (Scenario.payload 40) in
   (n, e, Logrotate.size l', Os.mill_runs w') = (40, None, 45, 1%nat))
  /\ (let '(n, e, l', w') :=
        Logrotate.write Time.Format (Scenario.writer 100 "") (Scenario.disk 60)
          (Scenario.payload 40) in
      (n, e, Logrotate.size l', Os.mill_runs w',
       Os.names w' !! "/var/log/app-2024-03-05T10-11-12.345.log")
      = (40, None, 40, 1%nat, Some 1))
  /\ (let '(n, e, l', w') :=
        Logrotate.write Time.Format (Scenario.opened 100 "" 60) (Scenario.disk 60)
          (Scenario.payload 40) in
      (n, e, Logrotate.size l', Os.mill_runs w') = (40, None, 100, 0%nat)).
Proof. by vm_compute. Qed.

(** C4 fails in the code: maximum 10, header [HEADER] (6 bytes), no log
    file yet, 8 bytes written. The write succeeds, rotates the
    header-only file away once, and leaves a tracked size of 14. *)
Lemma write_with_header_exceeds_max :
  let '(n, e, l', w') :=
    Logrotate.write Time.Format (Scenario.writer 10 "HEADER") Scenario.empty_disk
      (Scenario.payload 8) in
  (n, e, Logrotate.size l', Logrotate.max l', Os.mill_runs w') = (8, None, 14, 10, 1%nat)
  /\ Logrotate.size l' > Logrotate.max l'.
Proof. by vm_compute. Qed.

(** ** Retention: the selection made by [mill] *)

Section MillFacts.
Import Os Logrotate.











End MillFacts.


(** ** Backup names: [backupName] against [timeFromName] *)

Lemma append_assoc_s (a b c : string) : (a +:+ b) +:+ c = a +:+ b +:+ c.
Proof. apply chars_inj. by rewrite !chars_app, (assoc_L _). Qed.

Lemma len_zero (s : string) : len s = 0 -> s = "".
Proof. destruct s; [done|]. unfold len. simpl. lia. Qed.

(** What the slice expression of [timeFromName] yields once the prefix
    and suffix tests have passed: the text between them, or a panic when
    prefix and suffix overlap. *)
Lemma slice_between (fname pre ex : string) :
  HasPrefix fname pre = true -> HasSuffix fname ex = true ->
  (len pre <= len fname - len ex ->
     exists mid, fname = pre +:+ mid +:+ ex
       /\ slice fname (len pre) (len fname - len ex) = Some mid)
  /\ (len fname - len ex < len pre ->
      slice fname (len pre) (len fname - len ex) = None).
Proof.
  intros [a Ha]%HasPrefix_spec [b Hb]%HasSuffix_spec. split.
  - intros Hlen.
    assert (Hmid : exists mid, fname = pre +:+ mid +:+ ex).
    { assert (Heq : chars pre ++ chars a = chars b ++ chars ex)
        by (rewrite <- !chars_app; congruence).
      apply app_eq_inv in Heq as [(k & Hk1 & Hk2)|(k & Hk1 & Hk2)].
      - assert (k = []) as ->.
        { apply length_zero_iff_nil.
          assert (len pre = len b + Z.of_nat (length k)).
          { unfold len. rewrite <- !chars_length, Hk1, length_app. lia. }
          rewrite Hb, len_app in Hlen. lia. }
        exists "". rewrite Ha. f_equal. apply chars_inj.
        change ("" +:+ ex) with ex. by rewrite Hk2.
      - exists (of_chars k). rewrite Ha. f_equal. apply chars_inj.
        by rewrite Hk2, chars_app, chars_of_chars. }
    destruct Hmid as [mid ->]. exists mid. split; [done | apply slice_middle].
  - intros Hlen. unfold slice. pose proof (len_nonneg pre).
    by rewrite bool_decide_eq_false_2 by lia.
Qed.

Section BackupNames.
Import Os Logrotate.
Variable Format : string -> Z -> string.
Variable Parse : string -> string -> option Z.

(** A name that [timeFromName] accepts is the prefix, a text that parses
    as a timestamp, and the extension. *)
Lemma timeFromName_shape (l : LogrotateWriter) (fname pre ex : string) (u : Z) :
  timeFromName Parse l fname pre ex = IsBackup u ->
  exists ts, fname = pre +:+ ts +:+ ex /\ Parse (BackupTimeFormat (options l)) ts = Some u.
Proof.
  unfold timeFromName.
  destruct (HasPrefix fname pre) eqn:Hp; [|done].
  destruct (HasSuffix fname ex) eqn:Hx; [|done]. simpl.
  destruct (slice_between fname pre ex Hp Hx) as [Hin Hout].
  destruct (decide (len pre <= len fname - len ex)) as [Hlen|Hlen].
  - destruct (Hin Hlen) as (mid & -> & ->).
    destruct (Parse _ mid) as [v|] eqn:Hv; [|done].
    intros [= <-]. by exists mid.
  - by rewrite Hout by lia.
Qed.



(** Every file that [scan] reports comes from a regular entry whose name
    passed [timeFromName], with the extension or with the extension and
    the compression suffix. *)
Lemma scan_elem (l : LogrotateWriter) (pre : string) (entries : list DirEntry)
    (files : list logInfo) (f : logInfo) :
  scan Parse l pre entries = Some files -> f ∈ files ->
  {| Name := name f; IsRegular := true |} ∈ entries
  /\ (timeFromName Parse l (name f) pre (ext l) = IsBackup (t f)
      \/ timeFromName Parse l (name f) pre (ext l +:+ compressSuffix) = IsBackup (t f)).
Proof.
  revert files. induction entries as [|e rest IH]; intros files; simpl.
  - intros [= <-] ?%elem_of_nil. done.
  - assert (Hrest : forall fs, scan Parse l pre rest = Some fs -> f ∈ fs ->
      {| Name := name f; IsRegular := true |} ∈ e :: rest
      /\ (timeFromName Parse l (name f) pre (ext l) = IsBackup (t f)
          \/ timeFromName Parse l (name f) pre (ext l +:+ compressSuffix) = IsBackup (t f))).
    { intros fs Hfs Hf. destruct (IH fs Hfs Hf). split; [by right | done]. }
    destruct e as [nm reg]. destruct reg; simpl; [|by apply Hrest].
    destruct (timeFromName Parse l nm pre (ext l)) as [u| |] eqn:H1; [| |done].
    + destruct (scan Parse l pre rest) as [fs|]; [|done]. simpl.
      intros [= <-] [->|Hf]%elem_of_cons; [|by eapply Hrest].
      simpl. split; [by left | by left].
    + destruct (timeFromName Parse l nm pre (ext l +:+ compressSuffix)) as [u| |] eqn:H2;
        [| by apply Hrest | done].
      destruct (scan Parse l pre rest) as [fs|]; [|done]. simpl.
      intros [= <-] [->|Hf]%elem_of_cons; [|by eapply Hrest].
      simpl. split; [by left | by right].
Qed.


End BackupNames.

(** ** The layout model: text after a timestamp is an error *)

Section TimeFacts.
Import Time.


#[local] Arguments read_digits : simpl never.


#[local] Arguments parse_chunk : simpl never.


(** A value that parses stops parsing when text is appended to it. *)
#[local] Arguments parse_chunks : simpl never.


End TimeFacts.



(** ** The fingerprint *)

Section FingerprintFacts.
Import Settings Fingerprint.
Variable sha1_Sum : list byte -> list byte.
Variable json_Unmarshal : list byte -> Settings -> option string * Settings.
Variable json_Marshal : Settings -> list byte.

Abbreviation contribution' := (contribution json_Unmarshal json_Marshal).
Abbreviation digested' := (digested json_Unmarshal json_Marshal).
Abbreviation fingerprint' := (fingerprint sha1_Sum json_Unmarshal json_Marshal).





End FingerprintFacts.

(** The stand-in for SHA-1 against the test vectors of FIPS 180-4, and
    the stand-in for [json.Marshal] on the default settings. *)
Example sha1_Sum_vectors :
  Libraries.sha1_Sum (Libraries.bytes_of "abc")
  = [xa9; x99; x3e; x36; x47; x06; x81; x6a; xba; x3e;
     x25; x71; x78; x50; xc2; x6c; x9c; xd0; xd8; x9d]
  /\ Libraries.sha1_Sum []
     = [xda; x39; xa3; xee; x5e; x6b; x4b; x0d; x32; x55;
        xbf; xef; x95; x60; x18; x90; xaf; xd8; x07; x09]
  /\ Libraries.sha1_Sum
       (Libraries.bytes_of "abcdbcdecdefdefgefghfghighijhijkijkljklmklmnlmnomnopnopq")
     = [x84; x98; x3e; x44; x1c; x3b; xd2; x6e; xba; xae;
        x4a; xa1; xf9; x51; x29; xe5; xe5; x46; x70; xf1]
  /\ length (Libraries.json_Marshal Settings.Default) = 89%nat.
Proof. by vm_compute. Qed.



(** ** The supervising loop *)

Section SupervisorFacts.
Import Supervisor.

Lemma invariant_init (hash0 : list byte) : invariant (init hash0).
Proof.
  unfold invariant, init, appCtx. simpl. split; [lia|]. split; [done|]. split.
  - intros c why Hc. by rewrite lookup_empty in Hc.
  - intros c Hc%list_elem_of_singleton. lia.
Qed.

Lemma cancel_lookup_fresh (c : Z) (why : cause) (m : gmap Z cause) :
  m !! c = None -> cancel c why m !! c = Some why.
Proof. intros Hc. unfold cancel. rewrite Hc. apply lookup_insert_eq. Qed.

Lemma cancel_lookup_Some (c c' : Z) (why why' : cause) (m : gmap Z cause) :
  cancel c why m !! c' = Some why' -> c' = c \/ m !! c' = Some why'.
Proof.
  unfold cancel. destruct (m !! c) eqn:Hc; [by right|].
  destruct (decide (c' = c)) as [->|Hne]; [by left|].
  rewrite lookup_insert_ne by done. by right.
Qed.

Lemma invariant_live (st : state) : invariant st -> cancelled st !! cur st = None.
Proof.
  intros (_ & _ & Hc & _). destruct (cancelled st !! cur st) as [why|] eqn:Hcur; [|done].
  apply Hc in Hcur. lia.
Qed.

Lemma invariant_restart_send (st st' : state) (b : list byte) :
  invariant st -> send_srv (restart st b) (cur (restart st b)) = Continue st' ->
  invariant st'.
Proof.
  intros (Hcur & Hpar & Hcan & Hq). unfold send_srv.
  case_bool_decide; [|done]. intros [= <-].
  unfold invariant. simpl. split; [lia|]. split; [apply lookup_insert_eq|]. split.
  - intros c why Hc. apply cancel_lookup_Some in Hc as [->|Hc]; [lia|].
    apply Hcan in Hc. lia.
  - intros c Hc. rewrite <- (assoc_L _) in Hc.
    apply elem_of_app in Hc as [Hin|Hin].
    + assert (appCtx < c <= cur st) by (apply Hq; set_solver). lia.
    + apply elem_of_cons in Hin as [->|Hin]; [lia|].
      assert (appCtx < c <= cur st) by (apply Hq; set_solver). lia.
Qed.

Lemma invariant_on_srv (st st' : state) :
  invariant st -> on_srv st = Some st' -> invariant st'.
Proof.
  intros (Hcur & Hpar & Hcan & Hq). unfold on_srv.
  destruct (srv st) as [|c rest] eqn:Hsrv; [done|]. intros [= <-].
  unfold invariant. simpl. split; [done|]. split; [done|]. split; [done|].
  intros c' Hc'. apply Hq. set_solver.
Qed.

(** Every state in which the loop stands satisfies the invariant. *)
Lemma reachable_invariant (st : state) : reachable st -> invariant st.
Proof.
  induction 1 as [hash0|st st' ev Hreach IH Hstep]; [apply invariant_init|].
  destruct ev as [sig| |b]; simpl in Hstep.
  - done.
  - destruct (on_srv st) as [st1|] eqn:Hsrv; [|done]. simpl in Hstep.
    injection Hstep as <-. by eapply invariant_on_srv.
  - injection Hstep as Hstep. unfold on_changed in Hstep.
    case_bool_decide; [by injection Hstep as <-|].
    by eapply invariant_restart_send.
Qed.

Variable sha1_Sum : list byte -> list byte.
Variable json_Unmarshal : list byte -> Settings.Settings -> option string * Settings.Settings.
Variable json_Marshal : Settings.Settings -> list byte.


End SupervisorFacts.


(** ** More of [inotify.go]: [maskToOp], [deleteSelf], the tables *)

Section WatchTableFacts.
Import Inotify.
Variable K : kernel.

(** X1. The [Op] that [maskToOp] builds has a category, by the test that
    [Op.String] applies, exactly when the kernel mask has one of the bits
    of that category; and it has no bit outside the six categories. *)
Theorem maskToOp_categories (mask : Z) :
  flagMask (maskToOp mask) Create = flagMask mask IN_CREATE || flagMask mask IN_MOVED_TO
  /\ flagMask (maskToOp mask) Remove = flagMask mask IN_DELETE_SELF || flagMask mask IN_DELETE
  /\ flagMask (maskToOp mask) Rename = flagMask mask IN_MOVE_SELF || flagMask mask IN_MOVED_FROM
  /\ flagMask (maskToOp mask) CloseWrite = flagMask mask IN_CLOSE_WRITE
  /\ flagMask (maskToOp mask) Modify = flagMask mask IN_MODIFY
  /\ flagMask (maskToOp mask) Chmod = flagMask mask IN_ATTRIB
  /\ Z.land (maskToOp mask)
       (Z.lor Create (Z.lor Remove (Z.lor Rename (Z.lor CloseWrite (Z.lor Modify Chmod)))))
     = maskToOp mask.
Proof.
  unfold maskToOp.
  destruct (flagMask mask IN_CREATE), (flagMask mask IN_MOVED_TO),
    (flagMask mask IN_DELETE_SELF), (flagMask mask IN_DELETE),
    (flagMask mask IN_MOVE_SELF), (flagMask mask IN_MOVED_FROM),
    (flagMask mask IN_CLOSE_WRITE), (flagMask mask IN_MODIFY), (flagMask mask IN_ATTRIB);
    by vm_compute.
Qed.

Lemma consistent_AddWatch (f : INotify) (path : string) (op : Op) :
  consistent (tables f) -> consistent (tables (AddWatch K f path op).2).
Proof.
  intros [HJ HT]. unfold AddWatch.
  destruct (targets (tables f) !! Clean path) eqn:Ht; [done|].
  destruct (dirWd (tables f) !! Dir (Clean path)) as [wd|] eqn:Hd; simpl.
  - split; simpl; [done|]. intros t wd' Hl.
    destruct (decide (t = Clean path)) as [->|Hne].
    + rewrite lookup_insert_eq in Hl. by injection Hl as <-.
    + rewrite lookup_insert_ne in Hl by done. by apply HT.
  - destruct (K _ _ _) as [wd|errno]; simpl; [|done].
    split; simpl.
    + intros wd' dir' Hl. destruct (decide (wd' = wd)) as [->|Hne].
      * rewrite lookup_insert_eq in Hl. injection Hl as <-. apply lookup_insert_eq.
      * rewrite lookup_insert_ne in Hl by done. apply HJ in Hl.
        rewrite lookup_insert_ne; [done|]. intros <-. congruence.
    + intros t wd' Hl. destruct (decide (t = Clean path)) as [->|Hne].
      * rewrite lookup_insert_eq in Hl. injection Hl as <-. apply lookup_insert_eq.
      * rewrite lookup_insert_ne in Hl by done. apply HT in Hl.
        rewrite lookup_insert_ne; [done|]. intros Heq. congruence.
Qed.

Lemma consistent_deleteSelf (w : watches) (wd : Z) :
  consistent w -> consistent (deleteSelf w wd).2.
Proof.
  intros [HJ HT]. unfold deleteSelf.
  destruct (wdDir w !! wd) as [dir|] eqn:Hwd; simpl; [|done].
  pose proof (HJ _ _ Hwd) as Hdir.
  split; simpl.
  - intros wd' dir' Hl. apply lookup_delete_Some in Hl as [Hne Hl].
    apply HJ in Hl. rewrite lookup_delete_ne; [done|]. intros <-. congruence.
  - intros t wd' Hl. apply map_lookup_filter_Some in Hl as [Hl Hne]. simpl in Hne.
    apply HT in Hl. rewrite lookup_delete_ne; [done|]. intros Heq. congruence.
Qed.

(** X2. The tables stay consistent, whatever the kernel answers: they are
    at [NewINotify], and [AddWatch] and [deleteSelf] keep them so. *)
Theorem watch_tables_stay_consistent :
  consistent (tables NewINotify)
  /\ (forall f path op, consistent (tables f) -> consistent (tables (AddWatch K f path op).2))
  /\ (forall w wd, consistent w -> consistent (deleteSelf w wd).2).
Proof.
  split; [|split].
  - split; simpl; intros ? ? Hl; by rewrite lookup_empty in Hl.
  - apply consistent_AddWatch.
  - apply consistent_deleteSelf.
Qed.

(** X3. [deleteSelf] on an unknown descriptor reports [false] and changes
    nothing. On the descriptor of a watched directory it reports [true],
    forgets the directory both ways and, the tables being consistent,
    deregisters every target in that directory; a target that carries
    another descriptor stays registered. *)
Theorem deleteSelf_deregisters_directory (w : watches) (wd : Z) :
  consistent w ->
  (wdDir w !! wd = None -> deleteSelf w wd = (false, w))
  /\ (forall dir, wdDir w !! wd = Some dir ->
        exists w',
          deleteSelf w wd = (true, w')
          /\ wdDir w' !! wd = None
          /\ dirWd w' !! dir = None
          /\ (forall t, Dir t = dir -> targets w' !! t = None)
          /\ (forall t wd', wd' <> wd ->
                targets w !! t = Some wd' -> targets w' !! t = Some wd')
          /\ (forall t, targets w' !! t = Some wd -> False)).
Proof.
  intros [HJ HT]. unfold deleteSelf. split.
  - by intros ->.
  - intros dir Hwd. rewrite Hwd. eexists. split; [reflexivity|]. simpl.
    split; [apply lookup_delete_eq|]. split; [apply lookup_delete_eq|].
    split; [|split].
    + intros t Hdir. apply map_lookup_filter_None. 
      destruct (targets w !! t) as [wd'|] eqn:Ht; [right | by left].
      intros x [= <-]. simpl. intros Hne. apply Hne.
      apply HT in Ht. rewrite Hdir in Ht. apply HJ in Hwd. congruence.
    + intros t wd' Hne Ht. by apply map_lookup_filter_Some.
    + intros t Ht. apply map_lookup_filter_Some in Ht as [_ Hne]. by apply Hne.
Qed.

(** X4. [AddWatch] never disturbs what is registered: whatever it returns, a
    target registered before keeps its descriptor, a directory keeps its
    descriptor, and the only target that can be new is the cleaned path;
    when it returns an error no target is added at all. *)
Theorem AddWatch_keeps_registrations (f : INotify) (path : string) (op : Op) :
  let r := AddWatch K f path op in
  (forall t wd, targets (tables f) !! t = Some wd -> targets (tables r.2) !! t = Some wd)
  /\ (forall dir wd, dirWd (tables f) !! dir = Some wd -> dirWd (tables r.2) !! dir = Some wd)
  /\ (forall t, is_Some (targets (tables r.2) !! t) ->
        t = Clean path \/ is_Some (targets (tables f) !! t))
  /\ (forall e, r.1 = Some e -> tables r.2 = tables f)
  /\ (r.1 = None -> is_Some (targets (tables r.2) !! Clean path)).
Proof.
  unfold AddWatch.
  destruct (targets (tables f) !! Clean path) eqn:Ht; simpl.
  { repeat match goal with |- _ /\ _ => split end; try done. by right. }
  destruct (dirWd (tables f) !! Dir (Clean path)) as [wd|] eqn:Hd; simpl.
  - repeat match goal with |- _ /\ _ => split end; try done.
    + intros t wd' Hl. rewrite lookup_insert_ne; [done|]. congruence.
    + intros t Hl. destruct (decide (t = Clean path)); [by left|].
      right. by rewrite lookup_insert_ne in Hl.
    + intros _. rewrite lookup_insert_eq. by eexists.
  - destruct (K _ _ _) as [wd|errno]; simpl.
    + repeat match goal with |- _ /\ _ => split end; try done.
      * intros t wd' Hl. rewrite lookup_insert_ne; [done|]. congruence.
      * intros dir wd' Hl. rewrite lookup_insert_ne; [done|]. congruence.
      * intros t Hl. destruct (decide (t = Clean path)); [by left|].
        right. by rewrite lookup_insert_ne in Hl.
      * intros _. rewrite lookup_insert_eq. by eexists.
    + repeat match goal with |- _ /\ _ => split end; try done. by right.
Qed.

End WatchTableFacts.

(** With two targets in [config] and one in [tls], the directory
    [config] goes away: its two targets are deregistered, the
    certificate stays. *)
Lemma deleteSelf_deregisters_directory_witness :
  exists w',
    Inotify.deleteSelf
      (Inotify.tables
         (Inotify.AddWatch Inotify.granting
            (Inotify.AddWatch Inotify.granting
               (Inotify.AddWatch Inotify.granting Inotify.NewINotify
                  "config/config.json" Startup.watch_mask).2
               "tls/cert.pem" Startup.watch_mask).2
            "config/key.pem" Startup.watch_mask).2) 1 = (true, w')
    /\ Inotify.targets w' !! "config/config.json" = None
    /\ Inotify.targets w' !! "config/key.pem" = None
    /\ Inotify.targets w' !! "tls/cert.pem" = Some 2.
Proof.
  destruct (deleteSelf_deregisters_directory
    (Inotify.tables
       (Inotify.AddWatch Inotify.granting
          (Inotify.AddWatch Inotify.granting
             (Inotify.AddWatch Inotify.granting Inotify.NewINotify
                "config/config.json" Startup.watch_mask).2
             "tls/cert.pem" Startup.watch_mask).2
          "config/key.pem" Startup.watch_mask).2) 1) as [_ Hdel].
  { do 3 apply consistent_AddWatch.
    split; simpl; intros ? ? Hl; by rewrite lookup_empty in Hl. }
  destruct (Hdel "config") as (w' & Hw & _ & _ & Hgone & Hkept & _); [by vm_compute|].
  exists w'. split; [exact Hw|].
  split; [by apply Hgone|]. split; [by apply Hgone|].
  apply (Hkept _ 2); [done | by vm_compute].
Defined.

(** ** The writer that [NewLogrotateWriter] builds *)

Section PathFacts.
Import Filepath.

Lemma after_last_sep_no_sep (p : list ascii) : sep ∉ drop (after_last_sep p) p.
Proof.
  induction p as [|c p IH]; simpl; [by intros ?%elem_of_nil|].
  case_bool_decide as Hp; [|done].
  case_bool_decide as Hp'; simpl; [done|].
  by rewrite drop_0.
Qed.

Lemma after_last_sep_pos (p : list ascii) : sep ∈ p -> (0 < after_last_sep p)%nat.
Proof.
  destruct p as [|c p]; [by intros ?%elem_of_nil|]. intros Hp. simpl.
  rewrite bool_decide_eq_true_2 by done. case_bool_decide; lia.
Qed.

Lemma after_last_sep_take (p : list ascii) :
  take (after_last_sep p) p = [] \/ exists d, take (after_last_sep p) p = d ++ [sep].
Proof.
  induction p as [|c p IH]; simpl; [by left|].
  case_bool_decide as Hp; [|by left].
  case_bool_decide as Hp'; simpl.
  - right. destruct IH as [Hnil|[d ->]]; [|by exists (c :: d)].
    exfalso. pose proof (after_last_sep_pos p Hp') as Hpos.
    destruct p as [|c' p]; [by apply elem_of_nil in Hp'|].
    destruct (after_last_sep (c' :: p)); [lia | done].
  - right. exists []. rewrite take_0. simpl.
    apply elem_of_cons in Hp as [<-|]; done.
Qed.

Lemma ext_rev_suffix (rb rest acc : list ascii) :
  sep ∉ rb -> (rest = [] \/ exists r, rest = sep :: r) ->
  exists s, reverse rb ++ acc = s ++ ext_rev (rb ++ rest) acc.
Proof.
  intros Hsep Hrest. revert acc. induction rb as [|c rb IH]; intros acc; simpl.
  - exists acc. destruct Hrest as [->|[r ->]]; simpl.
    + by rewrite (right_id_L [] (++)).
    + by rewrite (right_id_L [] (++)).
  - rewrite bool_decide_eq_false_2 by (intros ->; apply Hsep; by left).
    case_bool_decide as Hdot.
    + exists (reverse rb). by rewrite reverse_cons, <- (assoc_L _).
    + destruct (IH ltac:(intros ?; apply Hsep; by right) (c :: acc)) as [s Hs].
      exists s. by rewrite reverse_cons, <- (assoc_L _).
Qed.

Lemma ext_rev_shape (rb acc : list ascii) :
  ext_rev rb acc = [] \/ exists e, ext_rev rb acc = "."%char :: e.
Proof.
  revert acc. induction rb as [|c rb IH]; intros acc; simpl; [by left|].
  case_bool_decide; [by left|].
  case_bool_decide as Hdot; [right; rewrite Hdot; by eexists | apply IH].
Qed.

(** The extension is the end of the file part that [Split] returns. *)
Lemma Split_Ext (fname : string) :
  exists stem, (Split fname).2 = stem +:+ Ext fname.
Proof.
  unfold Split, Ext. simpl.
  set (p := Strings.chars fname).
  assert (Hp : reverse p
               = reverse (drop (after_last_sep p) p) ++ reverse (take (after_last_sep p) p))
    by (by rewrite <- reverse_app, take_drop).
  destruct (ext_rev_suffix (reverse (drop (after_last_sep p) p))
              (reverse (take (after_last_sep p) p)) []) as [s Hs].
  - rewrite elem_of_reverse. apply after_last_sep_no_sep.
  - destruct (after_last_sep_take p) as [Hnil|[d Hd]].
    + left. by rewrite Hnil.
    + right. rewrite Hd, reverse_app. by eexists.
  - exists (Strings.of_chars s). apply chars_inj.
    rewrite chars_app, !chars_of_chars, Hp, <- Hs.
    by rewrite reverse_involutive, (right_id_L [] (++)).
Qed.

Lemma Ext_shape (fname : string) :
  Ext fname = "" \/ exists e, Ext fname = String "."%char e.
Proof.
  unfold Ext. destruct (ext_rev_shape (reverse (Strings.chars fname)) []) as [->|[e ->]].
  - by left.
  - right. by eexists.
Qed.

Lemma clean_chars_nonempty (p : list ascii) : clean_chars p <> [].
Proof.
  unfold clean_chars. destruct p as [|c p]; [done|].
  destruct (bool_decide (c = sep)); [done|].
  by destruct (join_elems _).
Qed.

Lemma Clean_nonempty (path : string) : Clean path <> "".
Proof.
  unfold Clean. intros Heq. apply (f_equal Strings.chars) in Heq.
  rewrite chars_of_chars in Heq. by apply clean_chars_nonempty in Heq.
Qed.

End PathFacts.

Section ConstructedWriter.
Import Os Logrotate.

(** The base name of a constructed writer ends in its extension, which
    is empty or starts with a dot. *)
Lemma NewLogrotateWriter_shape (tempDir arg0 : string) (o : LogrotateOption) :
  let l := NewLogrotateWriter tempDir arg0 o in
  (exists stem, basename l = stem +:+ ext l /\ prefix l = Some (stem +:+ "-"))
  /\ (ext l = "" \/ exists e, ext l = String "."%char e).
Proof.
  intros l. split; [|apply Ext_shape].
  destruct (Split_Ext (filename l)) as [stem Hstem].
  exists stem. split; [exact Hstem|].
  unfold prefix. change (basename l) with (Filepath.Split (filename l)).2.
  change (ext l) with (Filepath.Ext (filename l)). rewrite Hstem.
  pose proof (slice_middle "" stem (Filepath.Ext (filename l))) as Hs.
  change (len "") with 0 in Hs. change ("" +:+ ?x) with x in Hs.
  by rewrite Hs.
Qed.

(** X5. The writer that [NewLogrotateWriter] returns, for any options: its
    file name is not empty, its maximum size is positive, it has a backup
    layout; its extension, empty or starting with a dot, is the end of its
    base name, so the slice expression that builds the backup prefix never
    panics; and it starts with no handle and size 0. *)
Theorem NewLogrotateWriter_well_formed (tempDir arg0 : string) (o : LogrotateOption) :
  let l := NewLogrotateWriter tempDir arg0 o in
  (exists stem, basename l = stem +:+ ext l /\ prefix l = Some (stem +:+ "-"))
  /\ (ext l = "" \/ exists e, ext l = String "."%char e)
  /\ filename l <> ""
  /\ 0 < max l
  /\ (MaxSize o > 0 -> max l = MaxSize o)
  /\ BackupTimeFormat (options l) <> ""
  /\ size l = 0 /\ file l = None.
Proof.
  intros l. destruct (NewLogrotateWriter_shape tempDir arg0 o) as [Hstem Hext].
  split; [exact Hstem|]. split; [exact Hext|].
  repeat match goal with |- _ /\ _ => split end.
  - unfold l, NewLogrotateWriter. simpl. case_bool_decide; [apply Clean_nonempty|].
    unfold Filepath.Join.
    assert (Hne : Filepath.Base arg0 +:+ "-messages.log" <> "").
    { intros Heq. apply (f_equal len) in Heq. rewrite len_app in Heq.
      pose proof (len_nonneg (Filepath.Base arg0)).
      change (len "-messages.log") with 13 in Heq. change (len "") with 0 in Heq. lia. }
    rewrite filter_cons. destruct (decide (tempDir <> "")).
    + intros Heq. apply (f_equal Strings.chars) in Heq.
      rewrite chars_of_chars in Heq. by apply clean_chars_nonempty in Heq.
    + rewrite filter_cons_True by done. simpl.
      intros Heq. apply (f_equal Strings.chars) in Heq.
      rewrite chars_of_chars in Heq. by apply clean_chars_nonempty in Heq.
  - unfold l, max, NewLogrotateWriter. simpl. case_bool_decide; [by vm_compute | lia].
  - intros Hpos. unfold l, max, NewLogrotateWriter. simpl.
    by rewrite bool_decide_eq_false_2 by lia.
  - unfold l, NewLogrotateWriter. simpl. by case_bool_decide.
  - done.
  - done.
Qed.

End ConstructedWriter.

(** ** What the cleanup pass may touch *)

Section MillSafety.
Import Os Logrotate.
Variable Parse : string -> string -> option Z.

Lemma by_count_Permutation (m : Z) (preserved : gset string) (files : list logInfo) :
  (by_count m preserved files).1 ++ (by_count m preserved files).2 ≡ₚ files.
Proof.
  revert preserved. induction files as [|f rest IH]; intros preserved; simpl; [done|].
  specialize (IH ({[counted_name f]} ∪ preserved)).
  destruct (by_count m ({[counted_name f]} ∪ preserved) rest) as [rm keep].
  simpl in IH. case_bool_decide; simpl.
  - by rewrite IH.
  - by rewrite <- Permutation_middle, IH.
Qed.

(** [mill] splits the backups: what it removes and what is left to
    compress are taken from the files, without repetition. *)
Lemma mill_plan_split (o : LogrotateOption) (now : Z) (files : list logInfo) :
  exists kept,
    (mill_plan o now files).1 ++ kept ≡ₚ files
    /\ (forall f, f ∈ (mill_plan o now files).2 ->
          f ∈ kept /\ HasSuffix (name f) compressSuffix = false /\ Compress o = true)
    /\ (NoDup kept -> NoDup (mill_plan o now files).2).
Proof.
  unfold mill_plan.
  set (r1 := if bool_decide (MaxBackups o > 0 /\ MaxBackups o < Z.of_nat (length files))
             then by_count (MaxBackups o) ∅ files else ([], files)).
  assert (H1 : r1.1 ++ r1.2 ≡ₚ files).
  { unfold r1. case_bool_decide; [apply by_count_Permutation | done]. }
  destruct r1 as [remove1 files1]. simpl in H1.
  set (r2 := if bool_decide (MaxAge o > 0)
             then (filter (fun f => Time.Before (t f) (Time.Add now (- MaxAge o)) = true) files1,
                   filter (fun f => Time.Before (t f) (Time.Add now (- MaxAge o)) <> true) files1)
             else ([], files1)).
  assert (H2 : r2.1 ++ r2.2 ≡ₚ files1).
  { unfold r2. case_bool_decide; [apply filter_app_complement | done]. }
  destruct r2 as [remove2 files2]. simpl in H2. simpl.
  exists files2. split; [by rewrite <- (assoc_L _), H2|]. split.
  - intros f Hf. destruct (Compress o); [|by apply elem_of_nil in Hf].
    apply list_elem_of_filter in Hf as [Hs Hf]. split; [done|]. split; [|done].
    by destruct (HasSuffix (name f) compressSuffix).
  - intros Hnd. destruct (Compress o); [by apply NoDup_filter | constructor].
Qed.

Lemma scan_names_sublist (l : LogrotateWriter) (pre : string) (entries : list DirEntry)
    (fs : list logInfo) :
  scan Parse l pre entries = Some fs -> (name <$> fs) `sublist_of` (Name <$> entries).
Proof.
  revert fs. induction entries as [|e rest IH]; intros fs; simpl.
  - by intros [= <-].
  - destruct (IsRegular e); simpl; [|intros Hfs; by apply sublist_cons, IH].
    destruct (timeFromName Parse l (Name e) pre (ext l)) as [u| |].
    + destruct (scan Parse l pre rest) as [fs'|]; [|done]. simpl.
      intros [= <-]. simpl. by apply sublist_skip, IH.
    + destruct (timeFromName Parse l (Name e) pre (ext l +:+ compressSuffix)) as [u| |].
      * destruct (scan Parse l pre rest) as [fs'|]; [|done]. simpl.
        intros [= <-]. simpl. by apply sublist_skip, IH.
      * intros Hfs. by apply sublist_cons, IH.
      * done.
    + done.
Qed.

Lemma is_prefix_cancel (a b c : list ascii) :
  Strings.is_prefix (a ++ b) (a ++ c) = Strings.is_prefix b c.
Proof. induction a as [|x a IH]; simpl; [done|]. by rewrite bool_decide_eq_true_2. Qed.

(** Whatever [mill] picks was collected by the loop of [oldLogFiles]. *)
Lemma mill_picks_scanned (l : LogrotateWriter) (now : Z) (entries : list DirEntry)
    (remove compress : list logInfo) (f : logInfo) :
  mill Parse l now entries = Some (remove, compress) ->
  f ∈ remove ++ compress ->
  exists pre fs, prefix l = Some pre /\ scan Parse l pre entries = Some fs /\ f ∈ fs.
Proof.
  unfold mill. case_bool_decide.
  { intros [= <- <-] Hf. by apply elem_of_nil in Hf. }
  unfold oldLogFiles. destruct (prefix l) as [pre|]; [|done]. simpl.
  destruct (scan Parse l pre entries) as [fs|] eqn:Hscan; [|done]. simpl.
  intros [= Hplan] Hf. exists pre, fs. split; [done|]. split; [done|].
  destruct (mill_plan_split (options l) now (merge_sort newer_first fs))
    as (kept & Hperm & Hcomp & _).
  rewrite Hplan in Hperm, Hcomp. simpl in Hperm, Hcomp.
  rewrite <- (merge_sort_Permutation newer_first fs), <- Hperm.
  apply elem_of_app in Hf as [Hf|Hf]; [set_solver|].
  destruct (Hcomp f Hf) as [Hk _]. set_solver.
Qed.

(** X6. The cleanup pass of a writer built by [NewLogrotateWriter] removes
    and compresses nothing but regular files of the log directory whose
    names start with the backup prefix; the active log file is never among
    them. *)
Theorem mill_spares_the_active_file
    (tempDir arg0 : string) (o : LogrotateOption) (now : Z)
    (entries : list DirEntry) (remove compress : list logInfo) :
  let l := NewLogrotateWriter tempDir arg0 o in
  mill Parse l now entries = Some (remove, compress) ->
  exists pre,
    prefix l = Some pre
    /\ HasPrefix (basename l) pre = false
    /\ forall f, f ∈ remove ++ compress ->
         name f <> basename l
         /\ HasPrefix (name f) pre = true
         /\ {| Name := name f; IsRegular := true |} ∈ entries.
Proof.
  intros l Hmill.
  destruct (NewLogrotateWriter_shape tempDir arg0 o)
    as ((stem & Hbase & Hpre) & Hext). fold l in Hbase, Hpre, Hext.
  exists (stem +:+ "-").
  assert (Hactive : HasPrefix (basename l) (stem +:+ "-") = false).
  { rewrite Hbase. unfold HasPrefix. rewrite !chars_app, is_prefix_cancel.
    destruct Hext as [->|[e ->]]; done. }
  split; [done|]. split; [done|].
  intros f Hf.
  destruct (mill_picks_scanned l now entries remove compress f Hmill Hf)
    as (pre & fs & Hpre' & Hscan & Hin).
  rewrite Hpre in Hpre'. injection Hpre' as <-.
  destruct (scan_elem Parse l _ entries fs f Hscan Hin) as [Hentry Hstamp].
  assert (Hp : HasPrefix (name f) (stem +:+ "-") = true).
  { destruct Hstamp as [Hs|Hs]; apply timeFromName_shape in Hs as (ts & -> & _);
      apply HasPrefix_app. }
  split; [|done]. intros Heq. rewrite Heq in Hp. congruence.
Qed.

(** X7. From a directory whose entries have distinct names, no backup is
    picked twice: the files to remove and the files to compress are
    free of repetition and have nothing in common; and only files
    without the compression suffix are compressed, and only when
    [Compress] is set. *)
Theorem mill_never_compresses_what_it_removes
    (l : LogrotateWriter) (now : Z) (entries : list DirEntry)
    (remove compress : list logInfo) :
  NoDup (Name <$> entries) ->
  mill Parse l now entries = Some (remove, compress) ->
  NoDup (remove ++ compress)
  /\ (forall f, f ∈ compress ->
        HasSuffix (name f) compressSuffix = false /\ Compress (options l) = true).
Proof.
  intros Hnd. unfold mill. case_bool_decide.
  { intros [= <- <-]. split; [constructor | by intros f ?%elem_of_nil]. }
  unfold oldLogFiles. destruct (prefix l) as [pre|]; [|done]. simpl.
  destruct (scan Parse l pre entries) as [fs|] eqn:Hscan; [|done]. simpl.
  intros [= Hplan].
  assert (Hfs : NoDup (merge_sort newer_first fs)).
  { rewrite merge_sort_Permutation. apply (NoDup_fmap_1 name).
    eapply sublist_NoDup; [exact Hnd | by eapply scan_names_sublist]. }
  destruct (mill_plan_split (options l) now (merge_sort newer_first fs))
    as (kept & Hperm & Hcomp & Hndc).
  rewrite Hplan in Hperm, Hcomp, Hndc. simpl in Hperm, Hcomp, Hndc.
  rewrite <- Hperm in Hfs. apply NoDup_app in Hfs as (Hr & Hdisj & Hk).
  split.
  - apply NoDup_app. split; [done|]. split; [|by apply Hndc].
    intros f Hf Hc. apply (Hdisj f Hf). by apply Hcomp.
  - intros f Hf. by apply Hcomp.
Qed.

End MillSafety.

(** The retention scenario again: four files are touched, none of them
    the active [app.log]. *)
Lemma mill_spares_the_active_file_witness :
  exists remove compress pre,
    Logrotate.mill Time.Parse Scenario.retention_writer Scenario.instant Scenario.listing
    = Some (remove, compress)
    /\ length (remove ++ compress) = 4%nat
    /\ Logrotate.prefix Scenario.retention_writer = Some pre
    /\ forall f, f ∈ remove ++ compress ->
         Logrotate.name f <> "app.log"
         /\ HasPrefix (Logrotate.name f) pre = true
         /\ {| Logrotate.Name := Logrotate.name f; Logrotate.IsRegular := true |}
            ∈ Scenario.listing.
Proof.
  destruct (Logrotate.mill Time.Parse Scenario.retention_writer Scenario.instant
              Scenario.listing) as [[remove compress]|] eqn:Hmill;
    [|by vm_compute in Hmill].
  unfold Scenario.retention_writer in Hmill |- *.
  destruct (mill_spares_the_active_file Time.Parse "/tmp" "serv" _ _ _ _ _ Hmill)
    as (pre & Hpre & _ & Htouched).
  exists remove, compress, pre. split; [done|]. split.
  - vm_compute in Hmill. by injection Hmill as <- <-.
  - split; [exact Hpre | exact Htouched].
Defined.

(** The same scenario: the lists are free of repetition and disjoint. *)
Lemma mill_never_compresses_what_it_removes_witness :
  exists remove compress,
    Logrotate.mill Time.Parse Scenario.retention_writer Scenario.instant Scenario.listing
    = Some (remove, compress)
    /\ NoDup (remove ++ compress)
    /\ (forall f, f ∈ compress -> HasSuffix (Logrotate.name f) ".zst" = false
                                  /\ Logrotate.Compress
                                       (Logrotate.options Scenario.retention_writer) = true).
Proof.
  destruct (Logrotate.mill Time.Parse Scenario.retention_writer Scenario.instant
              Scenario.listing) as [[remove compress]|] eqn:Hmill;
    [|by vm_compute in Hmill].
  exists remove, compress. split; [done|].
  refine (mill_never_compresses_what_it_removes Time.Parse _ _ Scenario.listing _ _ _ Hmill).
  apply (bool_decide_unpack _). by vm_compute.
Defined.

(** ** The tracked size and the bytes on disk *)

Section TrackedSize.
Import Os Logrotate.
Variable Format : string -> Z -> string.

Lemma in_step_spawn_mill (l : LogrotateWriter) (w : World) :
  in_step l w -> in_step l (spawn_mill w).
Proof. done. Qed.

Lemma openNew_in_step (l : LogrotateWriter) (w : World) :
  file l = None ->
  in_step (openNew Format l w).1.2 (openNew Format l w).2.
Proof.
  intros Hf. unfold openNew.
  assert (Hcreate : forall w1 perm,
    let r := match Create w1 (filename l) perm with
      | inl e => (Some (Wrap "can't open new logfile" e), l, w1)
      | inr (h, w2) =>
          if bool_decide (FileHeader (options l) ≠ "") then
            match Write w2 (file (set_size 0 (set_file (Some h) l))) (header_bytes l) with
            | (_, Some e, w3) =>
                (Some (Wrap "can't write file header to file" e),
                 set_size 0 (set_file (Some h) l), w3)
            | (n, None, w3) =>
                (None, set_size (size (set_size 0 (set_file (Some h) l)) + n)
                         (set_size 0 (set_file (Some h) l)), w3)
            end
          else (None, set_size 0 (set_file (Some h) l), w2)
      end in in_step r.1.2 r.2).
  { intros w1 perm. unfold Create. case_bool_decide; simpl.
    { unfold in_step. by rewrite Hf. }
    destruct (names w1 !! filename l) as [i|] eqn:Hi.
    - case_bool_decide; simpl; unfold in_step; simpl;
        rewrite ?inode_insert_eq; simpl; unfold fsize; simpl;
        rewrite ?inode_insert_eq; simpl; by split.
    - case_bool_decide; simpl; unfold in_step; simpl;
        rewrite ?inode_insert_eq; simpl; unfold fsize; simpl;
        rewrite ?inode_insert_eq, ?lookup_insert_eq; simpl; by split. }
  destruct (Stat w (filename l)) as [e|fi]; [apply Hcreate|].
  destruct (backupName Format l (now w)) as [b|]; [|simpl; unfold in_step; by rewrite Hf].
  destruct (Rename w (filename l) b) as [e|w1]; [simpl; unfold in_step; by rewrite Hf|].
  apply Hcreate.
Qed.

Lemma rotate_in_step (l : LogrotateWriter) (w : World) :
  in_step (rotate Format l w).1.2 (rotate Format l w).2.
Proof.
  unfold rotate.
  assert (Hclosed : file (close l).2 = None).
  { unfold close. by destruct (file l) eqn:Hf. }
  assert (Hnone : (close l).1 = None).
  { unfold close. by destruct (file l). }
  destruct (close l) as [e l1]. simpl in *. subst e.
  pose proof (openNew_in_step l1 w Hclosed) as Hstep.
  destruct (openNew Format l1 w) as [[[e|] l2] w2]; simpl in *; [done|].
  by apply in_step_spawn_mill.
Qed.

Lemma openExistingOrNew_in_step (l : LogrotateWriter) (w : World) (writeLen : Z) :
  file l = None ->
  in_step (openExistingOrNew Format l w writeLen).1.2
          (openExistingOrNew Format l w writeLen).2.
Proof.
  intros Hf. unfold openExistingOrNew, Stat, OpenAppend.
  destruct (names w !! filename l) as [i|] eqn:Hi.
  - case_bool_decide; [apply rotate_in_step|]. by unfold in_step.
  - simpl. by apply openNew_in_step.
Qed.

(** X8. Whatever [write], [rotate] and [close] return, error or not, the
    writer and the disk agree afterwards when they agreed before: the
    handle, when there is one, is the active file, and the tracked size
    is its length, the header included. *)
Theorem write_keeps_size_in_step (l : LogrotateWriter) (w : World) (p : list byte) :
  in_step l w ->
  in_step (write Format l w p).1.2 (write Format l w p).2
  /\ in_step (rotate Format l w).1.2 (rotate Format l w).2
  /\ in_step (close l).2 w.
Proof.
  intros Hstep. split; [|split; [apply rotate_in_step|]].
  - unfold write. case_bool_decide; [done|].
    assert (Hopen : exists e1 l1 w1,
      match file l with
      | None => openExistingOrNew Format l w (Z.of_nat (length p))
      | Some _ => (None, l, w)
      end = (e1, l1, w1) /\ in_step l1 w1).
    { destruct (file l) as [h|] eqn:Hf.
      - by exists None, l, w.
      - pose proof (openExistingOrNew_in_step l w (Z.of_nat (length p)) Hf) as Ho.
        destruct (openExistingOrNew Format l w (Z.of_nat (length p))) as [[e1 l1] w1].
        by exists e1, l1, w1. }
    destruct Hopen as (e1 & l1 & w1 & -> & H1).
    destruct e1 as [e|]; [done|].
    assert (Hrot : exists e2 l2 w2,
      (if bool_decide (size l1 + Z.of_nat (length p) > max l1)
       then rotate Format l1 w1 else (None, l1, w1)) = (e2, l2, w2) /\ in_step l2 w2).
    { case_bool_decide; [|by exists None, l1, w1].
      pose proof (rotate_in_step l1 w1) as Hr.
      destruct (rotate Format l1 w1) as [[e2 l2] w2]. by exists e2, l2, w2. }
    destruct Hrot as (e2 & l2 & w2 & -> & H2).
    destruct e2 as [e|]; [done|].
    unfold in_step in H2 |- *. unfold Write.
    destruct (file l2) as [h|] eqn:Hf2; simpl; rewrite Hf2; [|done].
    destruct H2 as [Hn Hs]. split; [done|].
    rewrite inode_insert_eq. unfold fsize in *. simpl.
    rewrite length_app. lia.
  - unfold close, in_step. by destruct (file l).
Qed.


(** X10. A rotation whose backup name is already taken, as happens within
    one instant of the backup layout, replaces that file: the bytes of
    the earlier backup are afterwards reachable under no name. *)
Theorem rotate_onto_a_taken_backup_name_drops_it
    (l : LogrotateWriter) (w : World) (i j : Z) (b : string) :
  filename l <> "" ->
  names w !! filename l = Some i ->
  backupName Format l (now w) = Some b ->
  b <> filename l ->
  names w !! b = Some j ->
  (forall other, names w !! other = Some j -> other = b) ->
  j <> i -> j <> next_inode w ->
  exists l' w',
    rotate Format l w = (None, l', w')
    /\ names w' !! b = Some i
    /\ forall other, names w' !! other <> Some j.
Proof.
  intros Hname Hi Hb Hne Hj Honly Hji Hfresh.
  assert (Hb' : backupName Format (close l).2 (now w) = Some b).
  { unfold close. by destruct (file l). }
  assert (Hfn : filename (close l).2 = filename l).
  { unfold close. by destruct (file l). }
  assert (Hnone : (close l).1 = None).
  { unfold close. by destruct (file l). }
  unfold rotate. destruct (close l) as [e l1]. simpl in *. subst e.
  unfold openNew, Stat, Rename. rewrite Hfn, Hi, Hb'. simpl.
  unfold Create. rewrite bool_decide_eq_false_2 by done. simpl.
  rewrite lookup_insert_ne by done. rewrite lookup_delete_eq.
  assert (Hgone : forall other,
    <[filename l := next_inode w]> (<[b := i]> (delete (filename l) (names w))) !! other
    <> Some j).
  { intros other. destruct (decide (other = filename l)) as [->|H1].
    { rewrite lookup_insert_eq. congruence. }
    rewrite lookup_insert_ne by done.
    destruct (decide (other = b)) as [->|H2].
    { rewrite lookup_insert_eq. congruence. }
    rewrite lookup_insert_ne, lookup_delete_ne by done.
    intros Ho. by apply Honly in Ho. }
  case_bool_decide as Hh; simpl.
  - eexists _, _. split; [reflexivity|]. simpl.
    rewrite lookup_insert_ne, lookup_insert_eq by done. by split.
  - eexists _, _. split; [reflexivity|]. simpl.
    rewrite lookup_insert_ne, lookup_insert_eq by done. by split.
Qed.

End TrackedSize.

(** An open writer three bytes into its file takes four more. *)
Lemma write_keeps_size_in_step_witness :
  let l := Scenario.opened 10 "" 3 in
  let w := Scenario.disk 3 in
  Logrotate.in_step l w
  /\ Logrotate.in_step (Logrotate.write Time.Format l w (Scenario.payload 4)).1.2
       (Logrotate.write Time.Format l w (Scenario.payload 4)).2
  /\ Logrotate.size (Logrotate.write Time.Format l w (Scenario.payload 4)).1.2 = 7.
Proof.
  assert (Hstep : Logrotate.in_step (Scenario.opened 10 "" 3) (Scenario.disk 3)).
  { split; by vm_compute. }
  split; [exact Hstep|]. split.
  - exact (proj1 (write_keeps_size_in_step Time.Format _ _ (Scenario.payload 4) Hstep)).
  - by vm_compute.
Defined.


(** A second rotation on the same day, with backups named by day. *)
Lemma rotate_onto_a_taken_backup_name_drops_it_witness :
  let w := Os.with_fs (Scenario.disk 3)
             (<["/var/log/app-2024-03-05.log" := 2]> (Os.names (Scenario.disk 3)))
             (<[2 := {| Os.data := Scenario.payload 5; Os.mode := 384 |}]>
                (Os.inodes (Scenario.disk 3))) 3 in
  exists l' w',
    Logrotate.rotate Time.Format Scenario.daily_writer w = (None, l', w')
    /\ Os.names w' !! "/var/log/app-2024-03-05.log" = Some 1
    /\ forall other, Os.names w' !! other <> Some 2.
Proof.
  intros w.
  apply (rotate_onto_a_taken_backup_name_drops_it Time.Format Scenario.daily_writer w 1 2
           "/var/log/app-2024-03-05.log"); try by vm_compute.
  intros other. unfold w. simpl.
  destruct (decide (other = "/var/log/app-2024-03-05.log")) as [->|H1]; [done|].
  rewrite lookup_insert_ne by done.
  destruct (decide (other = "/var/log/app.log")) as [->|H2]; [by vm_compute|].
  unfold Scenario.disk. simpl. by rewrite lookup_singleton_ne by done.
Defined.

(** ** When the cleanup pass panics *)

Section MillPanics.
Import Os Logrotate.
Variable Parse : string -> string -> option Z.

(** A name that carries the prefix and the extension on top of each
    other makes the slice expression of [timeFromName] panic. *)
Lemma timeFromName_overlap (l : LogrotateWriter) (fname pre ex : string) :
  HasPrefix fname pre = true -> HasSuffix fname ex = true ->
  len fname < len pre + len ex ->
  timeFromName Parse l fname pre ex = SlicePanic.
Proof.
  intros Hp Hx Hlen. unfold timeFromName. rewrite Hp, Hx. simpl.
  destruct (slice_between fname pre ex Hp Hx) as [_ Hout].
  by rewrite Hout by lia.
Qed.

Lemma timeFromName_no_overlap (l : LogrotateWriter) (fname pre ex : string) :
  (HasPrefix fname pre = true -> HasSuffix fname ex = true ->
   len pre + len ex <= len fname) ->
  timeFromName Parse l fname pre ex <> SlicePanic.
Proof.
  intros Hlen. unfold timeFromName.
  destruct (HasPrefix fname pre) eqn:Hp; [|done].
  destruct (HasSuffix fname ex) eqn:Hx; [|done]. simpl.
  destruct (slice_between fname pre ex Hp Hx) as [Hin _].
  destruct (Hin ltac:(specialize (Hlen eq_refl eq_refl); lia)) as (mid & _ & ->).
  by destruct (Parse _ mid).
Qed.

(** A prefix that ends in a dash and a suffix without one do not
    overlap. *)
Lemma dash_keeps_apart (fname stem ex : string) :
  "-"%char ∉ chars ex ->
  HasPrefix fname (stem +:+ "-") = true -> HasSuffix fname ex = true ->
  len (stem +:+ "-") + len ex <= len fname.
Proof.
  intros Hdash [a Ha]%HasPrefix_spec [b Hb]%HasSuffix_spec.
  assert (Heq : chars (stem +:+ "-") ++ chars a = chars b ++ chars ex)
    by (rewrite <- !chars_app; congruence).
  assert (Hl : forall s, len s = Z.of_nat (length (chars s))).
  { intros s. unfold len. by rewrite chars_length. }
  apply app_eq_inv in Heq as [(k & Hk1 & Hk2)|(k & Hk1 & Hk2)].
  - destruct (decide (k = [])) as [->|Hk].
    + apply (f_equal length) in Hk1. rewrite length_app in Hk1. simpl in Hk1.
      rewrite Hb, (len_app b ex), (Hl (stem +:+ "-")), (Hl b). lia.
    + exfalso. apply Hdash. rewrite Hk2. apply elem_of_app. left.
      rewrite chars_app in Hk1. apply (f_equal reverse) in Hk1.
      rewrite !reverse_app in Hk1. simpl in Hk1.
      destruct (reverse k) as [|c rk] eqn:Hrk.
      { apply (f_equal reverse) in Hrk. rewrite reverse_involutive in Hrk. done. }
      change (reverse ["-"%char]) with ["-"%char] in Hk1. simpl in Hk1.
      injection Hk1 as Hc _. subst c.
      apply elem_of_reverse. rewrite Hrk. by left.
  - apply (f_equal length) in Hk1. rewrite length_app in Hk1.
    rewrite Hb, (len_app b ex), (Hl (stem +:+ "-")), (Hl b). lia.
Qed.

Lemma scan_total (l : LogrotateWriter) (pre : string) (entries : list DirEntry) :
  (forall e, e ∈ entries ->
     timeFromName Parse l (Name e) pre (ext l) <> SlicePanic
     /\ timeFromName Parse l (Name e) pre (ext l +:+ compressSuffix) <> SlicePanic) ->
  exists fs, scan Parse l pre entries = Some fs.
Proof.
  induction entries as [|e rest IH]; intros Hok; simpl; [by eexists|].
  destruct IH as [fs Hfs]; [intros e' He'; apply Hok; by right|].
  destruct (Hok e ltac:(by left)) as [H1 H2]. rewrite Hfs.
  destruct (IsRegular e); simpl; [|by eexists].
  destruct (timeFromName Parse l (Name e) pre (ext l)); [by eexists| |done].
  destruct (timeFromName Parse l (Name e) pre (ext l +:+ compressSuffix));
    [by eexists|by eexists|done].
Qed.

Lemma scan_panics (l : LogrotateWriter) (pre : string) (entries : list DirEntry)
    (e : DirEntry) :
  e ∈ entries -> IsRegular e = true ->
  timeFromName Parse l (Name e) pre (ext l) = SlicePanic ->
  scan Parse l pre entries = None.
Proof.
  intros He Hreg Hpanic. induction entries as [|e' rest IH]; [by apply elem_of_nil in He|].
  apply elem_of_cons in He as [<-|He].
  - simpl. by rewrite Hreg, Hpanic.
  - simpl. rewrite (IH He).
    destruct (IsRegular e'); simpl; [|done].
    destruct (timeFromName Parse l (Name e') pre (ext l)); [done| |done].
    by destruct (timeFromName Parse l (Name e') pre (ext l +:+ compressSuffix)).
Qed.

(** X11. The cleanup pass of a writer built by [NewLogrotateWriter] whose
    extension holds no dash never panics, whatever the log directory
    holds: it always comes to its two lists. *)
Theorem mill_never_panics_without_a_dash_in_the_extension
    (tempDir arg0 : string) (o : LogrotateOption) (now : Z)
    (entries : list DirEntry) :
  let l := NewLogrotateWriter tempDir arg0 o in
  "-"%char ∉ chars (ext l) ->
  exists remove compress, mill Parse l now entries = Some (remove, compress).
Proof.
  intros l Hdash.
  destruct (NewLogrotateWriter_shape tempDir arg0 o) as ((stem & _ & Hpre) & _).
  fold l in Hpre. unfold mill. case_bool_decide; [by eexists _, _|].
  unfold oldLogFiles. rewrite Hpre. simpl.
  destruct (scan_total l (stem +:+ "-") entries) as [fs ->].
  { intros e _. split; apply timeFromName_no_overlap; apply dash_keeps_apart; [done|].
    rewrite chars_app. intros [H1|H1]%elem_of_app; [done|].
    vm_compute in H1. by repeat (apply elem_of_cons in H1 as [H1|H1]; [done|]);
      apply elem_of_nil in H1. }
  simpl. eexists _, _. f_equal. apply surjective_pairing.
Qed.

(** X12. With the cleanup enabled, one regular file of the log directory
    whose name carries the backup prefix and the extension on top of
    each other makes the pass panic, in its own goroutine. *)
Theorem mill_panics_on_an_overlapping_name
    (l : LogrotateWriter) (now : Z) (entries : list DirEntry) (pre : string)
    (e : DirEntry) :
  (MaxBackups (options l) <> 0 \/ MaxAge (options l) <> 0 \/ Compress (options l) = true) ->
  prefix l = Some pre ->
  e ∈ entries -> IsRegular e = true ->
  HasPrefix (Name e) pre = true -> HasSuffix (Name e) (ext l) = true ->
  len (Name e) < len pre + len (ext l) ->
  mill Parse l now entries = None.
Proof.
  intros Hon Hpre He Hreg Hp Hx Hlen. unfold mill.
  rewrite bool_decide_eq_false_2.
  2:{ intros (H1 & H2 & H3). destruct Hon as [?|[?|H4]]; [done|done|].
      rewrite H3 in H4. done. }
  unfold oldLogFiles. rewrite Hpre. simpl.
  rewrite (scan_panics l pre entries e He Hreg); [done|].
  by apply timeFromName_overlap.
Qed.

End MillPanics.

(** The writers of the scenarios log to [app.log]. *)
Lemma mill_never_panics_without_a_dash_in_the_extension_witness :
  exists remove compress,
    Logrotate.mill Time.Parse Scenario.retention_writer Scenario.instant Scenario.listing
    = Some (remove, compress).
Proof.
  unfold Scenario.retention_writer.
  apply (mill_never_panics_without_a_dash_in_the_extension Time.Parse "/tmp" "serv").
  apply (bool_decide_unpack _). by vm_compute.
Defined.

(** The log file [a.b.b-c] has the extension [.b-c] and the backup
    prefix [a.b-]; the file [a.b-c] beside it carries both. *)
Lemma mill_panics_on_an_overlapping_name_witness :
  Logrotate.mill Time.Parse
    (Logrotate.NewLogrotateWriter "/tmp" "serv"
       {| Logrotate.Filename := "/var/log/a.b.b-c"; Logrotate.MaxSize := 0;
          Logrotate.MaxBackups := 1; Logrotate.MaxAge := 0;
          Logrotate.BackupTimeFormat := ""; Logrotate.FileHeader := "";
          Logrotate.Compress := false |})
    Scenario.instant
    [ {| Logrotate.Name := "a.b.b-c"; Logrotate.IsRegular := true |};
      {| Logrotate.Name := "a.b-c"; Logrotate.IsRegular := true |} ] = None.
Proof.
  apply (mill_panics_on_an_overlapping_name Time.Parse _ _ _ "a.b-"
           {| Logrotate.Name := "a.b-c"; Logrotate.IsRegular := true |});
    try by vm_compute.
  - left. by vm_compute.
  - set_solver.
Defined.

(** ** The generations of the supervisor *)

Section Generations.
Import Supervisor.

Lemma cancel_lookup_ne (c c' : Z) (why : cause) (m : gmap Z cause) :
  c' <> c -> cancel c why m !! c' = m !! c'.
Proof.
  intros Hne. unfold cancel. destruct (m !! c); [done|]. by rewrite lookup_insert_ne.
Qed.

Lemma cancel_lookup_kept (c c' : Z) (why why' : cause) (m : gmap Z cause) :
  m !! c' = Some why' -> cancel c why m !! c' = Some why'.
Proof.
  intros Hc. unfold cancel. destruct (m !! c) eqn:Hm; [done|].
  rewrite lookup_insert_ne; [done|]. intros ->. congruence.
Qed.

Lemma superseded_init (hash0 : list byte) : superseded (init hash0).
Proof.
  unfold superseded, init, appCtx. simpl. split; [done|]. split; [lia|].
  apply NoDup_singleton.
Qed.

Lemma superseded_step (st st' : state) (ev : event) :
  invariant st -> superseded st -> step st ev = Some (Continue st') -> superseded st'.
Proof.
  intros Hinv (Hnext & Hold & Hnd) Hstep.
  pose proof (invariant_live st Hinv) as Hlive.
  destruct Hinv as (Hcur & _ & _ & Hq).
  destruct ev as [sig| |b]; simpl in Hstep; [done| |].
  - unfold on_srv in Hstep. destruct (srv st) as [|c rest] eqn:Hsrv; [done|].
    simpl in Hstep. injection Hstep as <-. unfold superseded. simpl.
    split; [done|]. split; [done|].
    simpl in Hnd. eapply NoDup_Permutation_proper; [|exact Hnd].
    rewrite (assoc_L _). by rewrite <- Permutation_cons_append, Permutation_middle.
  - injection Hstep as Hstep. unfold on_changed in Hstep.
    case_bool_decide; [by injection Hstep as <-|].
    unfold send_srv in Hstep. case_bool_decide; [|done]. injection Hstep as <-.
    unfold superseded. simpl. split; [done|]. split.
    + intros c Hc. destruct (decide (c = cur st)) as [->|Hne].
      * by apply cancel_lookup_fresh.
      * rewrite cancel_lookup_ne by done. apply Hold. lia.
    + rewrite <- (assoc_L _). apply NoDup_app. apply NoDup_app in Hnd as (H1 & H2 & H3).
      split; [done|]. split.
      * intros c Hc [->|Hr]%elem_of_cons.
        -- assert (appCtx < next_ctx st <= cur st) by (apply Hq; set_solver). lia.
        -- by apply (H2 c).
      * apply NoDup_cons. split; [|done].
        intros Hr. assert (appCtx < next_ctx st <= cur st) by (apply Hq; set_solver). lia.
Qed.

Lemma reachable_superseded (st : state) : reachable st -> superseded st.
Proof.
  induction 1 as [hash0|st st' ev Hreach IH Hstep]; [apply superseded_init|].
  eapply superseded_step; [by apply reachable_invariant|exact IH|exact Hstep].
Qed.

(** X13. Wherever the loop stands, at most one generation is live: the
    context of the current generation is not cancelled, every other
    context that was queued or started has been cancelled with
    [ErrConfigChanged], no context is queued or started twice, and [srv]
    holds at most the one context it has room for. *)
Theorem only_the_current_generation_is_live (st : state) :
  reachable st ->
  cancelled st !! cur st = None
  /\ (forall c, c ∈ srv st ++ running st -> c <> cur st ->
        cancelled st !! c = Some ErrConfigChanged)
  /\ NoDup (srv st ++ running st)
  /\ (length (srv st) <= srv_cap)%nat.
Proof.
  intros Hreach.
  pose proof (reachable_invariant st Hreach) as Hinv.
  destruct (reachable_superseded st Hreach) as (_ & Hold & Hnd).
  split; [by apply invariant_live|]. split; [|split; [done|]].
  - intros c Hc Hne. destruct Hinv as (_ & _ & _ & Hq).
    apply Hold. specialize (Hq c Hc). lia.
  - clear Hinv Hold Hnd.
    induction Hreach as [hash0|st st' ev Hreach IH Hstep]; [done|].
    destruct ev as [sig| |b]; simpl in Hstep; [done| |].
    + unfold on_srv in Hstep. destruct (srv st) as [|c rest] eqn:Hsrv; [done|].
      simpl in Hstep. injection Hstep as <-. simpl in *. lia.
    + injection Hstep as Hstep. unfold on_changed in Hstep.
      case_bool_decide; [by injection Hstep as <-|].
      unfold send_srv in Hstep. case_bool_decide as Hroom; [|done].
      injection Hstep as <-. simpl. rewrite length_app. simpl.
      unfold srv_cap in *. simpl in Hroom. lia.
Qed.

Lemma terminate_lookup (cs : list Z) (sig : string) (m : gmap Z cause) (c : Z) :
  foldr (fun c m => cancel c (ErrTerminated sig) m) m cs !! c
  = match m !! c with
    | Some why => Some why
    | None => if bool_decide (c ∈ cs) then Some (ErrTerminated sig) else None
    end.
Proof.
  induction cs as [|c' cs IH]; simpl.
  - by destruct (m !! c).
  - destruct (decide (c = c')) as [->|Hne].
    + unfold cancel at 1. rewrite IH.
      destruct (m !! c') as [why|] eqn:Hm.
      * exact IH.
      * rewrite (bool_decide_eq_true_2 (c' ∈ c' :: cs)) by (by left).
        destruct (bool_decide (c' ∈ cs)) eqn:Hin; [exact IH | by rewrite lookup_insert_eq].
    + rewrite cancel_lookup_ne by done. rewrite IH.
      destruct (m !! c); [done|].
      case_bool_decide as Hin.
      * rewrite bool_decide_eq_true_2; [done | by right].
      * rewrite bool_decide_eq_false_2; [done|]. by intros [?|?]%elem_of_cons.
Qed.

(** X14. On a termination signal [appExit] reaches the root and the current
    generation, which are cancelled with [ErrTerminated]; the generations
    that a configuration change had already cancelled keep
    [ErrConfigChanged] as their cause. *)
Theorem terminate_reaches_only_the_current_generation (st : state) (sig : string) :
  reachable st ->
  let st' := on_terminate st sig in
  step st (EvTerminate sig) = Some (Exited st')
  /\ cancelled st' !! appCtx = Some (ErrTerminated sig)
  /\ cancelled st' !! cur st = Some (ErrTerminated sig)
  /\ (forall c, c ∈ srv st ++ running st -> c <> cur st ->
        cancelled st' !! c = Some ErrConfigChanged)
  /\ running st' = running st.
Proof.
  intros Hreach st'.
  pose proof (reachable_invariant st Hreach) as Hinv.
  pose proof (invariant_live st Hinv) as Hlive.
  destruct (reachable_superseded st Hreach) as (_ & Hold & _).
  destruct Hinv as (Hcur & Hpar & Hcan & Hq).
  split; [done|]. unfold st', on_terminate. cbn [cancelled running].
  repeat match goal with |- _ /\ _ => split end; [| | |done].
  - rewrite terminate_lookup.
    destruct (cancelled st !! appCtx) as [why|] eqn:Hroot.
    { apply Hcan in Hroot. lia. }
    rewrite bool_decide_eq_true_2; [done | by left].
  - rewrite terminate_lookup, Hlive.
    rewrite bool_decide_eq_true_2; [done|]. right.
    apply elem_of_elements, elem_of_dom. by eexists.
  - intros c Hc Hne. rewrite terminate_lookup.
    rewrite Hold; [done|]. specialize (Hq c Hc). lia.
Qed.

End Generations.

Lemma passes_reachable (st st' : Supervisor.state) (evs : list Supervisor.event) :
  Supervisor.reachable st -> Scenario.passes st evs = Some st' -> Supervisor.reachable st'.
Proof.
  revert st. induction evs as [|ev rest IH]; intros st Hreach; simpl.
  - by intros [= <-].
  - destruct (Supervisor.step st ev) as [[st1| |]|] eqn:Hstep; try done.
    apply IH. by eapply Supervisor.reachable_step.
Qed.

(** After two changes of the configuration generation 3 is waiting on
    [srv], generations 1 and 2 were started and are cancelled. *)
Lemma only_the_current_generation_is_live_witness :
  exists st,
    Scenario.passes (Supervisor.init [x00]) Scenario.two_changes = Some st
    /\ Supervisor.cur st = 3
    /\ Supervisor.srv st ++ Supervisor.running st = [3; 1; 2]
    /\ Supervisor.cancelled st !! Supervisor.cur st = None
    /\ (forall c, c ∈ Supervisor.srv st ++ Supervisor.running st -> c <> Supervisor.cur st ->
          Supervisor.cancelled st !! c = Some Supervisor.ErrConfigChanged).
Proof.
  destruct (Scenario.passes (Supervisor.init [x00]) Scenario.two_changes) as [st|] eqn:Hp;
    [|by vm_compute in Hp].
  exists st. split; [done|].
  destruct (only_the_current_generation_is_live st) as (Hlive & Hold & _).
  { eapply passes_reachable; [constructor | exact Hp]. }
  vm_compute in Hp. injection Hp as <-. by repeat split.
Defined.

(** The same run, then SIGTERM. *)
Lemma terminate_reaches_only_the_current_generation_witness :
  exists st,
    Scenario.passes (Supervisor.init [x00]) Scenario.two_changes = Some st
    /\ let st' := Supervisor.on_terminate st "terminated" in
       Supervisor.cancelled st' !! Supervisor.cur st
       = Some (Supervisor.ErrTerminated "terminated")
       /\ (forall c, c ∈ Supervisor.srv st ++ Supervisor.running st ->
             c <> Supervisor.cur st ->
             Supervisor.cancelled st' !! c = Some Supervisor.ErrConfigChanged).
Proof.
  destruct (Scenario.passes (Supervisor.init [x00]) Scenario.two_changes) as [st|] eqn:Hp;
    [|by vm_compute in Hp].
  exists st. split; [done|].
  destruct (terminate_reaches_only_the_current_generation st "terminated")
    as (_ & _ & Hcur & Hold & _).
  { eapply passes_reachable; [constructor | exact Hp]. }
  by split.
Defined.

(** ** The loop of [Watch] over one buffer *)

Section WatchBuffer.
Import Inotify.

Lemma u8_bounds (b : byte) : 0 <= u8 b < 256.
Proof. unfold u8. pose proof (Byte.to_N_bounded b). lia. Qed.

Lemma u8_byte_of (z : Z) : u8 (byte_of z) = z mod 256.
Proof.
  unfold u8, byte_of. pose proof (Z.mod_pos_bound z 256 ltac:(lia)) as Hb.
  destruct (Byte.of_N (Z.to_N (z mod 256))) as [b|] eqn:Hof.
  - apply Byte.to_of_N in Hof. simpl. rewrite Hof. lia.
  - apply Byte.of_N_None_iff in Hof. lia.
Qed.

Lemma uint32_at_bounds (buf : list byte) (off : nat) (x : Z) :
  uint32_at buf off = Some x -> 0 <= x < 2 ^ 32.
Proof.
  unfold uint32_at. intros Hx.
  destruct (buf !! off) as [b0|]; [|done].
  destruct (buf !! (off + 1)%nat) as [b1|]; [|done].
  destruct (buf !! (off + 2)%nat) as [b2|]; [|done].
  destruct (buf !! (off + 3)%nat) as [b3|]; [|done].
  simpl in Hx. injection Hx as <-.
  pose proof (u8_bounds b0). pose proof (u8_bounds b1).
  pose proof (u8_bounds b2). pose proof (u8_bounds b3). lia.
Qed.

Lemma lookup_shift (pre buf : list byte) (k : nat) :
  (pre ++ buf) !! (length pre + k)%nat = buf !! k.
Proof. rewrite lookup_app_r by lia. f_equal. lia. Qed.

Lemma uint32_at_shift (pre buf : list byte) (off : nat) :
  uint32_at (pre ++ buf) (length pre + off) = uint32_at buf off.
Proof.
  unfold uint32_at.
  by rewrite <- !Nat.add_assoc, !lookup_shift.
Qed.

Lemma le32_value (x : Z) :
  0 <= x < 2 ^ 32 ->
  x mod 256 + 256 * ((x / 256) mod 256 + 256 * ((x / 65536) mod 256
                      + 256 * ((x / 16777216) mod 256))) = x.
Proof.
  intros Hx.
  replace (x / 65536) with (x / 256 / 256) by (by rewrite Z.div_div by lia).
  replace (x / 16777216) with (x / 256 / 256 / 256) by (by rewrite !Z.div_div by lia).
  pose proof (Z.div_mod x 256 ltac:(lia)).
  pose proof (Z.div_mod (x / 256) 256 ltac:(lia)).
  pose proof (Z.div_mod (x / 256 / 256) 256 ltac:(lia)).
  assert (x / 256 / 256 / 256 < 256).
  { repeat (apply Z.div_lt_upper_bound; [lia|]). lia. }
  assert (0 <= x / 256 / 256 / 256) by (repeat apply Z.div_pos; lia).
  rewrite (Z.mod_small (x / 256 / 256 / 256)) by lia. lia.
Qed.

Lemma int32_wrap (x : Z) : - 2 ^ 31 <= x < 2 ^ 31 -> int32 (x mod 2 ^ 32) = x.
Proof.
  intros Hx. unfold int32. destruct (decide (0 <= x)) as [Hp|Hn].
  - rewrite Z.mod_small by lia. by rewrite bool_decide_eq_true_2 by lia.
  - replace (x mod 2 ^ 32) with (x + 2 ^ 32).
    + rewrite bool_decide_eq_false_2 by lia. lia.
    + apply (Z.mod_unique _ _ (-1)); lia.
Qed.

Lemma event_at_shift (pre buf : list byte) (off : nat) :
  event_at (pre ++ buf) (length pre + off) = event_at buf off.
Proof.
  unfold event_at. by rewrite <- !Nat.add_assoc, !uint32_at_shift.
Qed.

Lemma name_bytes_shift (pre buf : list byte) (start i count : nat) :
  name_bytes (pre ++ buf) (length pre + start) i count = name_bytes buf start i count.
Proof.
  revert i. induction count as [|count IH]; intros i; simpl; [done|].
  rewrite <- Nat.add_assoc, lookup_shift.
  by rewrite IH.
Qed.

Lemma Watch_buffer_shift (fuel : nat) (pre buf : list byte) (n : Z) (off : nat)
    (w : watches) (sent : list InotifyEvent) :
  Watch_buffer fuel (pre ++ buf) (Z.of_nat (length pre) + n) (length pre + off) w sent
  = Watch_buffer fuel buf n off w sent.
Proof.
  revert off w sent. induction fuel as [|fuel IH]; intros off w sent.
  - simpl. repeat case_bool_decide; try done; lia.
  - cbn [Watch_buffer]. rewrite event_at_shift.
    case_bool_decide as Hg.
    2:{ by rewrite bool_decide_eq_false_2 by lia. }
    rewrite bool_decide_eq_true_2 by lia.
    destruct (event_at buf off) as [e|]; [|done].
    rewrite <- !Nat.add_assoc. case_bool_decide; [apply IH|].
    rewrite name_bytes_shift.
    destruct (if bool_decide (Syscall.Len e > 0)
              then name_bytes buf (off + Z.to_nat SizeofInotifyEvent) 0
                     (Z.to_nat (Syscall.Len e))
              else Some []) as [s|]; [|done].
    destruct (dispatch w e s) as [w1 ev]. apply IH.
Qed.

Lemma event_at_kernel_record (r : kernel_event) (rest : list byte) :
  kernel_event_ok r -> event_at (kernel_record r ++ rest) 0 = Some (header r).
Proof.
  intros (Hwd & Hmask & Hcookie & _ & Hlen).
  unfold event_at, kernel_record, uint32_at, le32, PathMax in *. simpl.
  rewrite !u8_byte_of.
  rewrite !le32_value by (try apply Z.mod_pos_bound; lia).
  unfold header. by rewrite int32_wrap.
Qed.

Lemma name_bytes_kernel (seen nm rest : list byte) (pad : nat) :
  x00 ∉ nm -> Z.of_nat (length seen + length nm + pad) <= PathMax ->
  name_bytes (seen ++ nm ++ replicate pad x00 ++ rest) 0 (length seen) (length nm + pad)
  = Some nm.
Proof.
  revert seen. induction nm as [|b nm IH]; intros seen Hnul Hlen.
  - cbn [length Nat.add app]. destruct pad as [|pad]; [done|].
    cbn [name_bytes replicate app].
    rewrite bool_decide_eq_false_2 by (unfold PathMax in *; simpl in *; lia).
    rewrite list_lookup_middle by done.
    by rewrite bool_decide_eq_true_2.
  - cbn [length Nat.add app name_bytes].
    rewrite bool_decide_eq_false_2 by (unfold PathMax in *; simpl in *; lia).
    rewrite list_lookup_middle by done.
    rewrite bool_decide_eq_false_2 by (intros ->; apply Hnul; by left).
    specialize (IH (seen ++ [b])). rewrite length_app in IH. simpl in IH.
    rewrite Nat.add_1_r in IH. rewrite <- (assoc_L (++)) in IH. simpl in IH.
    rewrite IH; [done| |].
    + intros Hin. apply Hnul. by right.
    + simpl in Hlen. lia.
Qed.

(** X15. The loop reads a record as the kernel wrote it, name and all, and
    goes on with the bytes behind it as with a buffer of their own: a
    record with [IN_IGNORED] is passed over, any other is dispatched
    once, with the name up to its NUL padding. *)
Theorem Watch_buffer_reads_the_kernel_records
    (fuel : nat) (r : kernel_event) (rest : list byte) (w : watches)
    (sent : list InotifyEvent) :
  kernel_event_ok r ->
  let buf := kernel_record r ++ rest in
  Watch_buffer (S fuel) buf (Z.of_nat (length buf)) 0 w sent
  = if bool_decide (Z.land (mask r) IN_IGNORED = IN_IGNORED)
    then Watch_buffer fuel rest (Z.of_nat (length rest)) 0 w sent
    else Watch_buffer fuel rest (Z.of_nat (length rest)) 0
           (dispatch w (header r) (name r)).1
           (sent ++ option_list (dispatch w (header r) (name r)).2).
Proof.
  intros Hok buf.
  pose proof Hok as (Hwd & Hmask & Hcookie & Hnul & Hlen).
  assert (Hrec : length (kernel_record r) = (16 + (length (name r) + padding r))%nat).
  { unfold kernel_record. rewrite !length_app, length_replicate. simpl. lia. }
  assert (Hnext : (0 + Z.to_nat ((SizeofInotifyEvent
                     + Z.of_nat (length (name r) + padding r)) mod 2 ^ 32))%nat
                  = (length (kernel_record r) + 0)%nat).
  { unfold SizeofInotifyEvent, PathMax in *. rewrite Z.mod_small by lia. lia. }
  assert (Hn : Z.of_nat (length buf) = Z.of_nat (length (kernel_record r))
                                       + Z.of_nat (length rest)).
  { unfold buf. rewrite length_app. lia. }
  cbn [Watch_buffer]. rewrite bool_decide_eq_true_2 by (unfold SizeofInotifyEvent; lia).
  unfold buf at 1. rewrite (event_at_kernel_record r rest Hok).
  cbn [header Syscall.Len Syscall.Mask]. rewrite Hnext, Hn.
  unfold buf. rewrite !Watch_buffer_shift.
  case_bool_decide as Hign; [done|].
  assert (Hname : (if bool_decide (Z.of_nat (length (name r) + padding r) > 0)
                   then name_bytes (kernel_record r ++ rest)
                          (0 + Z.to_nat SizeofInotifyEvent) 0
                          (Z.to_nat (Z.of_nat (length (name r) + padding r)))
                   else Some []) = Some (name r)).
  { case_bool_decide as Hpos.
    - rewrite Nat2Z.id.
      assert (Hsplit : exists hdr, length hdr = 16%nat
                /\ kernel_record r ++ rest
                   = hdr ++ name r ++ replicate (padding r) x00 ++ rest).
      { eexists (le32 _ ++ le32 _ ++ le32 _ ++ le32 _). split; [reflexivity|].
        unfold kernel_record. by rewrite <- !(assoc_L (++)). }
      destruct Hsplit as (hdr & Hhdr & ->).
      change (0 + Z.to_nat SizeofInotifyEvent)%nat with (16 + 0)%nat.
      rewrite <- Hhdr, name_bytes_shift.
      apply (name_bytes_kernel [] (name r) rest (padding r) Hnul). simpl. lia.
    - destruct (name r); [done | simpl in Hpos; lia]. }
  rewrite Hname. unfold header. destruct (dispatch _ _ _). apply Watch_buffer_shift.
Qed.

(** X16. The loop over one buffer comes to an end, by running out of bytes or
    by a fault, whenever no length field in the buffer is [0xFFFFFFF0],
    the one value that the 32-bit sum with the record size turns into
    an advance of 0. *)
Theorem Watch_buffer_comes_to_an_end
    (fuel : nat) (buf : list byte) (n : Z) (offset : nat) (w : watches)
    (sent : list InotifyEvent) :
  Forall (fun off => uint32_at buf (off + 12) <> Some 0xFFFFFFF0) (seq 0 (length buf)) ->
  n - Z.of_nat offset < Z.of_nat fuel ->
  (Watch_buffer fuel buf n offset w sent).1.1 <> Running.
Proof.
  intros Hlen. revert offset w sent.
  induction fuel as [|fuel IH]; intros offset w sent Hfuel.
  - simpl. rewrite bool_decide_eq_false_2; [done|]. unfold SizeofInotifyEvent. lia.
  - cbn [Watch_buffer]. case_bool_decide as Hg; [|done].
    destruct (event_at buf offset) as [e|] eqn:He; [|done].
    assert (Hadv : (offset < offset + Z.to_nat ((SizeofInotifyEvent + Syscall.Len e)
                                                mod 2 ^ 32))%nat).
    { unfold event_at in He.
      destruct (uint32_at buf offset); [|done].
      destruct (uint32_at buf (offset + 4)); [|done].
      destruct (uint32_at buf (offset + 8)); [|done].
      destruct (uint32_at buf (offset + 12)) as [x|] eqn:Hx; [|done].
      simpl in He. injection He as <-. simpl.
      pose proof (uint32_at_bounds _ _ _ Hx) as Hb.
      assert (x <> 0xFFFFFFF0).
      { rewrite Forall_forall in Hlen. intros ->. apply (Hlen offset); [|done].
        apply elem_of_seq. split; [lia|]. simpl.
        unfold uint32_at in Hx. destruct (buf !! (offset + 12)%nat) eqn:Hl; [|done].
        apply lookup_lt_Some in Hl. lia. }
      unfold SizeofInotifyEvent.
      destruct (decide (x < 2 ^ 32 - 16)).
      - rewrite Z.mod_small by lia. lia.
      - replace ((16 + x) mod 2 ^ 32) with (16 + x - 2 ^ 32); [lia|].
        apply (Z.mod_unique _ _ 1); lia. }
    case_bool_decide; [apply IH; lia|].
    destruct (if bool_decide (Syscall.Len e > 0)
              then name_bytes buf (offset + Z.to_nat SizeofInotifyEvent) 0
                     (Z.to_nat (Syscall.Len e))
              else Some []) as [s|]; [|done].
    destruct (dispatch w e s) as [w1 ev]. apply IH. lia.
Qed.

(** X17. On a record with [IN_IGNORED] and the length field [0xFFFFFFF0] the
    loop stays where it is: whatever the fuel, it is still running. *)
Theorem Watch_buffer_spins_on_a_wrapping_length
    (fuel : nat) (buf : list byte) (n : Z) (offset : nat) (w : watches)
    (sent : list InotifyEvent) (e : Syscall.InotifyEvent) :
  Z.of_nat offset <= n - SizeofInotifyEvent ->
  event_at buf offset = Some e ->
  Syscall.Len e = 0xFFFFFFF0 ->
  Z.land (Syscall.Mask e) IN_IGNORED = IN_IGNORED ->
  Watch_buffer fuel buf n offset w sent = (Running, w, sent).
Proof.
  intros Hn He Hlen Hign. induction fuel as [|fuel IH].
  - simpl. by rewrite bool_decide_eq_true_2.
  - cbn [Watch_buffer]. rewrite bool_decide_eq_true_2 by done.
    rewrite He, bool_decide_eq_true_2 by done.
    rewrite Hlen. change ((SizeofInotifyEvent + 0xFFFFFFF0) mod 2 ^ 32) with 0.
    change (Z.to_nat 0) with 0%nat. by rewrite Nat.add_0_r.
Qed.

End WatchBuffer.

Lemma kernel_events_ok :
  Inotify.kernel_event_ok Scenario.ignored_event
  /\ Inotify.kernel_event_ok Scenario.create_event.
Proof.
  split; (repeat split; [by vm_compute..| |by vm_compute]);
    apply (bool_decide_unpack _); by vm_compute.
Qed.

(** The record with [IN_IGNORED] is passed over, the creation of
    [config.json] under descriptor 1 is sent on. *)
Lemma Watch_buffer_reads_the_kernel_records_witness :
  let rest := Inotify.kernel_record Scenario.create_event in
  let buf := Inotify.kernel_record Scenario.ignored_event ++ rest in
  Inotify.kernel_event_ok Scenario.ignored_event
  /\ Inotify.Watch_buffer 2 buf (Z.of_nat (length buf)) 0 Scenario.watching []
     = (Inotify.Finished, Scenario.watching,
        [ {| Inotify.Len := 16; Inotify.Mask := Inotify.IN_CREATE;
             Inotify.Name := "config.json"; Inotify.Path := "config";
             Inotify.EventOp := Inotify.Create |} ]).
Proof.
  split; [apply kernel_events_ok|].
  rewrite (Watch_buffer_reads_the_kernel_records 1 Scenario.ignored_event
             (Inotify.kernel_record Scenario.create_event) Scenario.watching []
             (proj1 kernel_events_ok)).
  by vm_compute.
Defined.

(** The same buffer of 48 bytes carries the length fields 0 and 16. *)
Lemma Watch_buffer_comes_to_an_end_witness :
  let buf := Inotify.kernel_record Scenario.ignored_event
             ++ Inotify.kernel_record Scenario.create_event in
  (Inotify.Watch_buffer 49 buf 48 0 Scenario.watching []).1.1 <> Inotify.Running.
Proof.
  apply Watch_buffer_comes_to_an_end; [|lia].
  apply (bool_decide_unpack _). by vm_compute.
Defined.

Lemma Watch_buffer_spins_on_a_wrapping_length_witness :
  Inotify.Watch_buffer 1000 Scenario.wrapping_record 16 0 Scenario.watching []
  = (Inotify.Running, Scenario.watching, []).
Proof.
  apply (Watch_buffer_spins_on_a_wrapping_length 1000 Scenario.wrapping_record 16 0
           Scenario.watching []
           {| Inotify.Syscall.Wd := 7; Inotify.Syscall.Mask := Inotify.IN_IGNORED;
              Inotify.Syscall.Cookie := 0; Inotify.Syscall.Len := 0xFFFFFFF0 |});
    by vm_compute.
Defined.

(** ** [proc.Memory] *)

Section MemoryFacts.
Import Proc.
Variable Fields : string -> list string.
Variable ParseUint : string -> option Z.

(** A line that [Memory] accepts: two fields or more, the second a
    number. *)
Lemma assign_field (m : Memmoryinfo) (f0 : string) (v : Z)
    (key : string) (proj : Memmoryinfo -> Z) :
  (key, proj) ∈ [("MemTotal:", MemTotal); ("MemFree:", MemFree);
                 ("MemAvailable:", MemAvailable)] ->
  proj (assign m f0 v) = if bool_decide (f0 = key) then v else proj m.
Proof.
  intros Hin. unfold assign.
  repeat (apply elem_of_cons in Hin as [[= -> ->]|Hin]);
    [| | |by apply elem_of_nil in Hin];
    repeat (case_bool_decide; subst; simpl; try done).
Qed.

Lemma Memory_lines_last (m0 : Memmoryinfo) (lines : list string) :
  Forall (fun line => exists f0 f1 tl v,
            Fields line = f0 :: f1 :: tl /\ ParseUint f1 = Some v) lines ->
  exists m,
    Memory_lines Fields ParseUint m0 lines = inr m
    /\ forall key proj,
         (key, proj) ∈ [("MemTotal:", MemTotal); ("MemFree:", MemFree);
                        ("MemAvailable:", MemAvailable)] ->
         ((forall line, line ∈ lines -> head (Fields line) <> Some key) -> proj m = proj m0)
         /\ (forall before line after f1 tl v,
               lines = before ++ line :: after ->
               Fields line = key :: f1 :: tl -> ParseUint f1 = Some v ->
               (forall l', l' ∈ after -> head (Fields l') <> Some key) ->
               proj m = v).
Proof.
  intros Hwf. revert m0. induction Hwf as [|line rest Hline Hrest IH]; intros m0.
  - exists m0. split; [done|]. intros key proj Hin. split; [done|].
    intros before line after f1 tl v Heq. by destruct before.
  - destruct Hline as (f0 & f1 & tl & v & Hf & Hp).
    destruct (IH (assign m0 f0 v)) as (m & Hm & Hlast).
    exists m. split; [simpl; by rewrite Hf, Hp|].
    intros key proj Hin. destruct (Hlast key proj Hin) as [Hnone Hsome].
    pose proof (assign_field m0 f0 v key proj Hin) as Hassign. split.
    + intros Hno. rewrite Hnone by (intros l Hl; apply Hno; by right).
      rewrite Hassign, bool_decide_eq_false_2; [done|].
      intros ->. apply (Hno line); [by left|]. by rewrite Hf.
    + intros before line' after f1' tl' v' Heq Hf' Hp' Hafter.
      destruct before as [|b before]; simpl in Heq.
      * injection Heq as <- <-. rewrite Hnone by done.
        rewrite Hassign. rewrite Hf in Hf'. injection Hf' as -> -> ->.
        rewrite bool_decide_eq_true_2 by done. congruence.
      * injection Heq as <- ->. by eapply Hsome.
Qed.

(** X18. When every line of [/proc/meminfo] has a second field that is a
    number, [Memory] succeeds; each of its three fields is the number of
    the last line that starts with the field's key, and 0 without such
    a line. *)
Theorem Memory_reports_the_last_line_of_each_key (lines : list string) :
  Forall (fun line => exists f0 f1 tl v,
            Fields line = f0 :: f1 :: tl /\ ParseUint f1 = Some v) lines ->
  exists m,
    Memory Fields ParseUint (Some lines) = inr m
    /\ forall key proj,
         (key, proj) ∈ [("MemTotal:", MemTotal); ("MemFree:", MemFree);
                        ("MemAvailable:", MemAvailable)] ->
         ((forall line, line ∈ lines -> head (Fields line) <> Some key) -> proj m = 0)
         /\ (forall before line after f1 tl v,
               lines = before ++ line :: after ->
               Fields line = key :: f1 :: tl -> ParseUint f1 = Some v ->
               (forall l', l' ∈ after -> head (Fields l') <> Some key) ->
               proj m = v).
Proof.
  intros Hwf.
  destruct (Memory_lines_last {| MemTotal := 0; MemFree := 0; MemAvailable := 0 |}
              lines Hwf) as (m & Hm & Hlast).
  exists m. split; [exact Hm|]. intros key proj Hin.
  destruct (Hlast key proj Hin) as [Hnone Hsome]. split; [|exact Hsome].
  intros Hno. rewrite (Hnone Hno).
  repeat (apply elem_of_cons in Hin as [[= -> ->]|Hin]); try done.
  by apply elem_of_nil in Hin.
Qed.

(** X19. [Memory] gives up at the first line that has fewer than two fields
    or whose second field is not a number, whatever the key of that line
    and whatever follows it: nothing of what was read is returned. *)
Theorem Memory_fails_on_the_first_bad_line (good : list string) (bad : string)
    (rest : list string) :
  Forall (fun line => exists f0 f1 tl v,
            Fields line = f0 :: f1 :: tl /\ ParseUint f1 = Some v) good ->
  ((length (Fields bad) < 2)%nat ->
     Memory Fields ParseUint (Some (good ++ bad :: rest)) = inl ErrParseProcMemInfo)
  /\ (forall f0 f1 tl,
        Fields bad = f0 :: f1 :: tl -> ParseUint f1 = None ->
        Memory Fields ParseUint (Some (good ++ bad :: rest)) = inl (NumError f1)).
Proof.
  intros Hwf. unfold Memory.
  generalize {| MemTotal := 0; MemFree := 0; MemAvailable := 0 |}.
  induction Hwf as [|line good Hline Hgood IH]; intros m0.
  - simpl. split.
    + intros Hshort. destruct (Fields bad) as [|f0 [|f1 tl]]; simpl in *; [done|done|lia].
    + intros f0 f1 tl -> Hp. by rewrite Hp.
  - destruct Hline as (f0 & f1 & tl & v & Hf & Hp). simpl. rewrite Hf, Hp. apply IH.
Qed.

End MemoryFacts.

Lemma meminfo_well_formed :
  Forall (fun line => exists f0 f1 tl v,
            Libraries.Fields line = f0 :: f1 :: tl /\ Libraries.ParseUint f1 = Some v)
    Scenario.meminfo.
Proof.
  unfold Scenario.meminfo.
  apply Forall_cons_2; [exists "MemTotal:", "16384256", ["kB"], 16384256; split; by vm_compute|].
  apply Forall_cons_2; [exists "MemFree:", "1024000", ["kB"], 1024000; split; by vm_compute|].
  apply Forall_cons_2; [exists "MemAvailable:", "8192000", ["kB"], 8192000; split; by vm_compute|].
  apply Forall_cons_2; [exists "Buffers:", "204800", ["kB"], 204800; split; by vm_compute|].
  apply Forall_nil_2.
Qed.

Lemma Memory_reports_the_last_line_of_each_key_witness :
  exists m,
    Proc.Memory Libraries.Fields Libraries.ParseUint (Some Scenario.meminfo) = inr m
    /\ Proc.MemFree m = 1024000.
Proof.
  destruct (Memory_reports_the_last_line_of_each_key Libraries.Fields Libraries.ParseUint
              Scenario.meminfo meminfo_well_formed) as (m & Hm & Hlast).
  exists m. split; [exact Hm|].
  destruct (Hlast "MemFree:" Proc.MemFree) as [_ Hsome]; [set_solver|].
  apply (Hsome ["MemTotal:       16384256 kB"] "MemFree:         1024000 kB"
           ["MemAvailable:    8192000 kB"; "Buffers:          204800 kB"] "1024000" ["kB"]);
    [done | by vm_compute | by vm_compute |].
  intros l' Hl'. repeat (apply elem_of_cons in Hl' as [->|Hl']; [by vm_compute|]).
  by apply elem_of_nil in Hl'.
Defined.

(** An empty line in the middle of the file. *)
Lemma Memory_fails_on_the_first_bad_line_witness :
  Proc.Memory Libraries.Fields Libraries.ParseUint
    (Some (Scenario.meminfo ++ "" :: Scenario.meminfo)) = inl Proc.ErrParseProcMemInfo.
Proof.
  apply (Memory_fails_on_the_first_bad_line Libraries.Fields Libraries.ParseUint
           Scenario.meminfo "" Scenario.meminfo meminfo_well_formed).
  vm_compute. lia.
Defined.

(** ** The spellings of [zok.Bool] *)

Section BoolFacts.
Import Zok.
Variable Unquote : string -> option string.

(** X20. No text is a true value and a false value at once; whatever
    [strconv.Unquote] does, [UnmarshalJSON] returns no error; and when it
    refuses the two unquoted words that [json.Marshal] writes for a
    [bool], a marshalled [Bool] is read back as it was. *)
Theorem Bool_spellings :
  (forall v, IsTrueValue v = true -> IsFalseValue v = false)
  /\ (forall data, (Bool_UnmarshalJSON Unquote data).2 = None)
  /\ (Unquote "true" = None -> Unquote "false" = None ->
      forall b, Bool_UnmarshalJSON Unquote (Bool_MarshalJSON b) = (b, None)).
Proof.
  split; [|split].
  - intros v. unfold IsTrueValue, IsFalseValue.
    repeat (case_bool_decide; [subst; by vm_compute|]). done.
  - done.
  - intros Ht Hf [|]; unfold Bool_UnmarshalJSON, Bool_MarshalJSON;
      by rewrite ?Ht, ?Hf.
Qed.

End BoolFacts.

(** ** The cleanup pass on the disk *)

Section JoinedNames.

(** An element that [Clean] keeps as it is. *)
Lemma split_elems_no_sep (cur n : list ascii) :
  sep ∉ n -> split_elems cur n = [reverse cur ++ n].
Proof.
  revert cur. induction n as [|c n IH]; intros cur Hn; simpl.
  - by rewrite (right_id_L [] (++)).
  - rewrite bool_decide_eq_false_2 by (intros ->; apply Hn; by left).
    rewrite IH by (intros ?; apply Hn; by right).
    by rewrite reverse_cons, <- (assoc_L (++)).
Qed.

Lemma split_elems_app (cur a b : list ascii) :
  split_elems cur (a ++ sep :: b) = split_elems cur a ++ split_elems [] b.
Proof.
  revert cur. induction a as [|c a IH]; intros cur; simpl.
  - done.
  - case_bool_decide; simpl; by rewrite IH.
Qed.

Lemma join_elems_snoc (ys : list (list ascii)) (n : list ascii) :
  join_elems (ys ++ [n]) = match ys with [] => n | _ => join_elems ys ++ sep :: n end.
Proof.
  induction ys as [|y ys IH]; [done|].
  destruct ys as [|y' ys]; [done|].
  change (join_elems ((y :: y' :: ys) ++ [n]))
    with (y ++ sep :: join_elems ((y' :: ys) ++ [n])).
  rewrite IH. change (join_elems (y :: y' :: ys)) with (y ++ sep :: join_elems (y' :: ys)).
  by rewrite <- (assoc_L (++)).
Qed.

Lemma after_last_sep_app (q n : list ascii) :
  sep ∉ n -> after_last_sep (q ++ sep :: n) = S (length q).
Proof.
  intros Hn. induction q as [|c q IH].
  - simpl. repeat case_bool_decide; try done; set_solver.
  - change ((c :: q) ++ sep :: n) with (c :: (q ++ sep :: n)).
    cbn [after_last_sep]. rewrite IH.
    rewrite !bool_decide_eq_true_2; [done| |]; set_solver.
Qed.

Lemma after_last_sep_none (n : list ascii) : sep ∉ n -> after_last_sep n = 0%nat.
Proof. intros Hn. destruct n; [done|]. simpl. by rewrite bool_decide_eq_false_2. Qed.

Lemma clean_chars_cons (c : ascii) (cs : list ascii) :
  clean_chars (c :: cs)
  = if bool_decide (c = sep)
    then sep :: join_elems (reverse (foldl (clean_step (bool_decide (c = sep))) []
                                       (split_elems [] (c :: cs))))
    else match join_elems (reverse (foldl (clean_step (bool_decide (c = sep))) []
                                      (split_elems [] (c :: cs)))) with
         | [] => dot
         | body => body
         end.
Proof.
  unfold clean_chars. cbv zeta. destruct (bool_decide (c = sep)); [done|].
  by destruct (join_elems _).
Qed.

(** [Join] of a directory and a name that has no separator and is
    neither empty nor [.] nor [..] ends in that name. *)
Lemma Split_Join (d n : string) :
  sep ∉ Strings.chars n -> n <> "" -> n <> "." -> n <> ".." ->
  (Split (Join [d; n])).2 = n.
Proof.
  intros Hsep Hne Hdot Hdotdot.
  assert (Hplain : forall rooted out,
            clean_step rooted out (Strings.chars n) = Strings.chars n :: out).
  { intros rooted out. unfold clean_step.
    rewrite !bool_decide_eq_false_2; [done| | |].
    - intros Heq. apply Hdotdot. by apply chars_inj.
    - intros Heq. apply Hdot. by apply chars_inj.
    - intros Heq. apply Hne. by apply chars_inj. }
  assert (Hshape : exists pre,
            Strings.chars (Join [d; n]) = pre ++ Strings.chars n
            /\ (pre = [] \/ exists q, pre = q ++ [sep])).
  { unfold Join. rewrite filter_cons.
    destruct (decide (d <> "")) as [Hd|Hd].
    - rewrite filter_cons_True by done. simpl. rewrite chars_of_chars.
      destruct (Strings.chars d) as [|c cs] eqn:Hcs.
      { exfalso. apply Hd. by apply chars_inj. }
      change ((c :: cs) ++ sep :: Strings.chars n)
        with (c :: (cs ++ sep :: Strings.chars n)).
      rewrite clean_chars_cons.
      change (c :: (cs ++ sep :: Strings.chars n))
        with ((c :: cs) ++ sep :: Strings.chars n).
      rewrite split_elems_app, (split_elems_no_sep [] _ Hsep), foldl_app.
      cbn [foldl]. change (reverse [] ++ Strings.chars n) with (Strings.chars n).
      rewrite Hplain, reverse_cons, join_elems_snoc.
      destruct (reverse (foldl _ _ _)) as [|y ys] eqn:Hkept.
      + destruct (bool_decide (c = sep)).
        * exists [sep]. split; [done|]. right. by exists [].
        * exists []. split; [|by left].
          destruct (Strings.chars n) eqn:Hn; [|done].
          exfalso. apply Hne. by apply chars_inj.
      + destruct (bool_decide (c = sep)).
        * exists (sep :: join_elems (y :: ys) ++ [sep]). split.
          -- simpl. by rewrite <- (assoc_L (++)).
          -- right. by exists (sep :: join_elems (y :: ys)).
        * exists (join_elems (y :: ys) ++ [sep]). split.
          -- destruct (join_elems (y :: ys) ++ sep :: Strings.chars n) eqn:Hj.
             { by destruct (join_elems (y :: ys)). }
             rewrite <- Hj. by rewrite <- (assoc_L (++)).
          -- right. by eexists.
    - rewrite filter_cons_True by done. simpl. rewrite chars_of_chars.
      exists []. split; [|by left]. simpl.
      destruct (Strings.chars n) as [|c cs] eqn:Hn.
      { exfalso. apply Hne. by apply chars_inj. }
      rewrite clean_chars_cons.
      rewrite bool_decide_eq_false_2 by (intros ->; apply Hsep; by left).
      rewrite (split_elems_no_sep [] (c :: cs) Hsep).
      cbn [foldl]. change (reverse [] ++ (c :: cs)) with (c :: cs).
      by rewrite Hplain. }
  destruct Hshape as (pre & Hchars & Hpre). unfold Split. simpl. rewrite Hchars.
  apply chars_inj. rewrite chars_of_chars.
  destruct Hpre as [->|[q ->]].
  - change ([] ++ Strings.chars n) with (Strings.chars n).
    rewrite after_last_sep_none by done. by rewrite drop_0.
  - rewrite <- (assoc_L (++)). change ([sep] ++ Strings.chars n) with (sep :: Strings.chars n).
    rewrite after_last_sep_app by done.
    rewrite (cons_middle sep q), (assoc_L (++)).
    rewrite drop_app_length'; [done|]. rewrite length_app. simpl. lia.
Qed.

End JoinedNames.

Section MillOnDisk.
Import Os Logrotate.
Variable Parse : string -> string -> option Z.
Variable zstd : list byte -> list byte.


Lemma sole_name_Remove (w : World) (a p : string) (i : Z) (f : File) :
  sole_name w a i f -> p <> a -> sole_name (Remove w p).2 a i f.
Proof.
  intros (Ha & Hf & Hsole & Hold) Hne. unfold Remove.
  destruct (names w !! p) as [j|] eqn:Hp; simpl; [|done].
  repeat split; simpl.
  - by rewrite lookup_delete_ne.
  - done.
  - intros n Hn. apply Hsole. destruct (decide (n = p)) as [->|Hnp].
    + by rewrite lookup_delete_eq in Hn.
    + by rewrite lookup_delete_ne in Hn.
  - intros n j' Hn. destruct (decide (n = p)) as [->|Hnp].
    + by rewrite lookup_delete_eq in Hn.
    + rewrite lookup_delete_ne in Hn by done. by eapply Hold.
Qed.

Lemma sole_name_compressFile (l : LogrotateWriter) (w : World) (name a : string)
    (i : Z) (f : File) :
  sole_name w a i f ->
  Join [dirname l; name] <> a -> Join [dirname l; name +:+ compressSuffix] <> a ->
  sole_name (compressFile zstd l w name).2 a i f.
Proof.
  intros Hs Hsrc Hdst. unfold compressFile, Stat, OpenAppend.
  destruct (names w !! Join [dirname l; name]) as [k|] eqn:Hk; simpl;
    [|by apply sole_name_Remove].
  unfold Create. case_bool_decide; simpl; [by apply sole_name_Remove|].
  destruct Hs as (Ha & Hf & Hsole & Hold).
  destruct (names w !! Join [dirname l; name +:+ compressSuffix]) as [j|] eqn:Hj; simpl.
  - assert (Hji : j <> i) by (intros ->; by apply Hdst, Hsole).
    apply sole_name_Remove; [|done]. repeat split; simpl; try done.
    unfold inode in *. simpl. by rewrite !lookup_insert_ne.
  - assert (Hni : next_inode w <> i) by (apply Hold in Ha; lia).
    apply sole_name_Remove; [|done]. repeat split; simpl.
    + by rewrite lookup_insert_ne.
    + unfold inode in *. simpl. by rewrite !lookup_insert_ne.
    + intros n Hn. apply Hsole.
      destruct (decide (n = Join [dirname l; name +:+ compressSuffix])) as [->|Hne].
      * rewrite lookup_insert_eq in Hn. congruence.
      * by rewrite lookup_insert_ne in Hn.
    + intros n j Hn.
      destruct (decide (n = Join [dirname l; name +:+ compressSuffix])) as [->|Hne].
      * rewrite lookup_insert_eq in Hn. injection Hn as <-. lia.
      * rewrite lookup_insert_ne in Hn by done. apply Hold in Hn. lia.
Qed.

Lemma sole_name_remove_all (l : LogrotateWriter) (w : World) (err : option error)
    (files : list logInfo) (a : string) (i : Z) (f : File) :
  sole_name w a i f ->
  (forall g, g ∈ files -> Join [dirname l; name g] <> a) ->
  sole_name (remove_all l w err files).2 a i f.
Proof.
  revert w err. induction files as [|g rest IH]; intros w err Hs Hne; simpl; [done|].
  pose proof (sole_name_Remove w a (Join [dirname l; name g]) i f Hs
                (Hne g ltac:(by left))) as Hs1.
  destruct (Remove w (Join [dirname l; name g])) as [e w1]. simpl in Hs1.
  apply IH; [done|]. intros g' Hg'. apply Hne. by right.
Qed.

Lemma sole_name_compress_all (l : LogrotateWriter) (w : World) (err : option error)
    (files : list logInfo) (a : string) (i : Z) (f : File) :
  sole_name w a i f ->
  (forall g, g ∈ files ->
     Join [dirname l; name g] <> a /\ Join [dirname l; name g +:+ compressSuffix] <> a) ->
  sole_name (compress_all zstd l w err files).2 a i f.
Proof.
  revert w err. induction files as [|g rest IH]; intros w err Hs Hne; simpl; [done|].
  destruct (Hne g ltac:(by left)) as [H1 H2].
  pose proof (sole_name_compressFile l w (name g) a i f Hs H1 H2) as Hs1.
  destruct (compressFile zstd l w (name g)) as [e w1]. simpl in Hs1.
  apply IH; [done|]. intros g' Hg'. apply Hne. by right.
Qed.

(** What [mill] selects, for a constructed writer: names that carry the
    backup prefix, which the base name of the active file does not. *)
Lemma mill_selection (tempDir arg0 : string) (o : LogrotateOption) (now : Z)
    (entries : list DirEntry) (remove compress : list logInfo) (g : logInfo) :
  let l := NewLogrotateWriter tempDir arg0 o in
  mill Parse l now entries = Some (remove, compress) ->
  g ∈ remove ++ compress ->
  exists stem r,
    name g = (stem +:+ "-") +:+ r
    /\ HasPrefix (basename l) (stem +:+ "-") = false
    /\ {| Name := name g; IsRegular := true |} ∈ entries.
Proof.
  intros l Hmill Hg.
  destruct (NewLogrotateWriter_shape tempDir arg0 o)
    as ((stem & Hbase & Hpre) & Hext). fold l in Hbase, Hpre, Hext.
  destruct (mill_picks_scanned Parse l now entries remove compress g Hmill Hg)
    as (pre & fs & Hpre' & Hscan & Hin).
  rewrite Hpre in Hpre'. injection Hpre' as <-.
  destruct (scan_elem Parse l _ entries fs g Hscan Hin) as [Hentry Hstamp].
  exists stem.
  assert (Hr : exists r, name g = (stem +:+ "-") +:+ r).
  { destruct Hstamp as [Hs|Hs]; apply timeFromName_shape in Hs as (ts & -> & _);
      by eexists. }
  destruct Hr as [r Hr]. exists r. split; [done|]. split; [|done].
  rewrite Hbase. unfold HasPrefix. rewrite !chars_app, is_prefix_cancel.
  destruct Hext as [->|[e ->]]; done.
Qed.

(** A name with the backup prefix, joined to the log directory, is not
    the active file. *)
Lemma backup_path_is_not_the_active_file (l : LogrotateWriter) (stem r : string) :
  HasPrefix (basename l) (stem +:+ "-") = false ->
  basename l = (Split (filename l)).2 ->
  sep ∉ Strings.chars ((stem +:+ "-") +:+ r) ->
  Join [dirname l; (stem +:+ "-") +:+ r] <> filename l.
Proof.
  intros Hactive Hbase Hsep Heq.
  assert (Hdash : "-"%char ∈ Strings.chars ((stem +:+ "-") +:+ r)).
  { rewrite !chars_app. set_solver. }
  apply (f_equal (fun p => (Split p).2)) in Heq. rewrite Split_Join in Heq; try done.
  - rewrite <- Hbase in Heq. rewrite <- Heq, HasPrefix_app in Hactive. done.
  - intros E. rewrite E in Hdash. by apply elem_of_nil in Hdash.
  - intros E. rewrite E in Hdash. vm_compute in Hdash.
    apply elem_of_cons in Hdash as [?|Hdash]; [done|]. by apply elem_of_nil in Hdash.
  - intros E. rewrite E in Hdash. vm_compute in Hdash.
    repeat (apply elem_of_cons in Hdash as [?|Hdash]; [done|]). by apply elem_of_nil in Hdash.
Qed.

(** X21. The cleanup pass of a writer built by [NewLogrotateWriter], run to
    its end on a directory whose entry names hold no separator, leaves
    the active log file alone: whatever it removes, compresses or fails
    on, the file name still refers to the same file with the same
    bytes. *)
Theorem mill_leaves_the_active_file_alone
    (tempDir arg0 : string) (o : LogrotateOption) (w w' : World)
    (entries : list DirEntry) (i : Z) (err : option error) :
  let l := NewLogrotateWriter tempDir arg0 o in
  Forall (fun e => sep ∉ Strings.chars (Name e)) entries ->
  sole_name w (filename l) i (inode w i) ->
  mill_on_disk Parse zstd l w entries = Some (err, w') ->
  names w' !! filename l = Some i /\ inode w' i = inode w i.
Proof.
  intros l Hplain Hs. unfold mill_on_disk.
  destruct (mill Parse l (now w) entries) as [[remove compress]|] eqn:Hmill; [|done].
  simpl.
  assert (Hne : forall g, g ∈ remove ++ compress ->
            Join [dirname l; name g] <> filename l
            /\ Join [dirname l; name g +:+ compressSuffix] <> filename l).
  { intros g Hg.
    destruct (mill_selection tempDir arg0 o (now w) entries remove compress g Hmill Hg)
      as (stem & r & Hname & Hactive & Hentry).
    fold l in Hactive. rewrite Forall_forall in Hplain.
    specialize (Hplain _ Hentry). simpl in Hplain. rewrite Hname in Hplain |- *. split.
    - by apply backup_path_is_not_the_active_file.
    - rewrite append_assoc_s. apply backup_path_is_not_the_active_file; [done|done|].
      rewrite <- append_assoc_s, chars_app. intros [?|Hz]%elem_of_app; [done|].
      vm_compute in Hz.
      repeat (apply elem_of_cons in Hz as [?|Hz]; [done|]). by apply elem_of_nil in Hz. }
  pose proof (sole_name_remove_all l w None remove (filename l) i (inode w i) Hs
                ltac:(intros g Hg; apply Hne; set_solver)) as Hs1.
  destruct (remove_all l w None remove) as [e1 w1]. simpl in Hs1.
  pose proof (sole_name_compress_all l w1 e1 compress (filename l) i (inode w i) Hs1
                ltac:(intros g Hg; apply Hne; set_solver)) as Hs2.
  intros [= Hrun]. rewrite Hrun in Hs2. simpl in Hs2.
  by destruct Hs2 as (H1 & H2 & _).
Qed.


(** X23. [compressFile] of a file that is not there returns the error of
    [os.Stat], wrapped twice, and its clean-up removes the compressed
    file of that name if there is one. *)
Theorem compressFile_of_a_missing_file_removes_the_compressed_one
    (l : LogrotateWriter) (w : World) (name : string) :
  let src := Join [dirname l; name] in
  let dst := Join [dirname l; name +:+ compressSuffix] in
  names w !! src = None ->
  exists w',
    compressFile zstd l w name
    = (Some (Wrap "compressFile" (Wrap "failed to stat log file" ErrNotExist)), w')
    /\ names w' !! dst = None
    /\ forall other, other <> dst -> names w' !! other = names w !! other.
Proof.
  intros src dst Hsrc. unfold compressFile, Stat. fold src dst. rewrite Hsrc. simpl.
  eexists. split; [reflexivity|]. unfold Remove.
  destruct (names w !! dst) eqn:Hd; simpl.
  - split; [apply lookup_delete_eq|]. intros other Ho. by rewrite lookup_delete_ne.
  - done.
Qed.

End MillOnDisk.

Lemma log_dir_sole_name :
  Logrotate.sole_name Scenario.log_dir "/var/log/app.log" 1
    (Os.inode Scenario.log_dir 1).
Proof.
  split; [by vm_compute|]. split; [done|]. unfold Scenario.log_dir. simpl. split.
  - intros n Hn. apply lookup_insert_Some in Hn as [[<- _]|[_ Hn]]; [done|].
    by apply lookup_singleton_Some in Hn as [_ ?].
  - intros n j Hn. apply lookup_insert_Some in Hn as [[_ <-]|[_ Hn]]; [lia|].
    apply lookup_singleton_Some in Hn as [_ <-]. lia.
Qed.

(** The retention writer cleans a directory in which one backup is
    left: the pass compresses it, fails on the three that are listed
    but gone, and [app.log] keeps its three bytes. *)
Lemma mill_leaves_the_active_file_alone_witness :
  exists err w',
    Logrotate.mill_on_disk Time.Parse Scenario.framed Scenario.retention_writer
      Scenario.log_dir Scenario.listing = Some (err, w')
    /\ Os.names w' !! "/var/log/app.log" = Some 1
    /\ Os.data (Os.inode w' 1) = repeat x61 3.
Proof.
  destruct (Logrotate.mill_on_disk Time.Parse Scenario.framed Scenario.retention_writer
              Scenario.log_dir Scenario.listing) as [[err w']|] eqn:Hrun;
    [|by vm_compute in Hrun].
  exists err, w'. split; [done|]. unfold Scenario.retention_writer in Hrun.
  destruct (fun Hplain =>
              mill_leaves_the_active_file_alone Time.Parse Scenario.framed "/tmp" "serv"
                {| Logrotate.Filename := "/var/log/app.log"; Logrotate.MaxSize := 100;
                   Logrotate.MaxBackups := 3; Logrotate.MaxAge := 216000 * Time.Second;
                   Logrotate.BackupTimeFormat := ""; Logrotate.FileHeader := "";
                   Logrotate.Compress := true |}
                Scenario.log_dir w' Scenario.listing 1 err Hplain log_dir_sole_name Hrun)
    as [Hname Hdata].
  - apply (bool_decide_unpack _). by vm_compute.
  - split; [exact Hname|]. by rewrite Hdata.
Defined.


(** The backup of 3 March is listed but not there. *)
Lemma compressFile_of_a_missing_file_removes_the_compressed_one_witness :
  exists w',
    Logrotate.compressFile Scenario.framed Scenario.retention_writer Scenario.log_dir
      "app-2024-03-03T00-00-00.000.log"
    = (Some (Os.Wrap "compressFile" (Os.Wrap "failed to stat log file" Os.ErrNotExist)), w')
    /\ Os.names w' !! "/var/log/app-2024-03-03T00-00-00.000.log.zst" = None.
Proof.
  destruct (compressFile_of_a_missing_file_removes_the_compressed_one Scenario.framed
              Scenario.retention_writer Scenario.log_dir "app-2024-03-03T00-00-00.000.log")
    as (w' & Hrun & Hdst & _); [by vm_compute|].
  exists w'. by split.
Defined.

(** ** [fileExists] and the web root *)

Section WebRoot.
Import Server.
Variable Stat : string -> option bool.

(** [Clean] drops an element together with the [..] that follows it. *)
Lemma clean_chars_dotdot (a last x : list ascii) :
  a <> [] -> last <> [] -> last <> dot -> last <> dotdot -> sep ∉ last ->
  clean_chars (a ++ sep :: last ++ sep :: dotdot ++ sep :: x) = clean_chars (a ++ sep :: x).
Proof.
  intros Ha Hne Hdot Hdotdot Hsep. destruct a as [|c cs]; [done|].
  change ((c :: cs) ++ sep :: last ++ sep :: dotdot ++ sep :: x)
    with (c :: (cs ++ sep :: last ++ sep :: dotdot ++ sep :: x)).
  change ((c :: cs) ++ sep :: x) with (c :: (cs ++ sep :: x)).
  rewrite !clean_chars_cons.
  change (c :: (cs ++ sep :: last ++ sep :: dotdot ++ sep :: x))
    with ((c :: cs) ++ sep :: last ++ sep :: dotdot ++ sep :: x).
  change (c :: (cs ++ sep :: x)) with ((c :: cs) ++ sep :: x).
  assert (Hstate :
    foldl (clean_step (bool_decide (c = sep))) []
      (split_elems [] ((c :: cs) ++ sep :: last ++ sep :: dotdot ++ sep :: x))
    = foldl (clean_step (bool_decide (c = sep))) []
        (split_elems [] ((c :: cs) ++ sep :: x))).
  { rewrite !split_elems_app, !foldl_app.
    rewrite (split_elems_no_sep [] last Hsep).
    assert (Hdd : split_elems [] dotdot = [dotdot]) by done. rewrite Hdd.
    change (reverse [] ++ last) with last. cbn [foldl]. f_equal.
    set (out := foldl _ [] (split_elems [] (c :: cs))).
    assert (Hlast : clean_step (bool_decide (c = sep)) out last = last :: out).
    { unfold clean_step. by repeat (case_bool_decide; [done|]). }
    assert (Hback : clean_step (bool_decide (c = sep)) (last :: out) dotdot = out).
    { unfold clean_step. simpl. by rewrite bool_decide_eq_false_2. }
    by rewrite Hlast, Hback. }
  by rewrite Hstate.
Qed.

(** X24. A request path cannot name a file unless it starts with a slash;
    but a path that starts with [/../] is answered for a file beside the
    web root: with the root [a/last], [fileExists] tells whether [x] is a
    regular file of [a]. *)
Theorem fileExists_follows_dotdot_out_of_the_root (a last x : string) :
  a <> "" -> x <> "" ->
  last <> "" -> last <> "." -> last <> ".." -> sep ∉ Strings.chars last ->
  (forall root urlpath, HasPrefix urlpath "/" = false -> fileExists Stat root urlpath = false)
  /\ fileExists Stat (a +:+ "/" +:+ last) ("/../" +:+ x)
     = match Stat (Join [a; x]) with Some regular => regular | None => false end.
Proof.
  intros Ha Hx Hne Hdot Hdotdot Hsep. split.
  - intros root urlpath Hp. unfold fileExists, TrimPrefix. rewrite Hp.
    by rewrite bool_decide_eq_false_2 by lia.
  - unfold fileExists, TrimPrefix.
    change (HasPrefix ("/../" +:+ x) "/") with true. cbn [length Strings.chars].
    change (drop _ (Strings.chars ("/../" +:+ x))) with (Strings.chars ("../" +:+ x)).
    rewrite of_chars_chars.
    rewrite bool_decide_eq_true_2
      by (rewrite !len_app; change (len "/../") with 4; change (len "../") with 3; lia).
    assert (Hjoin : Join [a +:+ "/" +:+ last; "../" +:+ x] = Join [a; x]).
    { unfold Join.
      assert (Hroot : a +:+ "/" +:+ last <> "").
      { intros Heq. apply (f_equal len) in Heq. rewrite !len_app in Heq.
        pose proof (len_nonneg a). pose proof (len_nonneg last).
        change (len "/") with 1 in Heq. change (len "") with 0 in Heq. lia. }
      rewrite !filter_cons_True by done. simpl. f_equal.
      rewrite !chars_app. rewrite <- !(assoc_L (++)).
      change (Strings.chars "/" ++ ?r) with (sep :: r).
      change (Strings.chars "../" ++ ?r) with (dotdot ++ sep :: r).
      apply clean_chars_dotdot; try done.
      - intros E. apply Ha. by apply chars_inj.
      - intros E. apply Hne. by apply chars_inj.
      - intros E. apply Hdot. by apply chars_inj.
      - intros E. apply Hdotdot. by apply chars_inj. }
    by rewrite Hjoin.
Qed.

End WebRoot.

(** With the web root [data/www], the request path [/../secret.key]
    finds the key that lies beside it. *)
Lemma fileExists_follows_dotdot_out_of_the_root_witness :
  Server.fileExists Scenario.web_disk "data/www" "/../secret.key" = true.
Proof.
  refine (eq_trans (proj2 (fileExists_follows_dotdot_out_of_the_root Scenario.web_disk
                             "data" "www" "secret.key" _ _ _ _ _ _)) _);
    try done; apply (bool_decide_unpack _); by vm_compute.
Defined.

(** ** The order in which the targets are hashed *)

Section IterationOrder.
Import Supervisor.
Variable sha1_Sum : list byte -> list byte.
Variable json_Unmarshal : list byte -> Settings.Settings -> option string * Settings.Settings.
Variable json_Marshal : Settings.Settings -> list byte.

(** X25. The range over [f.Watched()] follows the iteration order of a map,
    which Go leaves open. When the handler meets the targets in an order
    for which the digest differs from the one remembered, it restarts
    the generation although no file has changed: on the same disk, the
    current context is cancelled with [ErrConfigChanged] and a new one is
    queued. *)
Theorem supervisor_restarts_on_another_iteration_order
    (st : state) (configPath : string) (d : gmap string (list byte))
    (order1 order2 : list string) :
  reachable st ->
  order2 ≡ₚ order1 ->
  hash st = Fingerprint.fingerprint sha1_Sum json_Unmarshal json_Marshal d configPath order1 ->
  Fingerprint.fingerprint sha1_Sum json_Unmarshal json_Marshal d configPath order2
  <> Fingerprint.fingerprint sha1_Sum json_Unmarshal json_Marshal d configPath order1 ->
  srv st = [] ->
  exists st',
    handle_changed sha1_Sum json_Unmarshal json_Marshal st configPath d order2 = Continue st'
    /\ cur st' = next_ctx st
    /\ srv st' = [next_ctx st]
    /\ cancelled st' !! cur st = Some ErrConfigChanged
    /\ hash st' <> hash st.
Proof.
  intros Hreach _ Hhash Hdiff Hsrv.
  pose proof (invariant_live st (reachable_invariant st Hreach)) as Hlive.
  unfold handle_changed, on_changed. rewrite Hhash.
  rewrite bool_decide_eq_false_2 by done.
  unfold send_srv. simpl. rewrite Hsrv. simpl.
  eexists. split; [reflexivity|]. simpl.
  repeat match goal with |- _ /\ _ => split end; try done.
  by apply cancel_lookup_fresh.
Qed.

End IterationOrder.

(** The three files of [served_files], unchanged, met with the
    certificate first. *)
Lemma supervisor_restarts_on_another_iteration_order_witness :
  exists st',
    Supervisor.handle_changed Libraries.sha1_Sum Libraries.json_refuse Libraries.json_Marshal
      Scenario.supervising "config/config.json" Scenario.served_files
      ["tls/cert.pem"; "config/config.json"; "tls/key.pem"] = Supervisor.Continue st'
    /\ Supervisor.cur st' = 2
    /\ Supervisor.cancelled st' !! 1 = Some Supervisor.ErrConfigChanged.
Proof.
  assert (Hreach : Supervisor.reachable Scenario.supervising).
  { apply (Supervisor.reachable_step
             (Supervisor.init (Supervisor.hash Scenario.supervising)) _ Supervisor.EvSrv);
      [constructor | by vm_compute]. }
  destruct (supervisor_restarts_on_another_iteration_order Libraries.sha1_Sum
              Libraries.json_refuse Libraries.json_Marshal Scenario.supervising
              "config/config.json" Scenario.served_files Scenario.served_order
              ["tls/cert.pem"; "config/config.json"; "tls/key.pem"] Hreach)
    as (st' & Hrun & Hcur & _ & Hcancel & _).
  - apply perm_swap.
  - by vm_compute.
  - by vm_compute.
  - done.
  - exists st'. split; [exact Hrun|]. split; [exact Hcur | exact Hcancel].
Defined.
